(** * A binary buddy allocator: the two copies of buddy.c, embedded and verified

    The repository holds two copies of the allocator, [src/buddy.c] and
    [src/buddy/buddy.c].  Both manage the 1 MiB array [g_memory] in pages of
    4 KiB with one free list per order.  The macros, the descriptor type and
    the globals are the same text in both files and are embedded once; the
    functions of each file are embedded in a module of their own ([Root] for
    [src/buddy.c], [Sub] for [src/buddy/buddy.c]). *)

From Stdlib Require Import ZArith Lia String.
From stdpp Require Import base tactics option list list_numbers numbers sets.

Local Open Scope Z_scope.

(** * Part I: the embedding and the vocabulary of the statements *)

(** ** Outcomes of a C call *)

(** A call either returns, or prints a diagnostic and then spins in
    [while(1);], or runs into behaviour C leaves undefined (an index outside
    an array, a shift by a count outside the width of [int], a list head
    nobody initialised).  [Fuel] is the embedding's own value for a recursion
    cut short; [buddy_alloc_total] and [buddy_free_total] below show that the
    entry points never produce it. *)
Inductive outcome (A : Type) : Type :=
| Ret (a : A)
| Hang (fmt : string) (arg : Z)
| Undef
| Fuel.
Arguments Ret {A} a.
Arguments Hang {A} fmt arg.
Arguments Undef {A}.
Arguments Fuel {A}.

Definition outcome_bind {A B : Type} (f : A → outcome B) (m : outcome A) : outcome B :=
  match m with
  | Ret a => f a
  | Hang fmt arg => Hang fmt arg
  | Undef => Undef
  | Fuel => Fuel
  end.

#[global] Instance outcome_mbind : MBind outcome := @outcome_bind.
#[global] Instance outcome_mret : MRet outcome := @Ret.

(** ** Macros and types shared by the two files *)

Definition MIN_ORDER : Z := 12.
Definition MAX_ORDER : Z := 20.

(** [#define PAGE_SIZE (1<<MIN_ORDER)] *)
Definition PAGE_SIZE : Z := 1 ≪ MIN_ORDER.

(** [(1<<MAX_ORDER)/PAGE_SIZE], the length of [g_pages]. *)
Definition n_pages : Z := (1 ≪ MAX_ORDER) `div` PAGE_SIZE.

(** [unsigned long] is taken to be 64 bits wide (LP64). *)
Definition ulong (x : Z) : Z := x `mod` 2 ^ 64.

(** [1 << o] on [int]: defined for counts [0 .. 30]. *)
Definition shl1 (o : Z) : outcome Z :=
  if bool_decide (0 ≤ o < 31) then Ret (1 ≪ o) else Undef.

(** A [char *] or [void *] of the program is null or points into [g_memory];
    [Mem off] is [g_memory + off].  Every address computation of the program
    subtracts [g_memory] first, so the numeric value of the base never
    matters. *)
Inductive ptr : Type :=
| NULL
| Mem (off : Z).

#[global] Instance ptr_eq_dec : EqDecision ptr.
Proof. solve_decision. Defined.

(** [PAGE_TO_ADDR(page_idx)] is [((page_idx) * PAGE_SIZE) + g_memory], as a
    pointer. *)
Definition PAGE_TO_ADDR (page_idx : Z) : ptr := Mem (page_idx * PAGE_SIZE).

(** [ADDR_TO_PAGE(addr)] is [(unsigned long)(addr - g_memory) / PAGE_SIZE]: the
    pointer difference, converted to [unsigned long], divided by the page
    size. *)
Definition ADDR_TO_PAGE (addr : ptr) : outcome Z :=
  match addr with
  | NULL => Undef
  | Mem off => Ret (ulong off `div` PAGE_SIZE)
  end.

(** [BUDDY_ADDR(addr, o)] is
    [(((unsigned long)(addr) - (unsigned long)g_memory) ^ (1<<(o))) + (unsigned long)g_memory],
    as a pointer. *)
Definition BUDDY_ADDR (addr : ptr) (o : Z) : outcome ptr :=
  match addr with
  | NULL => Undef
  | Mem off => bit ← shl1 o; Ret (Mem (Z.lxor (ulong off) (ulong bit)))
  end.

(** [page_t].  The [list] member of the C struct is the node that links the
    descriptor into a free list; the embedding records it as membership of
    the descriptor's page number in a list of [free_area]. *)
Record page_t : Type := { index : Z; address : ptr; order : Z }.

(** The globals.  [free_area] has [MAX_ORDER+1] list heads, [None] for a head
    that was never initialised (the zeroed storage the program starts with);
    an initialised head holds the page numbers of the descriptors linked on
    it, first element first.  [g_pages] has one descriptor per page. *)
Record state : Type := { free_area : list (option (list Z)); g_pages : list page_t }.

(** The zero-initialised globals the program starts with. *)
Definition boot : state :=
  {| free_area := replicate (Z.to_nat (MAX_ORDER + 1)) None;
     g_pages := replicate (Z.to_nat n_pages) {| index := 0; address := NULL; order := 0 |} |}.

(** [g_pages[p]] read; an index outside the array is undefined. *)
Definition page_at (st : state) (p : Z) : outcome page_t :=
  if bool_decide (0 ≤ p < n_pages) then
    match g_pages st !! Z.to_nat p with
    | Some pg => Ret pg
    | None => Undef
    end
  else Undef.

Definition write_page (p : Z) (pg : page_t) (st : state) : state :=
  {| free_area := free_area st; g_pages := <[Z.to_nat p := pg]> (g_pages st) |}.

(** [g_pages[p].order = v] *)
Definition set_order (p v : Z) (st : state) : outcome state :=
  pg ← page_at st p;
  Ret (write_page p {| index := index pg; address := address pg; order := v |} st).

(** The list on [free_area[k]]; an index outside the array and a head never
    initialised are undefined. *)
Definition area (st : state) (k : Z) : outcome (list Z) :=
  if bool_decide (0 ≤ k ≤ MAX_ORDER) then
    match free_area st !! Z.to_nat k with
    | Some (Some l) => Ret l
    | _ => Undef
    end
  else Undef.

Definition set_area (k : Z) (l : list Z) (st : state) : state :=
  {| free_area := <[Z.to_nat k := Some l]> (free_area st); g_pages := g_pages st |}.

(** ** The list library

    The lists come from [list.h], the circular doubly linked list of the
    Linux kernel, which is not part of the sources embedded here.  A list
    is modelled by the sequence of the page numbers whose descriptors are
    linked on it, in the order [list_for_each] meets them.  A descriptor
    has one node, so the model is the list library's as long as no
    descriptor is linked twice; the tiling invariant below shows that of
    every state the calls can reach. *)

(** Modelled from the spec: [list.h] is missing.  "clears every free list":
    [INIT_LIST_HEAD(&free_area[k])] makes the list on [free_area[k]] empty. *)
Definition INIT_LIST_HEAD (k : Z) (st : state) : state := set_area k [] st.

(** Modelled from the spec: [list.h] is missing.  "Insert H at the head of
    free[k]": [list_add(&g_pages[new].list, &free_area[k])]. *)
Definition list_add (new k : Z) (st : state) : outcome state :=
  l ← area st k; Ret (set_area k (new :: l) st).

(** Removal of the first occurrence of a page number. *)
Fixpoint unlink (entry : Z) (l : list Z) : list Z :=
  match l with
  | [] => []
  | x :: l' => if bool_decide (x = entry) then l' else x :: unlink entry l'
  end.

(** Modelled from the spec: [list.h] is missing.  "Remove B from free[k]":
    [list_del_init(&g_pages[entry].list)], for an entry linked on
    [free_area[k]] (at both call sites the entry was just read from that
    list). *)
Definition list_del_init (entry k : Z) (st : state) : outcome state :=
  l ← area st k; Ret (set_area k (unlink entry l) st).

(** Modelled from the spec: [list.h] is missing.  "Search free[k] for B":
    the [list_for_each] loop of [buddy_free], which walks the whole list and
    sets a flag when it meets the buddy. *)
Definition list_for_each_found (buddy : Z) (l : list Z) : bool :=
  foldl (λ freed pos, if bool_decide (pos = buddy) then true else freed) false l.

(** The recursion budget of a split and of a coalesce: the orders they move
    through lie between 0 and [MAX_ORDER]. *)
Definition depth : nat := Z.to_nat MAX_ORDER.

(** The line feed that ends the line [buddy_dump] prints. *)
Definition newline : string := String (Ascii.ascii_of_nat 10) EmptyString.

(** The format of the [printf] call in the loop of [buddy_dump]. *)
Definition dump_format : string := "%d:%dK ".

(** [INT_MAX], for the counter of [buddy_dump]. *)
Definition INT_MAX : Z := 2 ^ 31 - 1.

(** The [list_for_each] loop of [buddy_dump]: [cnt++] once per element,
    undefined when the [int] counter would pass [INT_MAX]. *)
Definition list_for_each_count (l : list Z) : outcome Z :=
  let cnt := foldl (λ cnt _, cnt + 1) 0 l in
  if bool_decide (cnt ≤ INT_MAX) then Ret cnt else Undef.

(** ** [src/buddy.c] *)
Module Root.

(** [buddy_init]: the first loop writes the three fields of every descriptor,
    the second initialises the heads [MIN_ORDER .. MAX_ORDER], then page 0
    gets order [MAX_ORDER] and is put on [free_area[MAX_ORDER]]. *)
Definition buddy_init (st : state) : outcome state :=
  let st := foldl (λ st i, write_page i {| index := i; address := PAGE_TO_ADDR i; order := -1 |} st)
                  st (seqZ 0 n_pages) in
  let st := foldl (λ st i, INIT_LIST_HEAD i st) st (seqZ MIN_ORDER (MAX_ORDER + 1 - MIN_ORDER)) in
  st ← set_order 0 MAX_ORDER st;
  list_add 0 MAX_ORDER st.

(** [determineOrder]: the first order of [MIN_ORDER .. MAX_ORDER] with
    [(1<<order) >= size], and [-1] when the loop runs out. *)
Definition determineOrder (size : Z) : Z :=
  match List.find (λ order, bool_decide (1 ≪ order >= size))
                  (seqZ MIN_ORDER (MAX_ORDER + 1 - MIN_ORDER)) with
  | Some order => order
  | None => -1
  end.

(** [splitMemory]: one level of the recursion per unit of [fuel]. *)
Fixpoint splitMemory (fuel : nat) (st : state) (page order orderNeeded : Z) : outcome state :=
  if bool_decide (order = orderNeeded) then Ret st
  else
    pg ← page_at st page;
    b ← BUDDY_ADDR (address pg) (order - 1);
    buddy ← ADDR_TO_PAGE b;
    st ← set_order buddy (order - 1) st;
    st ← list_add buddy (order - 1) st;
    match fuel with
    | O => Fuel
    | S fuel => splitMemory fuel st page (order - 1) orderNeeded
    end.

(** The [for] loop of [buddy_alloc] over the orders still to try.  The test
    [!list_empty] and the read of [free_area[i].next] are the match on the
    list. *)
Fixpoint alloc_scan (orders : list Z) (st : state) (orderNeeded : Z) : outcome (state * ptr) :=
  match orders with
  | [] => Ret (st, NULL)
  | i :: orders =>
      l ← area st i;
      match l with
      | [] => alloc_scan orders st orderNeeded
      | page :: _ =>
          st ← list_del_init page i st;
          st ← splitMemory depth st page i orderNeeded;
          st ← set_order page orderNeeded st;
          pg ← page_at st page;
          Ret (st, address pg)
      end
  end.

Definition buddy_alloc (st : state) (size : Z) : outcome (state * ptr) :=
  let orderNeeded := determineOrder size in
  if bool_decide (orderNeeded = -1) then Ret (st, NULL)
  else alloc_scan (seqZ orderNeeded (MAX_ORDER + 1 - orderNeeded)) st orderNeeded.

(** The [for] loop of [buddy_free]; it returns the globals, the head and the
    loop counter at exit. *)
Fixpoint free_loop (fuel : nat) (st : state) (page i : Z) : outcome (state * Z * Z) :=
  if bool_decide (i < MAX_ORDER) then
    pg ← page_at st page;
    b ← BUDDY_ADDR (address pg) i;
    buddy ← ADDR_TO_PAGE b;
    l ← area st i;
    let freed := list_for_each_found buddy l in
    if negb freed then Ret (st, page, i)
    else
      st ← list_del_init buddy i st;
      let page := if bool_decide (buddy < page) then buddy else page in
      match fuel with
      | O => Fuel
      | S fuel => free_loop fuel st page (i + 1)
      end
  else Ret (st, page, i).

Definition buddy_free (st : state) (addr : ptr) : outcome state :=
  p ← ADDR_TO_PAGE addr;
  pg ← page_at st p;
  let currentOrder := order pg in
  if bool_decide (currentOrder < MIN_ORDER) || bool_decide (currentOrder > MAX_ORDER)
  then Hang "ERROR: invalid order: currentOrder=%d" currentOrder
  else
    '(st, page, i) ← free_loop depth st p currentOrder;
    st ← set_order page i st;
    list_add page i st.

(** [buddy_dump]: what it prints, one [printf] call (format and integer
    arguments) after the other: for each order the count of the list and
    the block size in KiB, then the line feed.  It writes to no global. *)
Fixpoint dump_orders (orders : list Z) (st : state) : outcome (list (string * list Z)) :=
  match orders with
  | [] => Ret []
  | o :: orders =>
      l ← area st o;
      cnt ← list_for_each_count l;
      rest ← dump_orders orders st;
      Ret ((dump_format, [cnt; (1 ≪ o) `div` 1024]) :: rest)
  end.

Definition buddy_dump (st : state) : outcome (list (string * list Z)) :=
  out ← dump_orders (seqZ MIN_ORDER (MAX_ORDER + 1 - MIN_ORDER)) st;
  Ret (out ++ [(newline, [])]).

End Root.

(** ** [src/buddy/buddy.c] *)
Module Sub.

Definition determineOrder (size : Z) : Z :=
  match List.find (λ order, bool_decide (1 ≪ order >= size))
                  (seqZ MIN_ORDER (MAX_ORDER + 1 - MIN_ORDER)) with
  | Some order => order
  | None => -1
  end.

Fixpoint splitMemory (fuel : nat) (st : state) (page order orderNeeded : Z) : outcome state :=
  if bool_decide (order = orderNeeded) then Ret st
  else
    pg ← page_at st page;
    b ← BUDDY_ADDR (address pg) (order - 1);
    buddy ← ADDR_TO_PAGE b;
    st ← set_order buddy (order - 1) st;
    st ← list_add buddy (order - 1) st;
    match fuel with
    | O => Fuel
    | S fuel => splitMemory fuel st page (order - 1) orderNeeded
    end.

Definition buddy_init (st : state) : outcome state :=
  let numPages := (1 ≪ MAX_ORDER) `div` PAGE_SIZE in
  let st := foldl (λ st i, write_page i {| index := i; address := PAGE_TO_ADDR i; order := -1 |} st)
                  st (seqZ 0 numPages) in
  let st := foldl (λ st i, INIT_LIST_HEAD i st) st (seqZ MIN_ORDER (MAX_ORDER + 1 - MIN_ORDER)) in
  st ← set_order 0 MAX_ORDER st;
  list_add 0 MAX_ORDER st.

Fixpoint alloc_scan (orders : list Z) (st : state) (orderNeeded : Z) : outcome (state * ptr) :=
  match orders with
  | [] => Ret (st, NULL)
  | i :: orders =>
      l ← area st i;
      match l with
      | [] => alloc_scan orders st orderNeeded
      | page :: _ =>
          st ← list_del_init page i st;
          st ← splitMemory depth st page i orderNeeded;
          st ← set_order page orderNeeded st;
          pg ← page_at st page;
          Ret (st, address pg)
      end
  end.

Definition buddy_alloc (st : state) (size : Z) : outcome (state * ptr) :=
  let orderNeeded := determineOrder size in
  if bool_decide (orderNeeded = -1) then Ret (st, NULL)
  else alloc_scan (seqZ orderNeeded (MAX_ORDER + 1 - orderNeeded)) st orderNeeded.

Fixpoint free_loop (fuel : nat) (st : state) (page index : Z) : outcome (state * Z * Z) :=
  if bool_decide (index < MAX_ORDER) then
    pg ← page_at st page;
    b ← BUDDY_ADDR (address pg) index;
    buddy ← ADDR_TO_PAGE b;
    l ← area st index;
    let wasFreed := list_for_each_found buddy l in
    if negb wasFreed then Ret (st, page, index)
    else
      st ← list_del_init buddy index st;
      let page := if bool_decide (buddy < page) then buddy else page in
      match fuel with
      | O => Fuel
      | S fuel => free_loop fuel st page (index + 1)
      end
  else Ret (st, page, index).

(** This copy of [buddy_free] has no test of the stored order. *)
Definition buddy_free (st : state) (addr : ptr) : outcome state :=
  p ← ADDR_TO_PAGE addr;
  pg ← page_at st p;
  let currentOrder := order pg in
  '(st, page, index) ← free_loop depth st p currentOrder;
  st ← set_order page index st;
  list_add page index st.

(** [buddy_dump]: what it prints, one [printf] call (format and integer
    arguments) after the other: for each order the count of the list and
    the block size in KiB, then the line feed.  It writes to no global. *)
Fixpoint dump_orders (orders : list Z) (st : state) : outcome (list (string * list Z)) :=
  match orders with
  | [] => Ret []
  | o :: orders =>
      l ← area st o;
      cnt ← list_for_each_count l;
      rest ← dump_orders orders st;
      Ret ((dump_format, [cnt; (1 ≪ o) `div` 1024]) :: rest)
  end.

Definition buddy_dump (st : state) : outcome (list (string * list Z)) :=
  out ← dump_orders (seqZ MIN_ORDER (MAX_ORDER + 1 - MIN_ORDER)) st;
  Ret (out ++ [(newline, [])]).

End Sub.

(** ** Reading a state *)

(** The list of free blocks of order [k], the stored order of page [p], and
    the page number of the buddy of the block of order [k] at page [p]. *)
Definition fl (st : state) (k : Z) : list Z :=
  match free_area st !! Z.to_nat k with
  | Some (Some l) => l
  | _ => []
  end.

Definition ord (st : state) (p : Z) : Z :=
  from_option order (-1) (g_pages st !! Z.to_nat p).

Definition buddy_page (page k : Z) : Z := Z.lxor page (1 ≪ (k - MIN_ORDER)).

(** [g_pages[p]] with the order field set to [v], for a descriptor in its
    initialised form. *)
Definition stamp (p v : Z) (st : state) : state :=
  write_page p {| index := p; address := PAGE_TO_ADDR p; order := v |} st.

(** A state as [buddy_init] leaves the descriptors and the heads: every
    descriptor carries its page number and address, the heads
    [MIN_ORDER .. MAX_ORDER] are initialised, and the lists hold page
    numbers of the array. *)
Record wf (st : state) : Prop := {
  wf_pages : ∀ p, 0 ≤ p < n_pages →
    ∃ o, g_pages st !! Z.to_nat p = Some {| index := p; address := PAGE_TO_ADDR p; order := o |};
  wf_heads : ∀ k, MIN_ORDER ≤ k ≤ MAX_ORDER → ∃ l, free_area st !! Z.to_nat k = Some (Some l);
  wf_members : ∀ k p, MIN_ORDER ≤ k ≤ MAX_ORDER → p ∈ fl st k → 0 ≤ p < n_pages
}.

(** ** What the functions leave *)

(** The arrays have their declared lengths. *)
Definition shape (st : state) : Prop :=
  length (free_area st) = Z.to_nat (MAX_ORDER + 1) ∧ length (g_pages st) = Z.to_nat n_pages.

(** The state [buddy_init] returns: the descriptors and the lists it leaves
    do not depend on what was there before. *)
Definition init_post (st : state) : Prop :=
  (∀ p, 0 ≤ p < n_pages →
     g_pages st !! Z.to_nat p =
       Some {| index := p; address := Mem (p * 2 ^ MIN_ORDER);
               order := if bool_decide (p = 0) then MAX_ORDER else -1 |}) ∧
  free_area st !! Z.to_nat MAX_ORDER = Some (Some [0]) ∧
  (∀ k, MIN_ORDER ≤ k < MAX_ORDER → free_area st !! Z.to_nat k = Some (Some [])).

(** What a split of the block at [page] from [order] down to [orderNeeded]
    leaves: on every list [free_area[j]] with [orderNeeded <= j < order] the
    buddy of order [j] of [page] was put first, that buddy's descriptor
    carries [j], and nothing else changed. *)
Definition split_post (st : state) (page order orderNeeded : Z) (st' : state) : Prop :=
  wf st' ∧
  (∀ j, MIN_ORDER ≤ j ≤ MAX_ORDER →
     fl st' j = if bool_decide (orderNeeded ≤ j < order)
                then buddy_page page j :: fl st j else fl st j) ∧
  (∀ j, orderNeeded ≤ j < order → ord st' (buddy_page page j) = j) ∧
  (∀ q, 0 ≤ q < n_pages → (∀ j, orderNeeded ≤ j < order → q ≠ buddy_page page j) →
     ord st' q = ord st q).

(** What a successful allocation leaves, when it took the block at [H] from
    the list of order [k] (whose remaining elements are [rest]) for a
    request of order [T]; the last clause names the steps that led there. *)
Definition alloc_post (st : state) (H k T : Z) (rest : list Z) (st' : state) : Prop :=
  wf st' ∧
  (∀ j, MIN_ORDER ≤ j ≤ MAX_ORDER →
     fl st' j = if bool_decide (j = k) then rest
                else if bool_decide (T ≤ j < k) then buddy_page H j :: fl st j
                else fl st j) ∧
  ord st' H = T ∧
  (∀ j, T ≤ j < k → ord st' (buddy_page H j) = j) ∧
  (∀ q, 0 ≤ q < n_pages → q ≠ H → (∀ j, T ≤ j < k → q ≠ buddy_page H j) →
     ord st' q = ord st q) ∧
  (∃ st2, Root.splitMemory depth (set_area k rest st) H k T = Ret st2 ∧ st' = stamp H T st2).

(** The run of the coalescing loop of [buddy_free] as a relation between the
    state, head and order at entry and at exit, with the removal that
    [list_del_init] makes; the lemmas on the loop go by induction on it. *)
Inductive coalesce : state → Z → Z → state → Z → Z → Prop :=
| coalesce_top st H k :
    ¬ k < MAX_ORDER → coalesce st H k st H k
| coalesce_stop st H k :
    k < MAX_ORDER → buddy_page H k ∉ fl st k → coalesce st H k st H k
| coalesce_merge st H k st' H' k' :
    k < MAX_ORDER → buddy_page H k ∈ fl st k →
    coalesce (set_area k (unlink (buddy_page H k) (fl st k)) st)
             (Z.min H (buddy_page H k)) (k + 1) st' H' k' →
    coalesce st H k st' H' k'.

(** [removed b l l']: the list [l'] is the list [l] with the entry [b] taken
    out.  [b] stands in [l] behind the entries [l1], none of which is [b],
    and before the entries [l2]; [l'] holds [l1] and then [l2], each entry
    where it was. *)
Inductive removed (b : Z) : list Z → list Z → Prop :=
| removed_intro l1 l2 : b ∉ l1 → removed b (l1 ++ b :: l2) (l1 ++ l2).

(** The coalescing loop in the words of the specification (4.5, step 2), as
    a relation between the state, head and order at entry and at exit: at
    the top order nothing is looked up; below it the buddy is searched on
    the list of the current order; when it is absent the loop stops; when
    it is present it is removed from that list, the lower of the two
    becomes the head and the order goes up by one.  Nothing here refers to
    the list operations of the code. *)
Inductive spec_coalesce : state → Z → Z → state → Z → Z → Prop :=
| spec_coalesce_top st H k :
    ¬ k < MAX_ORDER → spec_coalesce st H k st H k
| spec_coalesce_stop st H k :
    k < MAX_ORDER → buddy_page H k ∉ fl st k → spec_coalesce st H k st H k
| spec_coalesce_merge st H k l' st' H' k' :
    k < MAX_ORDER → buddy_page H k ∈ fl st k →
    removed (buddy_page H k) (fl st k) l' →
    spec_coalesce (set_area k l' st) (Z.min H (buddy_page H k)) (k + 1) st' H' k' →
    spec_coalesce st H k st' H' k'.

(** ** The two copies side by side *)

(** [root] is [src/buddy.c], [sub] is [src/buddy/buddy.c]; the statements
    below are made for a copy [c] and so for both. *)
Inductive copy : Type := root | sub.

Definition buddy_init_of (c : copy) : state → outcome state :=
  match c with root => Root.buddy_init | sub => Sub.buddy_init end.

Definition determineOrder_of (c : copy) : Z → Z :=
  match c with root => Root.determineOrder | sub => Sub.determineOrder end.

Definition splitMemory_of (c : copy) : nat → state → Z → Z → Z → outcome state :=
  match c with root => Root.splitMemory | sub => Sub.splitMemory end.

Definition buddy_alloc_of (c : copy) : state → Z → outcome (state * ptr) :=
  match c with root => Root.buddy_alloc | sub => Sub.buddy_alloc end.

Definition buddy_free_of (c : copy) : state → ptr → outcome state :=
  match c with root => Root.buddy_free | sub => Sub.buddy_free end.

(** The stored order that [buddy_free] reads for [addr], when the address
    names a page of the array. *)
Definition stored_order (st : state) (addr : ptr) : outcome Z :=
  p ← ADDR_TO_PAGE addr; pg ← page_at st p; Ret (order pg).

(** ** Blocks and the tiling of the arena *)

(** A block is free (its first page is on a free list), live (handed out and
    not yet given back) or floating: the block [buddy_alloc] or [buddy_free]
    holds in its hands between taking it off a list and putting it
    somewhere. *)
Inductive tag : Type := Free | Live | Float.

Definition block : Type := tag * Z * Z.

#[global] Instance tag_eq_dec : EqDecision tag.
Proof. solve_decision. Defined.

(** The number of pages of a block of order [k]. *)
Definition psz (k : Z) : Z := 2 ^ (k - MIN_ORDER).

Definition covers (b : block) (x : Z) : Prop :=
  let '(_, p, k) := b in p ≤ x < p + psz k.

Definition valid (b : block) : Prop :=
  let '(_, p, k) := b in
  MIN_ORDER ≤ k ≤ MAX_ORDER ∧ 0 ≤ p ∧ p + psz k ≤ n_pages ∧ (psz k | p).

(** The blocks [B] tile the arena: each is aligned and inside, no page is in
    two of them, and every page is in one. *)
Record tiling (B : block → Prop) : Prop := {
  t_valid : ∀ b, B b → valid b;
  t_disj : ∀ b1 b2 x, B b1 → B b2 → covers b1 x → covers b2 x → b1 = b2;
  t_cover : ∀ x, 0 ≤ x < n_pages → ∃ b, B b ∧ covers b x
}.

(** ** The allocator's invariant *)

(** The globals together with the addresses handed out and not yet given
    back. *)
Record sys : Type := { mem : state; live : list ptr }.

(** The blocks of a system: the free ones are on the lists, a live one is
    named by an outstanding address and has the order stored in its
    descriptor, and [fb] is the floating one, if any. *)
Definition blocks (fb : option (Z * Z)) (s : sys) (b : block) : Prop :=
  match b with
  | (Free, p, k) => MIN_ORDER ≤ k ≤ MAX_ORDER ∧ p ∈ fl (mem s) k
  | (Live, p, k) => PAGE_TO_ADDR p ∈ live s ∧ ord (mem s) p = k
  | (Float, p, k) => fb = Some (p, k)
  end.

(** The invariant: between two calls with no floating block, inside
    [buddy_alloc] and [buddy_free] with the block [fb] in hand.  The state
    is initialised, no list holds a page twice, the outstanding addresses
    are distinct page addresses, the blocks tile the arena, and no two free
    buddies of one order are both listed. *)
Record inv (fb : option (Z * Z)) (s : sys) : Prop := {
  inv_wf : wf (mem s);
  inv_nodup : ∀ k, MIN_ORDER ≤ k ≤ MAX_ORDER → NoDup (fl (mem s) k);
  inv_live_nodup : NoDup (live s);
  inv_live_page : ∀ a, a ∈ live s → ∃ p, a = PAGE_TO_ADDR p ∧ 0 ≤ p < n_pages;
  inv_tiling : tiling (blocks fb s);
  inv_eager : ∀ k p, MIN_ORDER ≤ k < MAX_ORDER →
    p ∈ fl (mem s) k → buddy_page p k ∉ fl (mem s) k
}.

(** Giving back: the addresses still out after [a] came back. *)
Definition forget (a : ptr) (l : list ptr) : list ptr := filter (λ x, x ≠ a) l.

(** ** Reachable systems *)

(** The systems a run can be in: [buddy_init] on arrays of the declared
    lengths, then allocations, and frees of addresses that are out. *)
Inductive reachable (c : copy) : sys → Prop :=
| reach_init st0 st :
    shape st0 → buddy_init_of c st0 = Ret st →
    reachable c {| mem := st; live := [] |}
| reach_alloc s size st a :
    reachable c s → buddy_alloc_of c (mem s) size = Ret (st, a) →
    reachable c {| mem := st; live := match a with NULL => live s | _ => a :: live s end |}
| reach_free s a st :
    reachable c s → a ∈ live s → buddy_free_of c (mem s) a = Ret st →
    reachable c {| mem := st; live := forget a (live s) |}.

(** ** No call runs out of budget *)

(** [Fuel] is never the outcome of an entry point, in any state: the
    recursions of [splitMemory] and of the coalescing loop end, return or
    run into undefined behaviour within [depth] rounds. *)
Definition nofuel {A : Type} (m : outcome A) : Prop := m ≠ Fuel.

Create HintDb nofuel discriminated.

(** ** Concrete states for the examples *)

(** The state after the first [buddy_init] of a run. *)
Definition init0 : state :=
  Eval vm_compute in match Root.buddy_init boot with Ret st => st | _ => boot end.

(** The state after [buddy_init(); buddy_alloc(1)]: page 0 is out and the
    right halves of orders 12 to 19 are free. *)
Definition after_alloc1 : state :=
  Eval vm_compute in match Root.buddy_alloc init0 1 with Ret (st, _) => st | _ => init0 end.

(** The state after [buddy_init(); buddy_alloc(1); buddy_alloc(1)]: pages 0
    and 1 are out. *)
Definition after_alloc2 : state :=
  Eval vm_compute in
    match Root.buddy_alloc after_alloc1 1 with Ret (st, _) => st | _ => after_alloc1 end.

(** The state after [buddy_free] of the first of the two addresses: page 0
    is free at order 12, its buddy, page 1, is still out. *)
Definition after_free_first : state :=
  Eval vm_compute in
    match Root.buddy_free after_alloc2 (Mem 0) with Ret st => st | _ => after_alloc2 end.

(** The state after [buddy_free] of the second address as well: nothing is
    out. *)
Definition after_free_both : state :=
  Eval vm_compute in
    match Root.buddy_free after_free_first (Mem 4096) with
    | Ret st => st
    | _ => after_free_first
    end.

(** ** The two copies on a sequence of calls *)

Inductive call : Type :=
| DoInit
| DoAlloc (size : Z)
| DoFree (addr : ptr).

(** One call: the globals after it and the address returned ([NULL] for the
    two [void] functions). *)
Definition do_call (c : copy) (st : state) (cl : call) : outcome (state * ptr) :=
  match cl with
  | DoInit => st' ← buddy_init_of c st; Ret (st', NULL)
  | DoAlloc size => buddy_alloc_of c st size
  | DoFree addr => st' ← buddy_free_of c st addr; Ret (st', NULL)
  end.

(** The addresses that are out after a call. *)
Definition out_after (cl : call) (a : ptr) (out : list ptr) : list ptr :=
  match cl with
  | DoInit => []
  | DoAlloc _ => match a with NULL => out | _ => a :: out end
  | DoFree addr => forget addr out
  end.

(** A run records the outcome of every call; it ends at the first call that
    does not return. *)
Fixpoint run (c : copy) (st : state) (calls : list call) : list (outcome (state * ptr)) :=
  match calls with
  | [] => []
  | cl :: calls =>
      let r := do_call c st cl in
      r :: match r with
           | Ret (st', _) => run c st' calls
           | _ => []
           end
  end.

(** The precondition of [buddy_free] in a state: the address is out and the
    order stored for it lies in [MIN_ORDER .. MAX_ORDER]. *)
Definition free_pre (st : state) (out : list ptr) (addr : ptr) : bool :=
  bool_decide (addr ∈ out) &&
  match stored_order st addr with
  | Ret k => bool_decide (MIN_ORDER ≤ k ≤ MAX_ORDER)
  | _ => false
  end.

(** The calls meet their preconditions along the run of [src/buddy.c]. *)
Fixpoint pre (st : state) (out : list ptr) (calls : list call) : bool :=
  match calls with
  | [] => true
  | cl :: calls =>
      match cl with DoFree addr => free_pre st out addr | _ => true end &&
      match do_call root st cl with
      | Ret (st', a) => pre st' (out_after cl a out) calls
      | _ => true
      end
  end.

(** ** Accounting of the arena *)

Definition buddy_dump_of (c : copy) : state → outcome (list (string * list Z)) :=
  match c with root => Root.buddy_dump | sub => Sub.buddy_dump end.

(** The sum of [f] over a list. *)
Definition total {A : Type} (f : A → Z) (l : list A) : Z := foldr (λ x acc, f x + acc) 0 l.

(** The page an address lies in, as [ADDR_TO_PAGE] computes it for an
    address of the arena. *)
Definition page_of (a : ptr) : Z :=
  match a with
  | NULL => 0
  | Mem off => off `div` PAGE_SIZE
  end.

(** Pages on the free lists, pages of the outstanding blocks (by the order
    stored for each) and pages of the floating block. *)
Definition free_pages (st : state) : Z :=
  total (λ k, Z.of_nat (length (fl st k)) * psz k) (seqZ MIN_ORDER (MAX_ORDER + 1 - MIN_ORDER)).

Definition live_pages (s : sys) : Z :=
  total (λ a, psz (ord (mem s) (page_of a))) (live s).

Definition float_pages (fb : option (Z * Z)) : Z :=
  match fb with
  | Some (_, k) => psz k
  | None => 0
  end.

(** The books balance: free, outstanding and floating pages add up to the
    arena, and a page on the list of order [k] has [k] stored in its
    descriptor. *)
Record acct (fb : option (Z * Z)) (s : sys) : Prop := {
  acct_mass : free_pages (mem s) + live_pages s + float_pages fb = n_pages;
  acct_order : ∀ k p, MIN_ORDER ≤ k ≤ MAX_ORDER → p ∈ fl (mem s) k → ord (mem s) p = k
}.

(** The KiB a dump reports free: count times block size, summed over its
    [printf] calls with two arguments. *)
Definition dump_kib (out : list (string * list Z)) : Z :=
  total (λ e, match e.2 with [cnt; kib] => cnt * kib | _ => 0 end) out.

(** The KiB out: the block size stored for each outstanding address. *)
Definition live_kib (s : sys) : Z :=
  total (λ a, (1 ≪ ord (mem s) (page_of a)) `div` 1024) (live s).

(** The line [buddy_dump] prints when the whole arena is one free block. *)
Definition dump_initial : list (string * list Z) :=
  [(dump_format, [0; 4]); (dump_format, [0; 8]); (dump_format, [0; 16]); (dump_format, [0; 32]);
   (dump_format, [0; 64]); (dump_format, [0; 128]); (dump_format, [0; 256]); (dump_format, [0; 512]);
   (dump_format, [1; 1024]); (newline, [])].

(** * Part II: lemmas and theorems *)

(** ** Arithmetic of page numbers *)

Lemma n_pages_val : n_pages = 256.
Proof. reflexivity. Qed.

Lemma PAGE_SIZE_val : PAGE_SIZE = 4096.
Proof. reflexivity. Qed.

Lemma shiftl_1 n : 0 ≤ n → 1 ≪ n = 2 ^ n.
Proof. intros. rewrite Z.shiftl_1_l. done. Qed.

Lemma lxor_twice (p x : Z) : Z.lxor (Z.lxor p x) x = p.
Proof. by rewrite Z.lxor_assoc, Z.lxor_nilpotent, Z.lxor_0_r. Qed.

Lemma lxor_pow2_ne (p n : Z) : 0 ≤ n → Z.lxor p (2 ^ n) ≠ p.
Proof.
  intros Hn Heq.
  assert (Z.lxor (Z.lxor p (2 ^ n)) p = 0) as H0 by (rewrite Heq; apply Z.lxor_nilpotent).
  rewrite (Z.lxor_comm p), Z.lxor_assoc, Z.lxor_nilpotent, Z.lxor_0_r in H0.
  pose proof (Z.pow_pos_nonneg 2 n). lia.
Qed.

Lemma lxor_even_1 (c : Z) : Z.even c = true → Z.lxor c 1 = c + 1.
Proof.
  intros He. symmetry. apply Z.add_nocarry_lxor.
  apply Z.bits_inj'. intros i Hi. rewrite Z.land_spec, Z.bits_0.
  destruct (decide (i = 0)) as [->|].
  - rewrite Z.bit0_odd, <- Z.negb_even, He. done.
  - rewrite (Z.bits_above_log2 1 i); [apply andb_false_r | lia | simpl; lia].
Qed.

Lemma lxor_odd_1 (c : Z) : Z.odd c = true → Z.lxor c 1 = c - 1.
Proof.
  intros Ho.
  assert (Z.even (c - 1) = true) as He.
  { rewrite Z.even_sub, <- Z.negb_odd, Ho. done. }
  apply lxor_even_1 in He. replace (c - 1 + 1) with c in He by lia.
  rewrite <- He at 1. apply lxor_twice.
Qed.

Lemma lxor_scaled (c n : Z) : 0 ≤ n → Z.lxor (c * 2 ^ n) (2 ^ n) = Z.lxor c 1 * 2 ^ n.
Proof.
  intros Hn. rewrite <- !Z.shiftl_mul_pow2 by done.
  rewrite Z.shiftl_lxor. f_equal. rewrite Z.shiftl_mul_pow2 by done. lia.
Qed.

(** The buddy of an aligned block lies one block size to the right or to the
    left, and the lower of the two is aligned for the next order. *)
Lemma buddy_cases (p n : Z) :
  0 ≤ n → (2 ^ n | p) →
  (Z.lxor p (2 ^ n) = p + 2 ^ n ∧ (2 ^ (n + 1) | p)) ∨
  (Z.lxor p (2 ^ n) = p - 2 ^ n ∧ (2 ^ (n + 1) | p - 2 ^ n)).
Proof.
  intros Hn [c ->]. rewrite lxor_scaled by done.
  rewrite Z.pow_add_r, Z.pow_1_r by lia.
  destruct (Z.even c) eqn:He.
  - left. rewrite lxor_even_1 by done. split; [lia|].
    apply Z.even_spec in He as [d ->]. exists d. lia.
  - right. assert (Z.odd c = true) as Ho by (rewrite <- Z.negb_even, He; done).
    rewrite lxor_odd_1 by done. split; [lia|].
    apply Z.odd_spec in Ho as [d ->]. exists d. lia.
Qed.

Lemma buddy_right (p n : Z) : 0 ≤ n → (2 ^ (n + 1) | p) → Z.lxor p (2 ^ n) = p + 2 ^ n.
Proof.
  intros Hn [c ->]. rewrite Z.pow_add_r, Z.pow_1_r by lia.
  replace (c * (2 ^ n * 2)) with ((2 * c) * 2 ^ n) by lia.
  rewrite lxor_scaled by done. rewrite lxor_even_1; [lia|].
  rewrite Z.even_mul. done.
Qed.

Lemma lxor_pow2_range (p n m : Z) :
  0 ≤ n < m → 0 ≤ p < 2 ^ m → 0 ≤ Z.lxor p (2 ^ n) < 2 ^ m.
Proof.
  intros Hn Hp.
  assert (0 ≤ Z.lxor p (2 ^ n)) as H0.
  { apply Z.lxor_nonneg. pose proof (Z.pow_pos_nonneg 2 n). lia. }
  split; [done|].
  destruct (decide (Z.lxor p (2 ^ n) = 0)) as [->|Hne].
  { apply Z.pow_pos_nonneg; lia. }
  apply Z.log2_lt_pow2; [lia|].
  pose proof (Z.log2_lxor p (2 ^ n)) as Hl.
  rewrite Z.log2_pow2 in Hl by lia.
  assert (Z.log2 p < m).
  { destruct (decide (p = 0)) as [->|]; [simpl; lia|]. apply Z.log2_lt_pow2; lia. }
  pose proof (Z.pow_pos_nonneg 2 n). lia.
Qed.

(** ** The primitives on an initialised state *)

Lemma bind_Ret {A B : Type} (a : A) (f : A → outcome B) : (Ret a ≫= f) = f a.
Proof. reflexivity. Qed.

Lemma bind_eq_Ret {A B : Type} (m : outcome A) (f : A → outcome B) (b : B) :
  (m ≫= f) = Ret b → ∃ a, m = Ret a ∧ f a = Ret b.
Proof. destruct m; simpl; intros; try done. eauto. Qed.

Lemma ord_wf st p o pg :
  g_pages st !! Z.to_nat p = Some pg → order pg = o → ord st p = o.
Proof. unfold ord. intros -> <-. done. Qed.

Lemma page_at_wf st p :
  wf st → 0 ≤ p < n_pages →
  page_at st p = Ret {| index := p; address := PAGE_TO_ADDR p; order := ord st p |}.
Proof.
  intros Hwf Hp. unfold page_at. rewrite bool_decide_true by done.
  destruct (wf_pages _ Hwf p Hp) as [o Ho]. rewrite Ho.
  by rewrite (ord_wf _ _ o _ Ho).
Qed.

Lemma area_wf st k : wf st → MIN_ORDER ≤ k ≤ MAX_ORDER → area st k = Ret (fl st k).
Proof.
  intros Hwf Hk. unfold area, fl.
  rewrite bool_decide_true by (unfold MIN_ORDER in *; lia).
  destruct (wf_heads _ Hwf k Hk) as [l ->]. done.
Qed.

Lemma set_order_wf st p v : wf st → 0 ≤ p < n_pages → set_order p v st = Ret (stamp p v st).
Proof. intros Hwf Hp. unfold set_order. rewrite page_at_wf by done. done. Qed.

Lemma list_add_wf st x k :
  wf st → MIN_ORDER ≤ k ≤ MAX_ORDER → list_add x k st = Ret (set_area k (x :: fl st k) st).
Proof. intros Hwf Hk. unfold list_add. rewrite area_wf by done. done. Qed.

Lemma list_del_init_wf st x k :
  wf st → MIN_ORDER ≤ k ≤ MAX_ORDER →
  list_del_init x k st = Ret (set_area k (unlink x (fl st k)) st).
Proof. intros Hwf Hk. unfold list_del_init. rewrite area_wf by done. done. Qed.

Lemma fl_stamp st p v k : fl (stamp p v st) k = fl st k.
Proof. reflexivity. Qed.

Lemma ord_set_area st k l p : ord (set_area k l st) p = ord st p.
Proof. reflexivity. Qed.

Lemma ord_stamp st p v q :
  wf st → 0 ≤ p < n_pages → 0 ≤ q →
  ord (stamp p v st) q = if bool_decide (q = p) then v else ord st q.
Proof.
  intros Hwf Hp Hq. unfold ord, stamp, write_page. simpl.
  destruct (wf_pages _ Hwf p Hp) as [o Ho]. apply lookup_lt_Some in Ho.
  case_bool_decide as Heq.
  - subst q. by rewrite list_lookup_insert_eq.
  - rewrite list_lookup_insert_ne by lia. done.
Qed.

Lemma fl_set_area st k l j :
  wf st → MIN_ORDER ≤ k ≤ MAX_ORDER → 0 ≤ j →
  fl (set_area k l st) j = if bool_decide (j = k) then l else fl st j.
Proof.
  intros Hwf Hk Hj. unfold fl, set_area. simpl.
  destruct (wf_heads _ Hwf k Hk) as [l0 Hl0]. apply lookup_lt_Some in Hl0.
  case_bool_decide as Heq.
  - subst j. by rewrite list_lookup_insert_eq.
  - rewrite list_lookup_insert_ne; [done|]. unfold MIN_ORDER in *. lia.
Qed.

Lemma wf_stamp st p v : wf st → 0 ≤ p < n_pages → wf (stamp p v st).
Proof.
  intros Hwf Hp. split.
  - intros q Hq. unfold stamp, write_page. simpl.
    destruct (wf_pages _ Hwf p Hp) as [o Ho]. apply lookup_lt_Some in Ho.
    destruct (decide (q = p)) as [->|Hne].
    + rewrite list_lookup_insert_eq by done. eauto.
    + rewrite list_lookup_insert_ne by lia. by apply wf_pages.
  - apply (wf_heads _ Hwf).
  - apply (wf_members _ Hwf).
Qed.

Lemma wf_set_area st k l :
  wf st → MIN_ORDER ≤ k ≤ MAX_ORDER → (∀ p, p ∈ l → 0 ≤ p < n_pages) → wf (set_area k l st).
Proof.
  intros Hwf Hk Hl. split.
  - apply (wf_pages _ Hwf).
  - intros j Hj. unfold set_area. simpl.
    destruct (wf_heads _ Hwf k Hk) as [l0 Hl0]. apply lookup_lt_Some in Hl0.
    destruct (decide (j = k)) as [->|Hne].
    + rewrite list_lookup_insert_eq by done. eauto.
    + rewrite list_lookup_insert_ne by (unfold MIN_ORDER in *; lia). by apply wf_heads.
  - intros j p Hj. rewrite fl_set_area by (done || unfold MIN_ORDER in *; lia).
    case_bool_decide; [apply Hl|]. by apply wf_members.
Qed.

Lemma elem_of_unlink_1 (e x : Z) (l : list Z) : x ∈ unlink e l → x ∈ l.
Proof.
  induction l as [|y l IH]; simpl; [done|].
  case_bool_decide as Hy; rewrite !elem_of_cons; intuition.
Qed.

Lemma elem_of_unlink_2 (e x : Z) (l : list Z) : x ∈ l → x ≠ e → x ∈ unlink e l.
Proof.
  induction l as [|y l IH]; simpl; [done|].
  case_bool_decide as Hy; rewrite !elem_of_cons; intuition congruence.
Qed.

Lemma NoDup_unlink (e : Z) (l : list Z) : NoDup l → NoDup (unlink e l) ∧ e ∉ unlink e l.
Proof.
  induction 1 as [|y l Hy Hnd [IH1 IH2]]; simpl.
  - split; [constructor | apply not_elem_of_nil].
  - case_bool_decide as Heq.
    + subst y. done.
    + split.
      * constructor; [|done]. intros Hin. by apply elem_of_unlink_1 in Hin.
      * rewrite elem_of_cons. intuition.
Qed.

Lemma list_for_each_found_spec (b : Z) (l : list Z) :
  list_for_each_found b l = bool_decide (b ∈ l).
Proof.
  unfold list_for_each_found.
  assert (∀ acc, foldl (λ freed pos, if bool_decide (pos = b) then true else freed) acc l
                 = acc || bool_decide (b ∈ l)) as Hgen.
  { induction l as [|x l IH]; intros acc.
    - rewrite bool_decide_false by apply not_elem_of_nil. by rewrite orb_false_r.
    - cbn [foldl]. rewrite IH. destruct (decide (x = b)) as [->|Hx].
      + rewrite (bool_decide_true (b = b)) by done.
        rewrite (bool_decide_true (b ∈ b :: l)) by apply list_elem_of_here.
        by rewrite orb_true_r.
      + rewrite (bool_decide_false (x = b)) by done.
        destruct acc; [done|]. cbn [orb]. apply bool_decide_ext.
        rewrite elem_of_cons. intuition congruence. }
  by rewrite Hgen.
Qed.

(** The page that [ADDR_TO_PAGE(BUDDY_ADDR(page->address, k))] names. *)
Lemma ADDR_TO_PAGE_page p : 0 ≤ p < n_pages → ADDR_TO_PAGE (PAGE_TO_ADDR p) = Ret p.
Proof.
  intros Hp. unfold ADDR_TO_PAGE, PAGE_TO_ADDR, ulong. f_equal.
  rewrite n_pages_val in Hp. rewrite PAGE_SIZE_val.
  rewrite Z.mod_small by lia. by rewrite Z.div_mul.
Qed.

Lemma buddy_page_range p k :
  0 ≤ p < n_pages → MIN_ORDER ≤ k < MAX_ORDER → 0 ≤ buddy_page p k < n_pages.
Proof.
  intros Hp Hk. unfold buddy_page, MIN_ORDER, MAX_ORDER in *.
  rewrite shiftl_1 by lia. rewrite n_pages_val in *.
  change 256 with (2 ^ 8). apply lxor_pow2_range; lia.
Qed.

Lemma BUDDY_ADDR_page p k :
  0 ≤ p < n_pages → MIN_ORDER ≤ k < MAX_ORDER →
  BUDDY_ADDR (PAGE_TO_ADDR p) k = Ret (PAGE_TO_ADDR (buddy_page p k)).
Proof.
  intros Hp Hk. pose proof (buddy_page_range p k Hp Hk) as Hb.
  unfold BUDDY_ADDR, PAGE_TO_ADDR, shl1, buddy_page, ulong in *.
  unfold MIN_ORDER, MAX_ORDER in *. rewrite n_pages_val in *. rewrite PAGE_SIZE_val.
  rewrite bool_decide_true by lia. simpl. do 2 f_equal.
  rewrite !shiftl_1 in * by lia.
  assert (0 < 2 ^ k < 2 ^ 20).
  { split; [apply Z.pow_pos_nonneg; lia | apply Z.pow_lt_mono_r; lia]. }
  rewrite !Z.mod_small by lia.
  change 4096 with (2 ^ 12). rewrite <- !Z.shiftl_mul_pow2 by lia.
  rewrite Z.shiftl_lxor. f_equal.
  rewrite Z.shiftl_mul_pow2, <- Z.pow_add_r by lia. f_equal. lia.
Qed.

(** ** [determineOrder] *)

Lemma determineOrder_cases (size : Z) :
  (size ≤ 2 ^ MIN_ORDER ∧ Root.determineOrder size = MIN_ORDER) ∨
  (∃ k, MIN_ORDER < k ≤ MAX_ORDER ∧ 2 ^ (k - 1) < size ≤ 2 ^ k ∧ Root.determineOrder size = k) ∨
  (2 ^ MAX_ORDER < size ∧ Root.determineOrder size = -1).
Proof.
  unfold Root.determineOrder, MIN_ORDER, MAX_ORDER.
  change (seqZ 12 (20 + 1 - 12)) with [12; 13; 14; 15; 16; 17; 18; 19; 20].
  cbn [List.find]. rewrite !Z.shiftl_1_l.
  case_bool_decide as H12; cbn in H12; [left; split; [lia|done]|].
  case_bool_decide as H13; cbn in H13; [right; left; exists 13; repeat split; lia|].
  case_bool_decide as H14; cbn in H14; [right; left; exists 14; repeat split; lia|].
  case_bool_decide as H15; cbn in H15; [right; left; exists 15; repeat split; lia|].
  case_bool_decide as H16; cbn in H16; [right; left; exists 16; repeat split; lia|].
  case_bool_decide as H17; cbn in H17; [right; left; exists 17; repeat split; lia|].
  case_bool_decide as H18; cbn in H18; [right; left; exists 18; repeat split; lia|].
  case_bool_decide as H19; cbn in H19; [right; left; exists 19; repeat split; lia|].
  case_bool_decide as H20; cbn in H20; [right; left; exists 20; repeat split; lia|].
  right; right. split; [lia|reflexivity].
Qed.

Lemma determineOrder_range (size : Z) :
  Root.determineOrder size = -1 ∨ MIN_ORDER ≤ Root.determineOrder size ≤ MAX_ORDER.
Proof.
  destruct (determineOrder_cases size) as [[_ ->]|[(k & Hk & _ & ->)|[_ ->]]];
    [right|right|left]; unfold MIN_ORDER, MAX_ORDER in *; lia.
Qed.

(** ** [buddy_init] *)

Lemma init_pages_spec (f : Z → page_t) (n : nat) (st : state) :
  (n ≤ length (g_pages st))%nat →
  let st' := foldl (λ st i, write_page i (f i) st) st (seqZ 0 (Z.of_nat n)) in
  free_area st' = free_area st ∧
  length (g_pages st') = length (g_pages st) ∧
  ∀ i, (i < n)%nat → g_pages st' !! i = Some (f (Z.of_nat i)).
Proof.
  induction n as [|n IH]; intros Hn; cbn zeta.
  - split; [done|]. split; [done|]. lia.
  - rewrite seqZ_S, foldl_snoc. destruct IH as (IH1 & IH2 & IH3); [lia|].
    set (st1 := foldl _ st (seqZ 0 (Z.of_nat n))) in *.
    unfold write_page. cbn [free_area g_pages]. rewrite length_insert.
    split; [done|]. split; [done|]. intros i Hi.
    rewrite Z.add_0_l, Nat2Z.id.
    destruct (decide (i = n)) as [->|Hne].
    + rewrite list_lookup_insert_eq by lia. done.
    + rewrite list_lookup_insert_ne by lia. apply IH3. lia.
Qed.

Lemma buddy_init_spec (st0 : state) :
  shape st0 → ∃ st, Root.buddy_init st0 = Ret st ∧ init_post st ∧ shape st.
Proof.
  intros [Ha Hp]. unfold Root.buddy_init.
  destruct (init_pages_spec
              (λ i, {| index := i; address := PAGE_TO_ADDR i; order := -1 |})
              (Z.to_nat n_pages) st0) as (H1 & H2 & H3); [lia|].
  rewrite Z2Nat.id in H1, H2, H3 by done.
  set (st1 := foldl _ st0 (seqZ 0 n_pages)) in *.
  change (seqZ MIN_ORDER (MAX_ORDER + 1 - MIN_ORDER)) with [12; 13; 14; 15; 16; 17; 18; 19; 20].
  cbn [foldl]. unfold INIT_LIST_HEAD, set_area. cbn [free_area g_pages].
  rewrite H1. destruct st0 as [fa gp]. cbn [free_area g_pages] in *.
  do 21 (destruct fa as [|? fa]; [discriminate Ha|]).
  destruct fa; [|discriminate Ha]. clear Ha.
  unfold set_order, page_at. cbn [g_pages free_area].
  rewrite bool_decide_true by done. change (Z.to_nat 0) with 0%nat.
  rewrite (H3 0%nat) by (vm_compute; lia).
  rewrite bind_Ret. unfold list_add, area, write_page. cbn [g_pages free_area order index address].
  rewrite bool_decide_true by done. cbn. unfold set_area, shape. cbn [g_pages free_area].
  eexists. split; [reflexivity|]. split; [split; [|split]|split].
  - intros p Hpr. cbn [g_pages]. destruct (decide (p = 0)) as [->|Hne].
    + rewrite list_lookup_insert_eq by (rewrite H2, Hp; vm_compute; lia). done.
    + rewrite list_lookup_insert_ne by lia. rewrite H3 by lia.
      rewrite Z2Nat.id by lia. rewrite bool_decide_false by done. done.
  - done.
  - intros k Hk. unfold MIN_ORDER, MAX_ORDER in Hk.
    assert (k = 12 ∨ k = 13 ∨ k = 14 ∨ k = 15 ∨ k = 16 ∨ k = 17 ∨ k = 18 ∨ k = 19) as Hc by lia.
    destruct_or!; subst k; reflexivity.
  - done.
  - cbn [g_pages]. rewrite length_insert. by rewrite H2.
Qed.

Lemma init_post_fl st k :
  init_post st → MIN_ORDER ≤ k ≤ MAX_ORDER →
  fl st k = if bool_decide (k = MAX_ORDER) then [0] else [].
Proof.
  intros (_ & Hmax & Hrest) Hk. unfold fl. case_bool_decide as Heq.
  - subst k. by rewrite Hmax.
  - rewrite Hrest by lia. done.
Qed.

Lemma init_post_wf st : init_post st → wf st.
Proof.
  intros Hpost. pose proof Hpost as (Hpg & Hmax & Hrest). split.
  - intros p Hp. rewrite (Hpg p Hp). unfold PAGE_TO_ADDR, PAGE_SIZE.
    rewrite shiftl_1 by done. eauto.
  - intros k Hk. destruct (decide (k = MAX_ORDER)) as [->|]; [eauto|].
    rewrite Hrest by lia. eauto.
  - intros k p Hk. rewrite init_post_fl by done.
    case_bool_decide; [|by intros ?%elem_of_nil].
    intros ->%list_elem_of_singleton. done.
Qed.

(** ** [splitMemory] *)

Lemma buddy_page_inj page j j' :
  MIN_ORDER ≤ j → MIN_ORDER ≤ j' → buddy_page page j = buddy_page page j' → j = j'.
Proof.
  unfold buddy_page, MIN_ORDER. intros Hj Hj' Heq.
  rewrite !shiftl_1 in Heq by lia.
  assert (2 ^ (j - 12) = 2 ^ (j' - 12)) as Hpow.
  { rewrite <- (Z.lxor_0_l (2 ^ (j - 12))), <- (Z.lxor_nilpotent page).
    rewrite Z.lxor_assoc, Heq, <- Z.lxor_assoc, Z.lxor_nilpotent. apply Z.lxor_0_l. }
  apply Z.pow_inj_r in Hpow; lia.
Qed.

Lemma splitMemory_spec (fuel : nat) (st : state) (page order orderNeeded : Z) :
  wf st → 0 ≤ page < n_pages →
  MIN_ORDER ≤ orderNeeded ≤ order → order ≤ MAX_ORDER →
  order - orderNeeded ≤ Z.of_nat fuel →
  ∃ st', Root.splitMemory fuel st page order orderNeeded = Ret st' ∧
         split_post st page order orderNeeded st'.
Proof.
  revert st order. induction fuel as [|fuel IH]; intros st order Hwf Hpage Hord Hmax Hfuel.
  - assert (order = orderNeeded) as -> by lia. cbn. rewrite bool_decide_true by done.
    exists st. split; [done|]. split; [done|]. split; [|split].
    + intros j Hj. rewrite bool_decide_false by lia. done.
    + intros j Hj. lia.
    + done.
  - cbn [Root.splitMemory]. case_bool_decide as Heq.
    { subst order. exists st. split; [done|]. split; [done|]. split; [|split].
      + intros j Hj. rewrite bool_decide_false by lia. done.
      + intros j Hj. lia.
      + done. }
    assert (MIN_ORDER ≤ order - 1 < MAX_ORDER) as Ho by lia.
    pose proof (buddy_page_range page (order - 1) Hpage Ho) as Hb.
    rewrite page_at_wf by done. rewrite bind_Ret. cbn [address].
    rewrite BUDDY_ADDR_page by done. rewrite bind_Ret.
    rewrite ADDR_TO_PAGE_page by done. rewrite bind_Ret.
    set (b := buddy_page page (order - 1)) in *.
    rewrite set_order_wf by done. rewrite bind_Ret.
    pose proof (wf_stamp st b (order - 1) Hwf Hb) as Hwf1.
    rewrite list_add_wf by (done || lia). rewrite bind_Ret.
    rewrite fl_stamp.
    set (st1 := set_area (order - 1) (b :: fl st (order - 1)) (stamp b (order - 1) st)).
    assert (wf st1) as Hwf2.
    { apply wf_set_area; [done|lia|]. intros p [->|Hp]%elem_of_cons; [done|].
      apply (wf_members _ Hwf (order - 1)); [lia|done]. }
    destruct (IH st1 (order - 1)) as (st' & Hrun & Hwf' & Hfl & Hob & Hoo); [done..|lia|lia|lia|].
    exists st'. split; [done|]. split; [done|].
    assert (∀ j, MIN_ORDER ≤ j ≤ MAX_ORDER →
              fl st1 j = if bool_decide (j = order - 1) then b :: fl st j else fl st j) as Hfl1.
    { intros j Hj. unfold st1. rewrite fl_set_area by (done || lia || unfold MIN_ORDER in *; lia).
      case_bool_decide as Hj1; [by subst j|done]. }
    assert (∀ q, 0 ≤ q → ord st1 q = if bool_decide (q = b) then order - 1 else ord st q) as Hord1.
    { intros q Hq. unfold st1. rewrite ord_set_area. by apply ord_stamp. }
    split; [|split].
    + intros j Hj. rewrite Hfl, Hfl1 by done.
      destruct (decide (j = order - 1)) as [->|Hne].
      * rewrite bool_decide_false by lia. rewrite !bool_decide_true by lia. done.
      * rewrite (bool_decide_false (j = order - 1)) by done.
        apply (f_equal (λ c : bool, if c then _ else _)). apply bool_decide_ext. lia.
    + intros j Hj. destruct (decide (j = order - 1)) as [->|Hne].
      * rewrite Hoo; [|done|].
        -- rewrite Hord1 by lia. by rewrite bool_decide_true.
        -- intros j Hj' Hcontra. apply buddy_page_inj in Hcontra; lia.
      * apply Hob. lia.
    + intros q Hq Hne. rewrite Hoo; [|done|].
      * rewrite Hord1 by lia. rewrite bool_decide_false; [done|]. apply Hne. lia.
      * intros j Hj. apply Hne. lia.
Qed.

(** ** [buddy_alloc] *)

Lemma buddy_page_ne page j : MIN_ORDER ≤ j → buddy_page page j ≠ page.
Proof.
  intros Hj. unfold buddy_page. rewrite shiftl_1 by lia. apply lxor_pow2_ne. lia.
Qed.

Lemma depth_val : Z.of_nat depth = MAX_ORDER.
Proof. reflexivity. Qed.

Lemma alloc_take (st : state) (H k T : Z) (rest : list Z) :
  wf st → MIN_ORDER ≤ T ≤ k → k ≤ MAX_ORDER → fl st k = H :: rest →
  ∃ st',
    (st1 ← list_del_init H k st;
     st2 ← Root.splitMemory depth st1 H k T;
     st3 ← set_order H T st2;
     pg ← page_at st3 H;
     Ret (st3, address pg)) = Ret (st', PAGE_TO_ADDR H) ∧
    alloc_post st H k T rest st'.
Proof.
  intros Hwf HT Hk Hfl.
  assert (0 ≤ H < n_pages) as HH.
  { apply (wf_members _ Hwf k); [lia|]. rewrite Hfl. apply list_elem_of_here. }
  rewrite list_del_init_wf by (done || lia). rewrite bind_Ret.
  rewrite Hfl. cbn [unlink]. rewrite bool_decide_true by done.
  set (st1 := set_area k rest st).
  assert (wf st1) as Hwf1.
  { apply wf_set_area; [done|lia|]. intros p Hp.
    apply (wf_members _ Hwf k); [lia|]. rewrite Hfl. by apply list_elem_of_further. }
  destruct (splitMemory_spec depth st1 H k T) as (st2 & Hrun & Hwf2 & Hfl2 & Hob & Hoo);
    [done..| |].
  { rewrite depth_val. unfold MIN_ORDER in *. lia. }
  rewrite Hrun, bind_Ret. rewrite set_order_wf by done. rewrite bind_Ret.
  pose proof (wf_stamp st2 H T Hwf2 HH) as Hwf3.
  rewrite page_at_wf by done. rewrite bind_Ret. cbn [address].
  eexists. split; [done|]. split; [done|]. split; [|split; [|split; [|split]]]; [| | | |by eauto].
  - intros j Hj. rewrite fl_stamp, Hfl2 by done. unfold st1.
    rewrite fl_set_area by (done || lia || unfold MIN_ORDER in *; lia).
    destruct (decide (j = k)) as [->|Hne].
    + rewrite bool_decide_false by lia. by rewrite !bool_decide_true.
    + by rewrite (bool_decide_false (j = k)).
  - rewrite ord_stamp by (done || lia). by rewrite bool_decide_true.
  - intros j Hj. rewrite ord_stamp by (done || unfold buddy_page; apply Z.lxor_nonneg;
      rewrite shiftl_1 by lia; pose proof (Z.pow_pos_nonneg 2 (j - MIN_ORDER)); lia).
    rewrite bool_decide_false by (apply buddy_page_ne; lia). by apply Hob.
  - intros q Hq Hne Hnb. rewrite ord_stamp by (done || lia).
    rewrite bool_decide_false by done. rewrite Hoo by done. unfold st1. apply ord_set_area.
Qed.

(** The scan over the orders [i, i+1, ..., MAX_ORDER]: all of them empty and
    a null result with the state untouched, or the first nonempty one
    served. *)
Lemma alloc_scan_cases (n : nat) (st : state) (i T : Z) :
  wf st → MIN_ORDER ≤ T ≤ i → i + Z.of_nat n = MAX_ORDER + 1 →
  (Root.alloc_scan (seqZ i (Z.of_nat n)) st T = Ret (st, NULL) ∧
   ∀ j, i ≤ j ≤ MAX_ORDER → fl st j = []) ∨
  (∃ k H rest st',
     i ≤ k ≤ MAX_ORDER ∧ fl st k = H :: rest ∧ (∀ j, i ≤ j < k → fl st j = []) ∧
     Root.alloc_scan (seqZ i (Z.of_nat n)) st T = Ret (st', PAGE_TO_ADDR H) ∧
     alloc_post st H k T rest st').
Proof.
  intros Hwf. revert i. induction n as [|n IH]; intros i HT Hn.
  - left. split; [done|]. intros j Hj. lia.
  - rewrite seqZ_cons by lia. cbn [Root.alloc_scan].
    rewrite area_wf by (done || lia). rewrite bind_Ret.
    replace (Z.pred (Z.of_nat (S n))) with (Z.of_nat n) by lia.
    destruct (fl st i) as [|H rest] eqn:Hfl.
    + destruct (IH (Z.succ i)) as [[Hrun Hall]|(k & H & rest & st' & Hk & Hflk & Hlow & Hrun & Hpost)];
        [lia|lia| |].
      * left. split; [done|]. intros j Hj.
        destruct (decide (j = i)) as [->|]; [done|]. apply Hall. lia.
      * right. exists k, H, rest, st'. split; [lia|]. split; [done|]. split; [|done].
        intros j Hj. destruct (decide (j = i)) as [->|]; [done|]. apply Hlow. lia.
    + right. destruct (alloc_take st H i T rest) as (st' & Hrun & Hpost); [done|lia|lia|done|].
      exists i, H, rest, st'. split; [lia|]. split; [done|]. split; [intros j Hj; lia|].
      split; [|done]. apply Hrun.
Qed.

Lemma buddy_alloc_cases (st : state) (size : Z) :
  wf st →
  let T := Root.determineOrder size in
  (Root.buddy_alloc st size = Ret (st, NULL) ∧
   (T = -1 ∨ ∀ j, T ≤ j ≤ MAX_ORDER → fl st j = [])) ∨
  (∃ k H rest st',
     MIN_ORDER ≤ T ≤ k ∧ k ≤ MAX_ORDER ∧ fl st k = H :: rest ∧
     (∀ j, T ≤ j < k → fl st j = []) ∧
     Root.buddy_alloc st size = Ret (st', PAGE_TO_ADDR H) ∧
     alloc_post st H k T rest st').
Proof.
  intros Hwf T. unfold Root.buddy_alloc.
  pose proof (determineOrder_range size) as HT. fold T in HT |- *. clearbody T.
  destruct HT as [Hm|HT].
  { rewrite bool_decide_true by done. left. auto. }
  rewrite bool_decide_false by (unfold MIN_ORDER in *; lia).
  destruct (alloc_scan_cases (Z.to_nat (MAX_ORDER + 1 - T)) st T T)
    as [[Hrun Hall]|(k & H & rest & st' & Hk & Hflk & Hlow & Hrun & Hpost)]; [done|lia|lia| |].
  - rewrite Z2Nat.id in Hrun by lia. left. auto.
  - rewrite Z2Nat.id in Hrun by lia. right. exists k, H, rest, st'.
    split; [lia|]. split; [lia|]. done.
Qed.

(** ** [buddy_free] *)

Lemma coalesce_det st H k st1 H1 k1 st2 H2 k2 :
  coalesce st H k st1 H1 k1 → coalesce st H k st2 H2 k2 →
  st1 = st2 ∧ H1 = H2 ∧ k1 = k2.
Proof.
  intros Hc1. revert st2 H2 k2.
  induction Hc1 as [st H k Hk|st H k Hk Hb|st H k st' H' k' Hk Hb Hc IH];
    intros st2 H2 k2 Hc2; inversion Hc2; subst; try done.
  by apply IH.
Qed.

Lemma free_loop_spec (fuel : nat) (st : state) (page i : Z) :
  wf st → 0 ≤ page < n_pages → MIN_ORDER ≤ i ≤ MAX_ORDER →
  MAX_ORDER - i ≤ Z.of_nat fuel →
  ∃ st' H' k',
    Root.free_loop fuel st page i = Ret (st', H', k') ∧
    coalesce st page i st' H' k' ∧
    wf st' ∧ 0 ≤ H' < n_pages ∧ i ≤ k' ≤ MAX_ORDER.
Proof.
  revert st page i. induction fuel as [|fuel IH]; intros st page i Hwf Hpage Hi Hfuel.
  - assert (i = MAX_ORDER) as -> by lia. cbn. rewrite bool_decide_false by lia.
    exists st, page, MAX_ORDER. split_and!; try done; try lia. by apply coalesce_top.
  - cbn [Root.free_loop]. case_bool_decide as Hlt; cycle 1.
    { exists st, page, i. split_and!; try done; try lia. by apply coalesce_top. }
    assert (MIN_ORDER ≤ i < MAX_ORDER) as Hi' by lia.
    pose proof (buddy_page_range page i Hpage Hi') as Hb.
    rewrite page_at_wf by done. rewrite bind_Ret. cbn [address].
    rewrite BUDDY_ADDR_page by done. rewrite bind_Ret.
    rewrite ADDR_TO_PAGE_page by done. rewrite bind_Ret.
    rewrite area_wf by done. rewrite bind_Ret.
    rewrite list_for_each_found_spec.
    set (b := buddy_page page i) in *.
    case_bool_decide as Hin; cbn [negb]; cycle 1.
    { exists st, page, i. split_and!; try done; try lia. by apply coalesce_stop. }
    rewrite list_del_init_wf by done. rewrite bind_Ret.
    set (st1 := set_area i (unlink b (fl st i)) st).
    assert (wf st1) as Hwf1.
    { apply wf_set_area; [done..|]. intros p Hp%elem_of_unlink_1.
      by apply (wf_members _ Hwf i). }
    destruct (IH st1 (Z.min page b) (i + 1)) as (st' & H' & k' & Hrun & Hco & Hwf' & HH' & Hk');
      [done|lia|lia|lia|].
    assert ((if bool_decide (b < page) then b else page) = Z.min page b) as ->.
    { case_bool_decide; lia. }
    exists st', H', k'. split; [done|]. split; [|split_and!; try done; lia].
    by apply coalesce_merge.
Qed.

Lemma buddy_free_spec (st : state) (p : Z) :
  wf st → 0 ≤ p < n_pages → MIN_ORDER ≤ ord st p ≤ MAX_ORDER →
  ∃ st1 H k,
    coalesce st p (ord st p) st1 H k ∧
    wf st1 ∧ 0 ≤ H < n_pages ∧ ord st p ≤ k ≤ MAX_ORDER ∧
    Root.buddy_free st (PAGE_TO_ADDR p) = Ret (set_area k (H :: fl st1 k) (stamp H k st1)).
Proof.
  intros Hwf Hp Ho. unfold Root.buddy_free.
  rewrite ADDR_TO_PAGE_page by done. rewrite bind_Ret.
  rewrite page_at_wf by done. rewrite bind_Ret. cbn [order].
  rewrite !bool_decide_false by lia. cbn [orb].
  destruct (free_loop_spec depth st p (ord st p)) as (st1 & H & k & Hrun & Hco & Hwf1 & HH & Hk);
    [done..| |].
  { rewrite depth_val. unfold MIN_ORDER in *. lia. }
  rewrite Hrun, bind_Ret. rewrite set_order_wf by done. rewrite bind_Ret.
  rewrite list_add_wf by (by apply wf_stamp || lia). rewrite fl_stamp.
  exists st1, H, k. split_and!; try done; lia.
Qed.

(** ** The two copies side by side *)

Lemma sub_buddy_init st : Sub.buddy_init st = Root.buddy_init st.
Proof. reflexivity. Qed.

Lemma sub_determineOrder size : Sub.determineOrder size = Root.determineOrder size.
Proof. reflexivity. Qed.

Lemma sub_splitMemory fuel st page order orderNeeded :
  Sub.splitMemory fuel st page order orderNeeded = Root.splitMemory fuel st page order orderNeeded.
Proof. reflexivity. Qed.

Lemma sub_buddy_alloc st size : Sub.buddy_alloc st size = Root.buddy_alloc st size.
Proof. reflexivity. Qed.

Lemma sub_free_loop fuel st page i : Sub.free_loop fuel st page i = Root.free_loop fuel st page i.
Proof. reflexivity. Qed.

(** With a stored order inside [MIN_ORDER .. MAX_ORDER] the test of
    [src/buddy.c] passes and the two copies of [buddy_free] run the same
    statements. *)
Lemma sub_buddy_free st addr k :
  stored_order st addr = Ret k → MIN_ORDER ≤ k ≤ MAX_ORDER →
  Sub.buddy_free st addr = Root.buddy_free st addr.
Proof.
  unfold stored_order, Sub.buddy_free, Root.buddy_free. intros Hso Hk.
  destruct (ADDR_TO_PAGE addr) as [p| | |]; try done. rewrite !bind_Ret in *.
  destruct (page_at st p) as [pg| | |]; try done. rewrite !bind_Ret in *.
  injection Hso as ->. rewrite !bool_decide_false by lia. done.
Qed.

Lemma copy_buddy_init c st : buddy_init_of c st = Root.buddy_init st.
Proof. by destruct c. Qed.

Lemma copy_determineOrder c size : determineOrder_of c size = Root.determineOrder size.
Proof. by destruct c. Qed.

Lemma copy_splitMemory c fuel st page order orderNeeded :
  splitMemory_of c fuel st page order orderNeeded = Root.splitMemory fuel st page order orderNeeded.
Proof. by destruct c. Qed.

Lemma copy_buddy_alloc c st size : buddy_alloc_of c st size = Root.buddy_alloc st size.
Proof. by destruct c. Qed.

Lemma stored_order_wf st p :
  wf st → 0 ≤ p < n_pages → stored_order st (PAGE_TO_ADDR p) = Ret (ord st p).
Proof.
  intros Hwf Hp. unfold stored_order.
  rewrite ADDR_TO_PAGE_page by done. rewrite bind_Ret.
  rewrite page_at_wf by done. done.
Qed.

Lemma copy_buddy_free c st p :
  wf st → 0 ≤ p < n_pages → MIN_ORDER ≤ ord st p ≤ MAX_ORDER →
  buddy_free_of c st (PAGE_TO_ADDR p) = Root.buddy_free st (PAGE_TO_ADDR p).
Proof.
  intros Hwf Hp Ho. destruct c; [done|]. cbn [buddy_free_of].
  apply (sub_buddy_free _ _ (ord st p)); [|done]. by apply stored_order_wf.
Qed.

Lemma init0_run : Root.buddy_init boot = Ret init0.
Proof. vm_compute. reflexivity. Qed.

Lemma boot_shape : shape boot.
Proof. split; reflexivity. Qed.

Lemma init0_wf : wf init0.
Proof.
  destruct (buddy_init_spec boot boot_shape) as (st & Hrun & Hpost & _).
  rewrite init0_run in Hrun. injection Hrun as <-. by apply init_post_wf.
Qed.

(** ** Blocks and the tiling of the arena *)

Lemma psz_pos k : MIN_ORDER ≤ k → 0 < psz k.
Proof. intros. unfold psz. apply Z.pow_pos_nonneg; lia. Qed.

Lemma psz_succ k : MIN_ORDER ≤ k → psz (k + 1) = 2 * psz k.
Proof.
  intros. unfold psz. replace (k + 1 - MIN_ORDER) with (k - MIN_ORDER + 1) by lia.
  rewrite Z.pow_add_r by lia. lia.
Qed.

Lemma psz_max : psz MAX_ORDER = n_pages.
Proof. reflexivity. Qed.

Lemma buddy_page_psz p k : MIN_ORDER ≤ k → buddy_page p k = Z.lxor p (psz k).
Proof. intros. unfold buddy_page, psz. by rewrite shiftl_1 by lia. Qed.

Lemma buddy_page_twice p k : MIN_ORDER ≤ k → buddy_page (buddy_page p k) k = p.
Proof. intros. rewrite !buddy_page_psz by done. apply lxor_twice. Qed.

(** The buddy of the left half of an aligned block is its right half. *)
Lemma buddy_page_right p k :
  MIN_ORDER ≤ k → (psz (k + 1) | p) → buddy_page p k = p + psz k.
Proof.
  intros Hk Hd. rewrite buddy_page_psz by done. unfold psz in *.
  apply buddy_right; [lia|].
  replace (k - MIN_ORDER + 1) with (k + 1 - MIN_ORDER) by lia. done.
Qed.

Lemma buddy_page_cases p k :
  MIN_ORDER ≤ k → (psz k | p) →
  (buddy_page p k = p + psz k ∧ (psz (k + 1) | p)) ∨
  (buddy_page p k = p - psz k ∧ (psz (k + 1) | p - psz k)).
Proof.
  intros Hk Hd. rewrite buddy_page_psz by done. unfold psz in *.
  replace (k + 1 - MIN_ORDER) with (k - MIN_ORDER + 1) by lia.
  apply buddy_cases; [lia|done].
Qed.

Lemma psz_divide_succ k p : MIN_ORDER ≤ k → (psz (k + 1) | p) → (psz k | p).
Proof.
  intros Hk [c ->]. rewrite psz_succ by done. exists (c * 2). lia.
Qed.

(** Replacing the blocks [old] of a tiling by blocks [new] that cover the
    same pages gives a tiling. *)
Lemma tiling_update (B B' old new : block → Prop) :
  tiling B →
  (∀ b, old b ∨ ¬ old b) →
  (∀ b, old b → B b) →
  (∀ b, B' b ↔ (B b ∧ ¬ old b) ∨ new b) →
  (∀ b, new b → valid b) →
  (∀ b x, new b → covers b x → ∃ b0, old b0 ∧ covers b0 x) →
  (∀ b x, old b → covers b x → ∃ b1, new b1 ∧ covers b1 x) →
  (∀ b1 b2 x, new b1 → new b2 → covers b1 x → covers b2 x → b1 = b2) →
  tiling B'.
Proof.
  intros [Hv Hd Hc] Hdec Hold HB' Hnv Hno Hon Hnd. split.
  - intros b [[Hb _]|Hb]%HB'; auto.
  - intros b1 b2 x [[H1 Ho1]|H1]%HB' [[H2 Ho2]|H2]%HB' Hc1 Hc2.
    + by apply (Hd b1 b2 x).
    + destruct (Hno b2 x H2 Hc2) as (b0 & Hb0 & Hc0).
      destruct Ho1. by rewrite (Hd b1 b0 x H1 (Hold _ Hb0) Hc1 Hc0).
    + destruct (Hno b1 x H1 Hc1) as (b0 & Hb0 & Hc0).
      destruct Ho2. by rewrite (Hd b2 b0 x H2 (Hold _ Hb0) Hc2 Hc0).
    + by apply (Hnd b1 b2 x).
  - intros x Hx. destruct (Hc x Hx) as (b & Hb & Hcb).
    destruct (Hdec b) as [Ho|Hno'].
    + destruct (Hon b x Ho Hcb) as (b1 & Hb1 & Hc1). exists b1. split; [|done].
      apply HB'. by right.
    + exists b. split; [|done]. apply HB'. by left.
Qed.

(** Changing the tag of one block keeps the tiling. *)
Lemma tiling_retag (B B' : block → Prop) (t t' : tag) (p k : Z) :
  tiling B → B (t, p, k) →
  (∀ b, B' b ↔ (B b ∧ b ≠ (t, p, k)) ∨ b = (t', p, k)) →
  tiling B'.
Proof.
  intros Ht Hb HB'.
  apply (tiling_update B B' (λ b, b = (t, p, k)) (λ b, b = (t', p, k))); try done.
  - intros b. destruct (decide (b = (t, p, k))); auto.
  - by intros b ->.
  - intros b ->. apply (t_valid _ Ht) in Hb. done.
  - intros b x -> Hc. by exists (t, p, k).
  - intros b x -> Hc. by exists (t', p, k).
  - by intros b1 b2 x -> ->.
Qed.

(** ** The allocator's invariant *)

Lemma PAGE_TO_ADDR_inj p q : PAGE_TO_ADDR p = PAGE_TO_ADDR q → p = q.
Proof. unfold PAGE_TO_ADDR. rewrite PAGE_SIZE_val. intros [= ?]. lia. Qed.

Lemma valid_covers t p k : valid (t, p, k) → covers (t, p, k) p.
Proof. intros (Hk & _ & _ & _). cbn. pose proof (psz_pos k). lia. Qed.

Lemma valid_range t p k : valid (t, p, k) → 0 ≤ p < n_pages.
Proof. intros (Hk & ? & ? & _). pose proof (psz_pos k). lia. Qed.

(** A page of the floating block is the first page of no other block. *)
Lemma float_not_live s H k q :
  inv (Some (H, k)) s → H ≤ q < H + psz k → PAGE_TO_ADDR q ∉ live s.
Proof.
  intros Hinv Hq Hin. pose proof (inv_tiling _ _ Hinv) as Ht.
  assert (blocks (Some (H, k)) s (Live, q, ord (mem s) q)) as Hb by done.
  pose proof (valid_covers _ _ _ (t_valid _ Ht _ Hb)) as Hc.
  assert ((Live, q, ord (mem s) q) = (Float, H, k)); [|done].
  by apply (t_disj _ Ht _ _ q).
Qed.

Lemma float_not_free s H k q j :
  inv (Some (H, k)) s → H ≤ q < H + psz k →
  MIN_ORDER ≤ j ≤ MAX_ORDER → q ∉ fl (mem s) j.
Proof.
  intros Hinv Hq Hj Hin. pose proof (inv_tiling _ _ Hinv) as Ht.
  assert (blocks (Some (H, k)) s (Free, q, j)) as Hb by done.
  pose proof (valid_covers _ _ _ (t_valid _ Ht _ Hb)) as Hc.
  assert ((Free, q, j) = (Float, H, k)); [|done].
  by apply (t_disj _ Ht _ _ q).
Qed.

Lemma float_valid s H k : inv (Some (H, k)) s → valid (Float, H, k).
Proof. intros Hinv. by apply (t_valid _ (inv_tiling _ _ Hinv)). Qed.

Lemma elem_of_unlink (e x : Z) (l : list Z) : NoDup l → x ∈ unlink e l ↔ x ∈ l ∧ x ≠ e.
Proof.
  intros Hnd. split.
  - intros Hin. split; [by apply elem_of_unlink_1 in Hin|].
    intros ->. by apply (NoDup_unlink e l Hnd).
  - intros [? ?]. by apply elem_of_unlink_2.
Qed.

(** Taking the block at [H] off the list of order [k] makes it the floating
    block. *)
Lemma inv_detach s H k :
  inv None s → MIN_ORDER ≤ k ≤ MAX_ORDER → H ∈ fl (mem s) k →
  inv (Some (H, k)) {| mem := set_area k (unlink H (fl (mem s) k)) (mem s); live := live s |}.
Proof.
  intros Hinv Hk HH. pose proof (inv_wf _ _ Hinv) as Hwf.
  assert (∀ j, MIN_ORDER ≤ j ≤ MAX_ORDER →
            fl (set_area k (unlink H (fl (mem s) k)) (mem s)) j
            = if bool_decide (j = k) then unlink H (fl (mem s) k) else fl (mem s) j) as Hfl.
  { intros j Hj. apply fl_set_area; [done..|unfold MIN_ORDER in *; lia]. }
  split; cbn [mem live].
  - apply wf_set_area; [done..|]. intros p Hp%elem_of_unlink_1. by apply (wf_members _ Hwf k).
  - intros j Hj. rewrite Hfl by done. case_bool_decide.
    + apply NoDup_unlink. by apply (inv_nodup _ _ Hinv).
    + by apply (inv_nodup _ _ Hinv).
  - apply (inv_live_nodup _ _ Hinv).
  - apply (inv_live_page _ _ Hinv).
  - apply (tiling_retag (blocks None s) _ Free Float H k); [apply (inv_tiling _ _ Hinv)|done|].
    intros [[[] p] j]; cbn [blocks mem live].
    + split.
      * intros [Hj Hp]. rewrite Hfl in Hp by done. left. case_bool_decide as Hjk.
        -- subst j. apply elem_of_unlink in Hp as [? ?]; [|by apply (inv_nodup _ _ Hinv)].
           split; [done|]. congruence.
        -- split; [done|]. congruence.
      * intros [[[Hj Hp] Hne]|[=]]. split; [done|]. rewrite Hfl by done.
        case_bool_decide as Hjk; [|done]. subst j.
        apply elem_of_unlink; [by apply (inv_nodup _ _ Hinv)|]. split; [done|]. congruence.
    + rewrite ord_set_area. split; [intros ?; left; split; [done|congruence]|].
      by intros [[? _]|[=]].
    + split; [intros [= -> ->]; by right|]. by intros [[[=] _]|[= -> ->]].
  - intros j p Hj. rewrite !Hfl by lia. case_bool_decide.
    + subst j. intros Hp%elem_of_unlink_1 Hb%elem_of_unlink_1.
      by apply (inv_eager _ _ Hinv k p).
    + by apply (inv_eager _ _ Hinv).
Qed.

(** One round of splitting: the floating block keeps its left half and its
    right half goes on the list one order below. *)
Lemma inv_split s H o :
  inv (Some (H, o)) s → MIN_ORDER < o →
  let b := buddy_page H (o - 1) in
  inv (Some (H, o - 1))
      {| mem := set_area (o - 1) (b :: fl (mem s) (o - 1)) (stamp b (o - 1) (mem s));
         live := live s |}.
Proof.
  intros Hinv Ho b. pose proof (inv_wf _ _ Hinv) as Hwf.
  assert (b = buddy_page H (o - 1)) as Hbdef by done. clearbody b.
  assert (buddy_page b (o - 1) = H) as Hbb by (rewrite Hbdef; apply buddy_page_twice; lia).
  pose proof (float_valid _ _ _ Hinv) as (Hk & HH0 & HHn & Hal).
  pose proof (psz_succ (o - 1)) as Hps. replace (o - 1 + 1) with o in Hps by lia.
  pose proof (psz_pos (o - 1)) as Hpp.
  assert (b = H + psz (o - 1)) as Hb.
  { rewrite Hbdef. apply buddy_page_right; [lia|]. by replace (o - 1 + 1) with o by lia. }
  assert (0 ≤ b < n_pages) as Hbr by lia.
  assert (∀ j, MIN_ORDER ≤ j ≤ MAX_ORDER →
            fl (set_area (o - 1) (b :: fl (mem s) (o - 1)) (stamp b (o - 1) (mem s))) j
            = if bool_decide (j = o - 1) then b :: fl (mem s) (o - 1) else fl (mem s) j) as Hfl.
  { intros j Hj. rewrite fl_set_area; [done|by apply wf_stamp|lia|unfold MIN_ORDER in *; lia]. }
  assert (b ∉ fl (mem s) (o - 1)) as Hbfree.
  { apply (float_not_free s H o); [done|lia|lia]. }
  assert (H ∉ fl (mem s) (o - 1)) as HHfree.
  { apply (float_not_free s H o); [done|lia|lia]. }
  split; cbn [mem live].
  - apply wf_set_area; [by apply wf_stamp|lia|].
    intros p [->|Hp]%elem_of_cons; [done|]. apply (wf_members _ Hwf (o - 1)); [lia|done].
  - intros j Hj. rewrite Hfl by done. case_bool_decide.
    + constructor; [done|]. apply (inv_nodup _ _ Hinv). lia.
    + by apply (inv_nodup _ _ Hinv).
  - apply (inv_live_nodup _ _ Hinv).
  - apply (inv_live_page _ _ Hinv).
  - apply (tiling_update (blocks (Some (H, o)) s) _
             (λ x, x = (Float, H, o))
             (λ x, x = (Float, H, o - 1) ∨ x = (Free, b, o - 1)));
      [apply (inv_tiling _ _ Hinv)| | | | | | |].
    + intros x. destruct (decide (x = (Float, H, o))); auto.
    + by intros x ->.
    + intros [[[] p] j]; cbn [blocks mem live].
      * rewrite <- (and_comm (p ∈ _)). split.
        -- intros [Hp Hj]. rewrite Hfl in Hp by done. case_bool_decide as Hjo.
           ++ subst j. apply elem_of_cons in Hp as [->|Hp]; [right; by right|].
              left. split; [done|congruence].
           ++ left. split; [done|congruence].
        -- intros [[[Hp Hj] _]|[[=]|[= -> ->]]].
           ++ split; [|done]. rewrite Hfl by done. case_bool_decide as Hjo; [|done].
              subst j. by apply list_elem_of_further.
           ++ split; [|lia]. rewrite Hfl by lia. rewrite bool_decide_true by done.
              apply list_elem_of_here.
      * rewrite ord_set_area. split.
        -- intros [Hp Hord]. left. split; [|congruence]. split; [done|].
           destruct (inv_live_page _ _ Hinv _ Hp) as (p' & ->%PAGE_TO_ADDR_inj & Hp').
           rewrite ord_stamp in Hord by (done || lia).
           rewrite bool_decide_false in Hord; [done|]. intros ->.
           apply (float_not_live s H o b Hinv); [lia|done].
        -- intros [[[Hp Hord] _]|[[=]|[=]]]. split; [done|].
           destruct (inv_live_page _ _ Hinv _ Hp) as (p' & ->%PAGE_TO_ADDR_inj & Hp').
           rewrite ord_stamp by (done || lia). rewrite bool_decide_false; [done|]. intros ->.
           apply (float_not_live s H o b Hinv); [lia|done].
      * split; [intros [= -> ->]; right; by left|].
        intros [[[= -> ->] Hne]|[[= -> ->]|[=]]]; [by destruct Hne|done].
    + intros x [->| ->]; (split; [lia|]); (split; [lia|]); (split; [lia|]).
      * apply psz_divide_succ; [lia|]. by replace (o - 1 + 1) with o by lia.
      * rewrite Hb. apply Z.divide_add_r; [|done].
        apply psz_divide_succ; [lia|]. by replace (o - 1 + 1) with o by lia.
    + intros x y [->| ->] Hc; exists (Float, H, o); (split; [done|]); cbn in *; lia.
    + intros x y -> Hc. cbn in Hc. destruct (decide (y < b)).
      * exists (Float, H, o - 1). split; [by left|]. cbn. lia.
      * exists (Free, b, o - 1). split; [by right|]. cbn. lia.
    + intros x1 x2 y [->| ->] [->| ->] Hc1 Hc2; try done; cbn in *; lia.
  - intros j p Hj. rewrite !Hfl by lia. case_bool_decide as Hjo.
    + subst j. intros [->|Hp]%elem_of_cons.
      * rewrite Hbb. rewrite not_elem_of_cons. split; [|done]. lia.
      * rewrite not_elem_of_cons. split; [|by apply (inv_eager _ _ Hinv)].
        intros Heq. apply HHfree. rewrite <- Hbb, <- Heq. by rewrite buddy_page_twice by lia.
    + by apply (inv_eager _ _ Hinv).
Qed.

(** One round of coalescing: the floating block and its free buddy become
    one floating block of the next order, headed by the lower of the two. *)
Lemma inv_merge s H k :
  inv (Some (H, k)) s → k < MAX_ORDER → buddy_page H k ∈ fl (mem s) k →
  inv (Some (Z.min H (buddy_page H k), k + 1))
      {| mem := set_area k (unlink (buddy_page H k) (fl (mem s) k)) (mem s); live := live s |}.
Proof.
  intros Hinv Hlt Hin. set (b := buddy_page H k) in *.
  pose proof (inv_wf _ _ Hinv) as Hwf. pose proof (inv_tiling _ _ Hinv) as Ht.
  pose proof (float_valid _ _ _ Hinv) as (Hk & HH0 & HHn & Hal).
  assert (blocks (Some (H, k)) s (Free, b, k)) as Hbblk by done.
  pose proof (t_valid _ Ht _ Hbblk) as (_ & Hb0 & Hbn & Hbal).
  pose proof (psz_succ k) as Hps. pose proof (psz_pos k) as Hpp.
  assert ((b = H + psz k ∧ (psz (k + 1) | H)) ∨ (b = H - psz k ∧ (psz (k + 1) | b))) as Hcases.
  { destruct (buddy_page_cases H k) as [[? ?]|[Heq ?]]; [lia|done|by left|right].
    fold b in Heq. split; [done|]. by rewrite Heq. }
  assert (∀ j, MIN_ORDER ≤ j ≤ MAX_ORDER →
            fl (set_area k (unlink b (fl (mem s) k)) (mem s)) j
            = if bool_decide (j = k) then unlink b (fl (mem s) k) else fl (mem s) j) as Hfl.
  { intros j Hj. apply fl_set_area; [done..|unfold MIN_ORDER in *; lia]. }
  split; cbn [mem live].
  - apply wf_set_area; [done..|]. intros p Hp%elem_of_unlink_1. by apply (wf_members _ Hwf k).
  - intros j Hj. rewrite Hfl by done. case_bool_decide.
    + apply NoDup_unlink. by apply (inv_nodup _ _ Hinv).
    + by apply (inv_nodup _ _ Hinv).
  - apply (inv_live_nodup _ _ Hinv).
  - apply (inv_live_page _ _ Hinv).
  - apply (tiling_update (blocks (Some (H, k)) s) _
             (λ x, x = (Float, H, k) ∨ x = (Free, b, k))
             (λ x, x = (Float, Z.min H b, k + 1))); [done| | | | | | |].
    + intros x. destruct (decide (x = (Float, H, k))); [by auto|].
      destruct (decide (x = (Free, b, k))); [by auto|]. right. by intros [?|?].
    + by intros x [->| ->].
    + intros [[[] p] j]; cbn [blocks mem live].
      * split.
        -- intros [Hj Hp]. rewrite Hfl in Hp by done. left. case_bool_decide as Hjk.
           ++ subst j. apply elem_of_unlink in Hp as [? ?]; [|by apply (inv_nodup _ _ Hinv)].
              split; [done|]. intros [[=]|[=]]. done.
           ++ split; [done|]. intros [[=]|[=]]. done.
        -- intros [[[Hj Hp] Hne]|[=]]. split; [done|]. rewrite Hfl by done.
           case_bool_decide as Hjk; [|done]. subst j.
           apply elem_of_unlink; [by apply (inv_nodup _ _ Hinv)|]. split; [done|].
           intros ->. apply Hne. by right.
      * rewrite ord_set_area. split; [intros ?; left; split; [done|by intros [[=]|[=]]]|].
        by intros [[? _]|[=]].
      * split; [intros [= -> ->]; by right|].
        intros [[[= -> ->] Hne]|[= -> ->]]; [|done]. destruct Hne. by left.
    + intros x ->. split; [lia|]. rewrite Hps by lia.
      destruct Hcases as [[Hb Hd]|[Hb Hd]].
      * rewrite Z.min_l by lia. split; [lia|]. split; [lia|]. by rewrite <- Hps by lia.
      * rewrite Z.min_r by lia. split; [lia|]. split; [lia|]. by rewrite <- Hps by lia.
    + intros x y -> Hc. cbn in Hc. rewrite Hps in Hc by lia.
      destruct (decide (H ≤ y < H + psz k)).
      * exists (Float, H, k). split; [by left|]. done.
      * exists (Free, b, k). split; [by right|]. cbn. lia.
    + intros x y [->| ->] Hc; exists (Float, Z.min H b, k + 1); (split; [done|]);
        cbn in *; rewrite Hps by lia; lia.
    + by intros x1 x2 y -> ->.
  - intros j p Hj. rewrite !Hfl by lia. case_bool_decide.
    + subst j. intros Hp%elem_of_unlink_1 Hb%elem_of_unlink_1.
      by apply (inv_eager _ _ Hinv k p).
    + by apply (inv_eager _ _ Hinv).
Qed.

(** The floating block is handed out. *)
Lemma inv_to_live s H T :
  inv (Some (H, T)) s →
  inv None {| mem := stamp H T (mem s); live := PAGE_TO_ADDR H :: live s |}.
Proof.
  intros Hinv. pose proof (inv_wf _ _ Hinv) as Hwf.
  pose proof (float_valid _ _ _ Hinv) as Hv.
  pose proof (valid_range _ _ _ Hv) as HH. pose proof (valid_covers _ _ _ Hv) as Hc.
  assert (PAGE_TO_ADDR H ∉ live s) as Hnl by (by apply (float_not_live s H T)).
  split; cbn [mem live].
  - by apply wf_stamp.
  - intros j Hj. rewrite fl_stamp. by apply (inv_nodup _ _ Hinv).
  - constructor; [done|]. apply (inv_live_nodup _ _ Hinv).
  - intros a [->|Ha]%elem_of_cons; [eauto|]. by apply (inv_live_page _ _ Hinv).
  - apply (tiling_retag (blocks (Some (H, T)) s) _ Float Live H T);
      [apply (inv_tiling _ _ Hinv)|done|].
    intros [[[] p] j]; cbn [blocks mem live].
    + rewrite fl_stamp. split; [intros ?; left; split; [done|congruence]|].
      by intros [[? _]|[=]].
    + split.
      * intros [[Hp|Hp]%elem_of_cons Hord].
        -- apply PAGE_TO_ADDR_inj in Hp as ->. right.
           rewrite ord_stamp in Hord by (done || lia).
           rewrite bool_decide_true in Hord by done. by subst j.
        -- left. split; [|congruence]. split; [done|].
           destruct (inv_live_page _ _ Hinv _ Hp) as (p' & ->%PAGE_TO_ADDR_inj & Hp').
           rewrite ord_stamp in Hord by (done || lia).
           rewrite bool_decide_false in Hord; [done|]. by intros ->.
      * intros [[[Hp Hord] _]|[= -> ->]].
        -- split; [by apply list_elem_of_further|].
           destruct (inv_live_page _ _ Hinv _ Hp) as (p' & ->%PAGE_TO_ADDR_inj & Hp').
           rewrite ord_stamp by (done || lia). rewrite bool_decide_false; [done|]. by intros ->.
        -- split; [apply list_elem_of_here|]. rewrite ord_stamp by (done || lia).
           by rewrite bool_decide_true.
    + split; [done|]. by intros [[[= -> ->] Hne]|[=]].
  - intros j p Hj. rewrite !fl_stamp. by apply (inv_eager _ _ Hinv).
Qed.

(** A live block is taken back into the allocator's hands. *)
Lemma inv_from_live s p :
  inv None s → PAGE_TO_ADDR p ∈ live s →
  inv (Some (p, ord (mem s) p)) {| mem := mem s; live := forget (PAGE_TO_ADDR p) (live s) |}.
Proof.
  intros Hinv Hp. split; cbn [mem live].
  - apply (inv_wf _ _ Hinv).
  - apply (inv_nodup _ _ Hinv).
  - apply NoDup_filter, (inv_live_nodup _ _ Hinv).
  - intros a [_ Ha]%list_elem_of_filter. by apply (inv_live_page _ _ Hinv).
  - apply (tiling_retag (blocks None s) _ Live Float p (ord (mem s) p));
      [apply (inv_tiling _ _ Hinv)|done|].
    intros [[[] q] j]; cbn [blocks mem live].
    + split; [intros ?; left; split; [done|congruence]|]. by intros [[? _]|[=]].
    + unfold forget. rewrite list_elem_of_filter. split.
      * intros [[Hne Hq] Hord]. left. split; [done|]. intros [= -> ?]. done.
      * intros [[[Hq Hord] Hne]|[=]]. split; [|done]. split; [|done].
        intros ->%PAGE_TO_ADDR_inj. by subst j.
    + split; [intros [= -> ->]; by right|]. by intros [[[=] _]|[= -> ->]].
  - apply (inv_eager _ _ Hinv).
Qed.

(** The floating block goes on the list of its order, once its buddy is
    known not to be there. *)
Lemma inv_attach s H k :
  inv (Some (H, k)) s → (k < MAX_ORDER → buddy_page H k ∉ fl (mem s) k) →
  inv None {| mem := set_area k (H :: fl (mem s) k) (stamp H k (mem s)); live := live s |}.
Proof.
  intros Hinv Hnb. pose proof (inv_wf _ _ Hinv) as Hwf.
  pose proof (float_valid _ _ _ Hinv) as Hv. pose proof Hv as (Hk & _).
  pose proof (valid_range _ _ _ Hv) as HH. pose proof (valid_covers _ _ _ Hv) as Hc.
  assert (H ∉ fl (mem s) k) as HHfree by (by apply (float_not_free s H k)).
  assert (∀ j, MIN_ORDER ≤ j ≤ MAX_ORDER →
            fl (set_area k (H :: fl (mem s) k) (stamp H k (mem s))) j
            = if bool_decide (j = k) then H :: fl (mem s) k else fl (mem s) j) as Hfl.
  { intros j Hj. rewrite fl_set_area; [done|by apply wf_stamp|lia|unfold MIN_ORDER in *; lia]. }
  split; cbn [mem live].
  - apply wf_set_area; [by apply wf_stamp|lia|].
    intros p [->|Hp]%elem_of_cons; [done|]. by apply (wf_members _ Hwf k).
  - intros j Hj. rewrite Hfl by done. case_bool_decide.
    + constructor; [done|]. by apply (inv_nodup _ _ Hinv).
    + by apply (inv_nodup _ _ Hinv).
  - apply (inv_live_nodup _ _ Hinv).
  - apply (inv_live_page _ _ Hinv).
  - apply (tiling_retag (blocks (Some (H, k)) s) _ Float Free H k);
      [apply (inv_tiling _ _ Hinv)|done|].
    intros [[[] p] j]; cbn [blocks mem live].
    + split.
      * intros [Hj Hp]. rewrite Hfl in Hp by done. case_bool_decide as Hjk.
        -- subst j. apply elem_of_cons in Hp as [->|Hp]; [by right|].
           left. split; [done|congruence].
        -- left. split; [done|congruence].
      * intros [[[Hj Hp] _]|[= -> ->]].
        -- split; [done|]. rewrite Hfl by done. case_bool_decide as Hjk; [|done].
           subst j. by apply list_elem_of_further.
        -- split; [done|]. rewrite Hfl by done. rewrite bool_decide_true by done.
           apply list_elem_of_here.
    + rewrite ord_set_area. split.
      * intros [Hp Hord]. left. split; [|congruence]. split; [done|].
        destruct (inv_live_page _ _ Hinv _ Hp) as (p' & ->%PAGE_TO_ADDR_inj & Hp').
        rewrite ord_stamp in Hord by (done || lia).
        rewrite bool_decide_false in Hord; [done|]. intros ->.
        by apply (float_not_live s H k H Hinv).
      * intros [[[Hp Hord] _]|[=]]. split; [done|].
        destruct (inv_live_page _ _ Hinv _ Hp) as (p' & ->%PAGE_TO_ADDR_inj & Hp').
        rewrite ord_stamp by (done || lia). rewrite bool_decide_false; [done|]. intros ->.
        by apply (float_not_live s H k H Hinv).
    + split; [done|]. by intros [[[= -> ->] Hne]|[=]].
  - intros j p Hj. rewrite !Hfl by lia. case_bool_decide as Hjk.
    + subst j. intros [->|Hp]%elem_of_cons.
      * rewrite not_elem_of_cons. split; [by apply buddy_page_ne; lia|]. apply Hnb. lia.
      * rewrite not_elem_of_cons. split; [|by apply (inv_eager _ _ Hinv)].
        intros Heq. apply Hnb; [lia|]. rewrite <- Heq. by rewrite buddy_page_twice by lia.
    + by apply (inv_eager _ _ Hinv).
Qed.

(** The state [buddy_init] leaves: one free block of the top order. *)
Lemma inv_init st : init_post st → inv None {| mem := st; live := [] |}.
Proof.
  intros Hpost. pose proof (λ k, init_post_fl st k Hpost) as Hfl.
  assert (∀ p k, MIN_ORDER ≤ k ≤ MAX_ORDER → p ∈ fl st k → p = 0 ∧ k = MAX_ORDER) as Honly.
  { intros p k Hk. rewrite Hfl by done. case_bool_decide.
    - by intros ->%list_elem_of_singleton.
    - by intros ?%elem_of_nil. }
  split; cbn [mem live].
  - by apply init_post_wf.
  - intros k Hk. rewrite Hfl by done. case_bool_decide; [apply NoDup_singleton|apply NoDup_nil_2].
  - apply NoDup_nil_2.
  - by intros a ?%elem_of_nil.
  - split.
    + intros [[[] p] k]; cbn [blocks mem live].
      * intros [Hk [-> ->]%Honly]; [|done]. split; [done|]. split; [done|].
        rewrite psz_max. split; [lia|]. apply Z.divide_0_r.
      * by intros [?%elem_of_nil _].
      * done.
    + intros [[[] p1] k1] [[[] p2] k2] x; cbn [blocks mem live]; try done;
        try (by intros [?%elem_of_nil _]); try (by intros _ [?%elem_of_nil _]).
      intros [Hk1 [-> ->]%Honly] [Hk2 [-> ->]%Honly]; done.
    + intros x Hx. exists (Free, 0, MAX_ORDER). cbn [blocks mem covers]. rewrite psz_max.
      split; [|lia]. split; [done|]. rewrite Hfl by done. rewrite bool_decide_true by done.
      apply list_elem_of_here.
  - intros k p Hk. rewrite Hfl by lia. rewrite bool_decide_false by lia. by intros ?%elem_of_nil.
Qed.

Lemma splitMemory_unfold (fuel : nat) (st : state) (H o T : Z) :
  wf st → 0 ≤ H < n_pages → MIN_ORDER ≤ T < o → o ≤ MAX_ORDER →
  Root.splitMemory fuel st H o T =
    match fuel with
    | O => Fuel
    | S fuel' =>
        Root.splitMemory fuel'
          (set_area (o - 1) (buddy_page H (o - 1) :: fl st (o - 1))
                    (stamp (buddy_page H (o - 1)) (o - 1) st)) H (o - 1) T
    end.
Proof.
  intros Hwf HH HT Ho.
  assert (MIN_ORDER ≤ o - 1 < MAX_ORDER) as Ho1 by lia.
  pose proof (buddy_page_range H (o - 1) HH Ho1) as Hb.
  destruct fuel; cbn [Root.splitMemory]; rewrite bool_decide_false by lia;
    rewrite page_at_wf by done; rewrite bind_Ret; cbn [address];
    rewrite BUDDY_ADDR_page by done; rewrite bind_Ret;
    rewrite ADDR_TO_PAGE_page by done; rewrite bind_Ret;
    rewrite set_order_wf by done; rewrite bind_Ret;
    (rewrite list_add_wf by (by apply wf_stamp || lia)); rewrite bind_Ret; done.
Qed.

Lemma splitMemory_inv (fuel : nat) (L : list ptr) (st : state) (H o T : Z) (st' : state) :
  inv (Some (H, o)) {| mem := st; live := L |} → MIN_ORDER ≤ T ≤ o →
  Root.splitMemory fuel st H o T = Ret st' →
  inv (Some (H, T)) {| mem := st'; live := L |}.
Proof.
  revert st o. induction fuel as [|fuel IH]; intros st o Hinv HT Hrun.
  - destruct (decide (o = T)) as [->|Hne].
    + cbn in Hrun. rewrite bool_decide_true in Hrun by done. by injection Hrun as <-.
    + pose proof (float_valid _ _ _ Hinv) as Hv. pose proof Hv as (Hk & _).
      rewrite splitMemory_unfold in Hrun;
        [done|apply (inv_wf _ _ Hinv)|by apply (valid_range _ _ _ Hv)|lia|lia].
  - destruct (decide (o = T)) as [->|Hne].
    + cbn in Hrun. rewrite bool_decide_true in Hrun by done. by injection Hrun as <-.
    + pose proof (float_valid _ _ _ Hinv) as Hv. pose proof Hv as (Hk & _).
      rewrite splitMemory_unfold in Hrun;
        [|apply (inv_wf _ _ Hinv)|by apply (valid_range _ _ _ Hv)|lia|lia].
      eapply (IH _ (o - 1)); [|lia|exact Hrun].
      apply (inv_split {| mem := st; live := L |} H o); [done|lia].
Qed.

Lemma coalesce_inv st H k st' H' k' (L : list ptr) :
  coalesce st H k st' H' k' →
  inv (Some (H, k)) {| mem := st; live := L |} →
  inv (Some (H', k')) {| mem := st'; live := L |} ∧
  (k' < MAX_ORDER → buddy_page H' k' ∉ fl st' k').
Proof.
  induction 1 as [st H k Hk|st H k Hk Hb|st H k st' H' k' Hk Hb Hc IH]; intros Hinv.
  - split; [done|lia].
  - split; done.
  - apply IH. by apply (inv_merge {| mem := st; live := L |} H k).
Qed.

(** ** The invariant along the calls *)

Lemma alloc_inv (s : sys) (size : Z) (st' : state) (a : ptr) :
  inv None s → Root.buddy_alloc (mem s) size = Ret (st', a) →
  inv None {| mem := st'; live := match a with NULL => live s | _ => a :: live s end |}.
Proof.
  intros Hinv Hrun.
  destruct (buddy_alloc_cases (mem s) size (inv_wf _ _ Hinv))
    as [[Hnull _]|(k & H & rest & st1 & HT & Hk & Hfl & _ & Hrun' & Hpost)].
  - rewrite Hnull in Hrun. injection Hrun as <- <-. by destruct s.
  - rewrite Hrun' in Hrun. injection Hrun as <- <-. cbn [PAGE_TO_ADDR].
    destruct Hpost as (_ & _ & _ & _ & _ & st2 & Hsplit & ->).
    apply (inv_to_live {| mem := st2; live := live s |}).
    apply (splitMemory_inv depth (live s) (set_area k rest (mem s)) H k); [|lia|done].
    assert (rest = unlink H (fl (mem s) k)) as ->.
    { rewrite Hfl. cbn. by rewrite bool_decide_true. }
    apply inv_detach; [done|lia|]. rewrite Hfl. apply list_elem_of_here.
Qed.

Lemma live_block (s : sys) (a : ptr) :
  inv None s → a ∈ live s →
  ∃ p, a = PAGE_TO_ADDR p ∧ 0 ≤ p < n_pages ∧ MIN_ORDER ≤ ord (mem s) p ≤ MAX_ORDER.
Proof.
  intros Hinv Ha. destruct (inv_live_page _ _ Hinv a Ha) as (p & -> & Hp).
  exists p. split; [done|]. split; [done|].
  assert (blocks None s (Live, p, ord (mem s) p)) as Hb by done.
  by apply (t_valid _ (inv_tiling _ _ Hinv)) in Hb as (? & _).
Qed.

Lemma free_inv (s : sys) (a : ptr) :
  inv None s → a ∈ live s →
  ∃ st', Root.buddy_free (mem s) a = Ret st' ∧
         inv None {| mem := st'; live := forget a (live s) |}.
Proof.
  intros Hinv Ha. destruct (live_block s a Hinv Ha) as (p & -> & Hp & Ho).
  destruct (buddy_free_spec (mem s) p (inv_wf _ _ Hinv) Hp Ho)
    as (st1 & H & k & Hco & _ & _ & _ & Hrun).
  eexists. split; [done|].
  apply (coalesce_inv _ _ _ _ _ _ (forget (PAGE_TO_ADDR p) (live s))) in Hco as [Hinv1 Hnb].
  - by apply (inv_attach {| mem := st1; live := _ |} H k).
  - by apply (inv_from_live s p).
Qed.

Lemma reachable_inv (c : copy) (s : sys) : reachable c s → inv None s.
Proof.
  induction 1 as [st0 st Hshape Hrun|s size st a Hreach IH Hrun|s a st Hreach IH Ha Hrun].
  - rewrite copy_buddy_init in Hrun.
    destruct (buddy_init_spec st0 Hshape) as (st1 & Hrun1 & Hpost & _).
    rewrite Hrun1 in Hrun. injection Hrun as <-. by apply inv_init.
  - rewrite copy_buddy_alloc in Hrun. by apply (alloc_inv s size).
  - destruct (live_block s a IH Ha) as (p & -> & Hp & Ho).
    rewrite copy_buddy_free in Hrun by (done || apply (inv_wf _ _ IH)).
    destruct (free_inv s (PAGE_TO_ADDR p) IH Ha) as (st1 & Hrun1 & Hinv1).
    rewrite Hrun1 in Hrun. by injection Hrun as <-.
Qed.

(** ** No call runs out of budget *)

Lemma nofuel_Ret {A : Type} (a : A) : nofuel (Ret a).
Proof. done. Qed.

Lemma nofuel_Undef {A : Type} : nofuel (@Undef A).
Proof. done. Qed.

Lemma nofuel_Hang {A : Type} fmt arg : nofuel (@Hang A fmt arg).
Proof. done. Qed.

Lemma nofuel_bind {A B : Type} (m : outcome A) (f : A → outcome B) :
  nofuel m → (∀ a, nofuel (f a)) → nofuel (m ≫= f).
Proof. unfold nofuel. destruct m; cbn; auto. Qed.

Lemma nofuel_if {A : Type} (b : bool) (m1 m2 : outcome A) :
  nofuel m1 → nofuel m2 → nofuel (if b then m1 else m2).
Proof. by destruct b. Qed.

Lemma nofuel_page_at st p : nofuel (page_at st p).
Proof. unfold page_at. case_bool_decide; [|done]. by destruct (g_pages st !! Z.to_nat p). Qed.

Lemma nofuel_area st k : nofuel (area st k).
Proof.
  unfold area. case_bool_decide; [|done].
  by destruct (free_area st !! Z.to_nat k) as [[l|]|].
Qed.

Lemma nofuel_ADDR_TO_PAGE addr : nofuel (ADDR_TO_PAGE addr).
Proof. by destruct addr. Qed.

Lemma nofuel_BUDDY_ADDR addr o : nofuel (BUDDY_ADDR addr o).
Proof. destruct addr; [done|]. unfold BUDDY_ADDR, shl1. by case_bool_decide. Qed.

#[local] Hint Resolve nofuel_Ret nofuel_Undef nofuel_Hang nofuel_bind nofuel_if
  nofuel_page_at nofuel_area nofuel_ADDR_TO_PAGE nofuel_BUDDY_ADDR : nofuel.

Lemma nofuel_set_order p v st : nofuel (set_order p v st).
Proof. unfold set_order. auto with nofuel. Qed.

Lemma nofuel_list_add new k st : nofuel (list_add new k st).
Proof. unfold list_add. auto with nofuel. Qed.

Lemma nofuel_list_del_init entry k st : nofuel (list_del_init entry k st).
Proof. unfold list_del_init. auto with nofuel. Qed.

#[local] Hint Resolve nofuel_set_order nofuel_list_add nofuel_list_del_init : nofuel.

Lemma BUDDY_ADDR_negative addr o : o < 0 → BUDDY_ADDR addr o = Undef.
Proof.
  intros Ho. destruct addr; [done|]. unfold BUDDY_ADDR, shl1.
  by rewrite bool_decide_false by lia.
Qed.

Lemma splitMemory_total (fuel : nat) (st : state) (page o T : Z) :
  T ≤ o → o - T ≤ Z.of_nat fuel → nofuel (Root.splitMemory fuel st page o T).
Proof.
  revert st o. induction fuel as [|fuel IH]; intros st o HT Hfuel.
  - assert (o = T) as -> by lia. cbn. by rewrite bool_decide_true.
  - cbn [Root.splitMemory]. case_bool_decide; [done|].
    repeat (apply nofuel_bind; [auto with nofuel|intros ?]).
    apply IH; lia.
Qed.

Lemma alloc_scan_total (orders : list Z) (st : state) (T : Z) :
  0 ≤ T → (∀ i, i ∈ orders → T ≤ i ≤ MAX_ORDER) → nofuel (Root.alloc_scan orders st T).
Proof.
  intros HT. revert st. induction orders as [|i orders IH]; intros st Hin; [done|].
  cbn [Root.alloc_scan]. apply nofuel_bind; [auto with nofuel|]. intros [|page l].
  - apply IH. intros j Hj. apply Hin. by apply list_elem_of_further.
  - apply nofuel_bind; [auto with nofuel|]. intros st1.
    apply nofuel_bind; [|auto 10 with nofuel].
    pose proof (Hin i (list_elem_of_here _ _)). apply splitMemory_total; [lia|].
    rewrite depth_val. lia.
Qed.

Lemma free_loop_total (fuel : nat) (st : state) (page i : Z) :
  i < 0 ∨ MAX_ORDER - i ≤ Z.of_nat fuel → nofuel (Root.free_loop fuel st page i).
Proof.
  revert st page i. induction fuel as [|fuel IH]; intros st page i Hi.
  - cbn [Root.free_loop]. case_bool_decide as Hlt; [|done].
    assert (i < 0) as Hneg by lia.
    apply nofuel_bind; [auto with nofuel|]. intros pg.
    by rewrite BUDDY_ADDR_negative.
  - cbn [Root.free_loop]. case_bool_decide as Hlt; [|done].
    apply nofuel_bind; [auto with nofuel|]. intros pg.
    destruct (decide (i < 0)) as [Hneg|Hpos]; [by rewrite BUDDY_ADDR_negative|].
    repeat (apply nofuel_bind; [auto with nofuel|intros ?]).
    apply nofuel_if; [done|].
    apply nofuel_bind; [auto with nofuel|]. intros st1. apply IH. lia.
Qed.

Lemma buddy_alloc_total (c : copy) (st : state) (size : Z) :
  nofuel (buddy_alloc_of c st size).
Proof.
  rewrite copy_buddy_alloc. unfold Root.buddy_alloc. case_bool_decide as Hm; [done|].
  destruct (determineOrder_range size) as [?|HT]; [done|].
  apply alloc_scan_total; [unfold MIN_ORDER in *; lia|].
  intros i Hi%elem_of_seqZ. lia.
Qed.

Lemma buddy_free_total (c : copy) (st : state) (addr : ptr) :
  nofuel (buddy_free_of c st addr).
Proof.
  assert (∀ p k, nofuel (Root.free_loop depth st p k ≫=
            λ '(st, page, i), set_order page i st ≫= λ st0, list_add page i st0)) as Hloop.
  { intros p k. apply nofuel_bind.
    - apply free_loop_total. rewrite depth_val. lia.
    - intros [[st1 page] i]. auto with nofuel. }
  destruct c; cbn [buddy_free_of].
  - unfold Root.buddy_free. apply nofuel_bind; [auto with nofuel|]. intros p.
    apply nofuel_bind; [auto with nofuel|]. intros pg. apply nofuel_if; [done|]. apply Hloop.
  - unfold Sub.buddy_free. apply nofuel_bind; [auto with nofuel|]. intros p.
    apply nofuel_bind; [auto with nofuel|]. intros pg. apply Hloop.
Qed.

(** ** Concrete states for the examples *)

Lemma after_alloc1_run : Root.buddy_alloc init0 1 = Ret (after_alloc1, Mem 0).
Proof. vm_compute. reflexivity. Qed.

Lemma init0_reachable (c : copy) : reachable c {| mem := init0; live := [] |}.
Proof.
  apply (reach_init c boot init0); [apply boot_shape|].
  rewrite copy_buddy_init. apply init0_run.
Qed.

Lemma after_alloc1_reachable (c : copy) : reachable c {| mem := after_alloc1; live := [Mem 0] |}.
Proof.
  apply (reach_alloc c {| mem := init0; live := [] |} 1 after_alloc1 (Mem 0));
    [apply init0_reachable|].
  rewrite copy_buddy_alloc. apply after_alloc1_run.
Qed.

Lemma after_alloc1_wf : wf after_alloc1.
Proof. apply (inv_wf None _ (reachable_inv root _ (after_alloc1_reachable root))). Qed.

Lemma after_alloc2_run (c : copy) :
  buddy_alloc_of c after_alloc1 1 = Ret (after_alloc2, Mem 4096).
Proof. destruct c; vm_compute; reflexivity. Qed.

Lemma after_free_first_run (c : copy) :
  buddy_free_of c after_alloc2 (Mem 0) = Ret after_free_first.
Proof. destruct c; vm_compute; reflexivity. Qed.

Lemma after_free_both_run (c : copy) :
  buddy_free_of c after_free_first (Mem 4096) = Ret after_free_both.
Proof. destruct c; vm_compute; reflexivity. Qed.

(** Two pages are taken and given back in the order they were taken, so
    that the first free finds its buddy out and the second one merges all
    the way up. *)
Lemma after_free_both_reachable (c : copy) :
  reachable c {| mem := after_free_both; live := [] |}.
Proof.
  pose proof (reach_alloc c _ 1 after_alloc2 (Mem 4096)
                (after_alloc1_reachable c) (after_alloc2_run c)) as H2.
  pose proof (reach_free c _ (Mem 0) after_free_first H2
                (list_elem_of_further _ _ _ (list_elem_of_here _ _))
                (after_free_first_run c)) as H3.
  exact (reach_free c _ (Mem 4096) after_free_both H3 (list_elem_of_here _ _)
           (after_free_both_run c)).
Qed.

(** ** The statements of the specification *)

(** C6: for every [size], [determineOrder] returns the smallest order [k] of
    [MIN_ORDER .. MAX_ORDER] with [2^k >= size]; it returns [-1] exactly when
    [size > 2^MAX_ORDER]; and size 0 is mapped to [MIN_ORDER].  Both copies. *)
Theorem determineOrder_smallest_fit (c : copy) (size : Z) :
  let k := determineOrder_of c size in
  (size ≤ 2 ^ MAX_ORDER →
     MIN_ORDER ≤ k ≤ MAX_ORDER ∧ size ≤ 2 ^ k ∧ ∀ j, MIN_ORDER ≤ j < k → 2 ^ j < size) ∧
  (k = -1 ↔ 2 ^ MAX_ORDER < size) ∧
  determineOrder_of c 0 = MIN_ORDER.
Proof.
  cbn zeta. rewrite !copy_determineOrder.
  split; [|split; [|reflexivity]].
  - intros Hsize.
    destruct (determineOrder_cases size) as [[Hs ->]|[(k & Hk & Hs & ->)|[Hs _]]]; [| |lia].
    + split; [unfold MIN_ORDER, MAX_ORDER; lia|]. split; [done|]. intros j Hj. lia.
    + split; [lia|]. split; [lia|]. intros j Hj.
      assert (2 ^ j ≤ 2 ^ (k - 1)) by (apply Z.pow_le_mono_r; unfold MIN_ORDER in *; lia). lia.
  - destruct (determineOrder_cases size) as [[Hs ->]|[(k & Hk & Hs & ->)|[Hs ->]]].
    + unfold MIN_ORDER, MAX_ORDER in *. split; [lia|]. intros Hbig.
      assert (2 ^ 12 < 2 ^ 20) by done. lia.
    + split; [unfold MIN_ORDER in *; lia|]. intros Hbig.
      assert (2 ^ k ≤ 2 ^ MAX_ORDER) by (apply Z.pow_le_mono_r; unfold MIN_ORDER in *; lia). lia.
    + done.
Qed.

(** C8: after [buddy_init], from whatever the arrays held before, descriptor
    [p] has index [p] and address [g_memory + p * 2^MIN_ORDER], descriptor 0
    has order [MAX_ORDER] (the others [-1]), [free_area[MAX_ORDER]] holds
    page 0 alone and every list of a lower order is empty.  Both copies. *)
Theorem buddy_init_resets (c : copy) (st0 : state) :
  shape st0 →
  ∃ st, buddy_init_of c st0 = Ret st ∧ shape st ∧
    (∀ p, 0 ≤ p < n_pages →
       page_at st p = Ret {| index := p; address := Mem (p * 2 ^ MIN_ORDER);
                             order := if bool_decide (p = 0) then MAX_ORDER else -1 |}) ∧
    area st MAX_ORDER = Ret [0] ∧
    (∀ k, MIN_ORDER ≤ k < MAX_ORDER → area st k = Ret []).
Proof.
  intros Hshape. rewrite copy_buddy_init.
  destruct (buddy_init_spec st0 Hshape) as (st & Hrun & (Hpg & Hmax & Hrest) & Hsh).
  exists st. split; [done|]. split; [done|]. split; [|split].
  - intros p Hp. unfold page_at. rewrite bool_decide_true by done. by rewrite Hpg.
  - unfold area. rewrite bool_decide_true by done. by rewrite Hmax.
  - intros k Hk. unfold area. rewrite bool_decide_true by (unfold MIN_ORDER in *; lia).
    by rewrite Hrest.
Qed.

Lemma buddy_init_resets_witness :
  ∃ st, buddy_init_of sub boot = Ret st ∧ area st MAX_ORDER = Ret [0].
Proof.
  destruct (buddy_init_resets sub boot boot_shape) as (st & Hrun & _ & _ & Hmax & _).
  exists st. split; [exact Hrun|exact Hmax].
Defined.

(** C7: [buddy_alloc] returns null for every size above [2^MAX_ORDER], in
    any state; and on an initialised state, whenever it returns null (the
    request too large, or every list from the needed order up empty) the
    globals are what they were.  Both copies. *)
Theorem buddy_alloc_null_atomic (c : copy) (st : state) (size : Z) :
  (2 ^ MAX_ORDER < size → buddy_alloc_of c st size = Ret (st, NULL)) ∧
  (wf st → ∀ st', buddy_alloc_of c st size = Ret (st', NULL) →
     st' = st ∧
     (2 ^ MAX_ORDER < size ∨
      ∀ j, determineOrder_of c size ≤ j ≤ MAX_ORDER → fl st j = [])).
Proof.
  rewrite copy_buddy_alloc, copy_determineOrder. split.
  - intros Hbig. unfold Root.buddy_alloc.
    destruct (determineOrder_cases size) as [[Hs _]|[(k & Hk & Hs & _)|[_ ->]]].
    + assert (2 ^ MIN_ORDER < 2 ^ MAX_ORDER) by done. lia.
    + assert (2 ^ k ≤ 2 ^ MAX_ORDER) by (apply Z.pow_le_mono_r; unfold MIN_ORDER in *; lia). lia.
    + by rewrite bool_decide_true.
  - intros Hwf st' Hrun.
    destruct (buddy_alloc_cases st size Hwf)
      as [[Hnull Hwhy]|(k & H & rest & st1 & _ & _ & _ & _ & Hrun' & _)].
    + rewrite Hnull in Hrun. injection Hrun as <-. split; [done|].
      destruct Hwhy as [Hm|Hall]; [|by right]. left.
      destruct (determineOrder_cases size) as [[_ Heq]|[(k & Hk & _ & Heq)|[Hs _]]];
        [rewrite Heq in Hm; done|rewrite Heq in Hm; unfold MIN_ORDER in *; lia|done].
    + rewrite Hrun' in Hrun. discriminate Hrun.
Qed.

Lemma buddy_alloc_null_atomic_witness :
  buddy_alloc_of root init0 (2 ^ MAX_ORDER + 1) = Ret (init0, NULL) ∧
  ∀ st', buddy_alloc_of root init0 (2 ^ MAX_ORDER + 1) = Ret (st', NULL) → st' = init0.
Proof.
  destruct (buddy_alloc_null_atomic root init0 (2 ^ MAX_ORDER + 1)) as [Hbig Hnull].
  split.
  - apply Hbig. vm_compute. reflexivity.
  - intros st' Hrun. apply (Hnull init0_wf st' Hrun).
Defined.

Lemma buddy_addr_xor p j :
  MIN_ORDER ≤ j → PAGE_TO_ADDR (buddy_page p j) = Mem (Z.lxor (p * PAGE_SIZE) (2 ^ j)).
Proof.
  intros Hj. unfold PAGE_TO_ADDR, buddy_page, PAGE_SIZE, MIN_ORDER in *. f_equal.
  rewrite !shiftl_1 by lia. rewrite <- !Z.shiftl_mul_pow2 by lia.
  rewrite Z.shiftl_lxor. f_equal.
  rewrite Z.shiftl_mul_pow2, <- Z.pow_add_r by lia. f_equal. lia.
Qed.

Lemma psz_divide_le j k : MIN_ORDER ≤ j ≤ k → (psz j | psz k).
Proof.
  intros Hjk. unfold psz. exists (2 ^ (k - j)).
  rewrite <- Z.pow_add_r by lia. f_equal. lia.
Qed.

(** C1: when the request has an order [T] (its size is at most
    [2^MAX_ORDER]) and some list [free_area[k0]] with [T <= k0 <= MAX_ORDER]
    is nonempty, [buddy_alloc] serves the first nonempty list [free_area[k]]
    from [T] up: it takes its head [H] off that list, leaves on every list
    [T <= j < k] the right half split off at order [j], stamps [H] with
    order [T] and returns the address [H] had before.  Both copies. *)
Theorem buddy_alloc_serves_head (c : copy) (st : state) (size k0 : Z) :
  wf st → size ≤ 2 ^ MAX_ORDER →
  let T := determineOrder_of c size in
  T ≤ k0 ≤ MAX_ORDER → fl st k0 ≠ [] →
  ∃ k H rest st',
    T ≤ k ≤ k0 ∧ fl st k = H :: rest ∧ (∀ j, T ≤ j < k → fl st j = []) ∧
    buddy_alloc_of c st size = Ret (st', PAGE_TO_ADDR H) ∧
    page_at st H = Ret {| index := H; address := PAGE_TO_ADDR H; order := ord st H |} ∧
    fl st' k = rest ∧
    (∀ j, T ≤ j < k → fl st' j = [buddy_page H j] ∧ ord st' (buddy_page H j) = j) ∧
    (∀ j, MIN_ORDER ≤ j ≤ MAX_ORDER → ¬ T ≤ j ≤ k → fl st' j = fl st j) ∧
    ord st' H = T ∧
    (∀ q, 0 ≤ q < n_pages → q ≠ H → (∀ j, T ≤ j < k → q ≠ buddy_page H j) →
       ord st' q = ord st q).
Proof.
  intros Hwf Hsize. cbn zeta. rewrite copy_buddy_alloc, copy_determineOrder.
  intros Hk0 Hne.
  assert (MIN_ORDER ≤ Root.determineOrder size) as HTmin.
  { destruct (determineOrder_cases size) as [[_ ->]|[(k1 & Hk1 & _ & ->)|[? _]]]; lia. }
  destruct (buddy_alloc_cases st size Hwf)
    as [[_ [Hm|Hall]]|(k & H & rest & st' & HT & Hk & Hfl & Hlow & Hrun & Hpost)].
  - unfold MIN_ORDER in *. lia.
  - by rewrite Hall in Hne.
  - assert (k ≤ k0) as Hkk0.
    { destruct (decide (k ≤ k0)) as [|Hgt]; [done|]. rewrite Hlow in Hne by lia. done. }
    assert (0 ≤ H < n_pages) as HH.
    { apply (wf_members _ Hwf k); [lia|]. rewrite Hfl. apply list_elem_of_here. }
    destruct Hpost as (_ & Hfls & HordH & Hordb & Hordo & _).
    exists k, H, rest, st'. split; [lia|]. split; [done|]. split; [done|].
    split; [done|]. split; [by apply page_at_wf|]. split; [|split; [|split]].
    + rewrite Hfls by lia. by rewrite bool_decide_true.
    + intros j Hj. split; [|by apply Hordb]. rewrite Hfls by lia.
      rewrite bool_decide_false by lia. rewrite bool_decide_true by done.
      by rewrite Hlow.
    + intros j Hj Hout. rewrite Hfls by done.
      rewrite !bool_decide_false by lia. done.
    + done.
Qed.

Lemma buddy_alloc_serves_head_witness :
  ∃ k H rest st',
    fl init0 k = H :: rest ∧ buddy_alloc_of sub init0 1 = Ret (st', PAGE_TO_ADDR H) ∧
    ord st' H = 12.
Proof.
  destruct (buddy_alloc_serves_head sub init0 1 20 init0_wf) as
    (k & H & rest & st' & _ & Hfl & _ & Hrun & _ & _ & _ & _ & Ho & _).
  - vm_compute. discriminate.
  - vm_compute. split; discriminate.
  - vm_compute. discriminate.
  - exists k, H, rest, st'. split; [exact Hfl|]. split; [exact Hrun|exact Ho].
Defined.

(** C3: splitting the block at [page] from order [O] down to [T <= O] leaves
    the descriptor of [page], and so its address, as it was, and for every
    order [k] with [T < k <= O] puts the block at address
    [page->address XOR 2^(k-1)] first on [free_area[k-1]] and stamps its
    descriptor with [k-1]; nothing else is put on a list or stamped, and for
    an aligned block these are the right halves.  Both copies. *)
Theorem splitMemory_right_halves (c : copy) (fuel : nat) (st : state) (page O T : Z) :
  wf st → 0 ≤ page < n_pages → MIN_ORDER ≤ T ≤ O → O ≤ MAX_ORDER →
  O - T ≤ Z.of_nat fuel →
  ∃ st',
    splitMemory_of c fuel st page O T = Ret st' ∧
    page_at st' page = page_at st page ∧
    (∀ k, T < k ≤ O →
       let buddy := buddy_page page (k - 1) in
       PAGE_TO_ADDR buddy = Mem (Z.lxor (page * PAGE_SIZE) (2 ^ (k - 1))) ∧
       fl st' (k - 1) = buddy :: fl st (k - 1) ∧
       ord st' buddy = k - 1) ∧
    (∀ j, MIN_ORDER ≤ j ≤ MAX_ORDER → ¬ T ≤ j < O → fl st' j = fl st j) ∧
    (∀ q, 0 ≤ q < n_pages → (∀ k, T < k ≤ O → q ≠ buddy_page page (k - 1)) →
       ord st' q = ord st q) ∧
    ((psz O | page) → ∀ k, T < k ≤ O → buddy_page page (k - 1) = page + psz (k - 1)).
Proof.
  intros Hwf Hpage HT HO Hfuel. rewrite copy_splitMemory.
  destruct (splitMemory_spec fuel st page O T) as (st' & Hrun & Hwf' & Hfl & Hob & Hoo);
    [done..|].
  assert (ord st' page = ord st page) as Hsame.
  { apply Hoo; [done|]. intros j Hj Heq. symmetry in Heq. revert Heq. apply buddy_page_ne. lia. }
  exists st'. split; [done|]. split; [|split; [|split; [|split]]].
  - rewrite !page_at_wf by done. by rewrite Hsame.
  - intros k Hk buddy. split; [apply buddy_addr_xor; lia|]. split.
    + rewrite Hfl by lia. by rewrite bool_decide_true by lia.
    + apply Hob. lia.
  - intros j Hj Hout. rewrite Hfl by done. by rewrite bool_decide_false.
  - intros q Hq Hne. apply Hoo; [done|]. intros j Hj.
    replace j with (j + 1 - 1) by lia. apply Hne. lia.
  - intros Hal k Hk. apply buddy_page_right; [lia|].
    replace (k - 1 + 1) with k by lia.
    destruct (psz_divide_le k O) as [d Hd]; [lia|]. destruct Hal as [e He].
    exists (e * d). lia.
Qed.

Lemma splitMemory_right_halves_witness :
  ∃ st', splitMemory_of root depth (set_area 20 [] init0) 0 20 12 = Ret st' ∧
         fl st' 19 = [128] ∧ ord st' 128 = 19.
Proof.
  destruct (splitMemory_right_halves root depth (set_area 20 [] init0) 0 20 12)
    as (st' & Hrun & _ & Hb & _).
  - apply wf_set_area; [exact init0_wf|vm_compute; split; discriminate|].
    intros p Hp. apply elem_of_nil in Hp. destruct Hp.
  - vm_compute. split; [discriminate|reflexivity].
  - vm_compute. split; discriminate.
  - vm_compute. discriminate.
  - vm_compute. discriminate.
  - exists st'. split; [exact Hrun|].
    destruct (Hb 20) as (_ & Hfl & Ho); [vm_compute; split; [reflexivity|discriminate]|].
    split; [exact Hfl|exact Ho].
Defined.

(** ** The loop of the code against the loop of the specification *)

(** What [list_del_init] does to a list that holds the entry is the removal
    of the specification. *)
Lemma removed_unlink (b : Z) (l : list Z) : b ∈ l → removed b l (unlink b l).
Proof.
  induction l as [|x l IH]; [by intros ?%elem_of_nil|]. intros Hin. cbn [unlink].
  destruct (decide (x = b)) as [->|Hne].
  - rewrite bool_decide_true by done. apply (removed_intro b [] l). apply not_elem_of_nil.
  - rewrite bool_decide_false by done.
    apply elem_of_cons in Hin as [->|Hin]; [done|].
    destruct (IH Hin) as [l1 l2 Hl1].
    apply (removed_intro b (x :: l1) l2). apply not_elem_of_cons. split; [congruence|done].
Qed.

(** The removal takes the entry out and nothing else: the other entries
    stay, and on a list without repetition the entry is gone. *)
Lemma removed_elem_of (b x : Z) (l l' : list Z) :
  removed b l l' → x ≠ b → x ∈ l' ↔ x ∈ l.
Proof.
  intros [l1 l2 _] Hne. rewrite !elem_of_app, elem_of_cons. intuition.
Qed.

Lemma removed_gone (b : Z) (l l' : list Z) : removed b l l' → NoDup l → b ∉ l'.
Proof.
  intros [l1 l2 Hl1] Hnd. apply NoDup_app in Hnd as (_ & _ & Hnd2).
  apply NoDup_cons in Hnd2 as [Hl2 _]. rewrite elem_of_app. intuition.
Qed.

Lemma removed_length (b : Z) (l l' : list Z) : removed b l l' → length l = S (length l').
Proof. intros [l1 l2 _]. rewrite !length_app. cbn. lia. Qed.

Lemma coalesce_spec st H k st' H' k' :
  coalesce st H k st' H' k' → spec_coalesce st H k st' H' k'.
Proof.
  induction 1 as [st H k Hk|st H k Hk Hb|st H k st' H' k' Hk Hb Hc IH].
  - by apply spec_coalesce_top.
  - by apply spec_coalesce_stop.
  - apply (spec_coalesce_merge st H k (unlink (buddy_page H k) (fl st k))); try done.
    by apply removed_unlink.
Qed.

(** C2: [buddy_free] on the address of page [p] whose stored order [k] lies
    in [MIN_ORDER .. MAX_ORDER] runs the coalescing loop of the specification
    from [(p, k)]: at [MAX_ORDER] it looks nothing up; below it, a buddy
    absent from [free_area[k]] stops the loop, and a buddy found there is
    removed from that list (the list loses that entry and keeps the others
    in place), the lower of the two pages becomes the head and [k] goes up
    by one.  The head at exit gets the final order and is put first on the
    list of that order.  With the stored order [MAX_ORDER] the state is the
    one at entry with [p] stamped and put first on [free_area[MAX_ORDER]].
    Both copies. *)
Theorem buddy_free_coalesces (c : copy) (st : state) (p : Z) :
  wf st → 0 ≤ p < n_pages → MIN_ORDER ≤ ord st p ≤ MAX_ORDER →
  ∃ st1 H k st',
    spec_coalesce st p (ord st p) st1 H k ∧
    buddy_free_of c st (PAGE_TO_ADDR p) = Ret st' ∧
    st' = set_area k (H :: fl st1 k) (stamp H k st1) ∧
    ord st' H = k ∧
    fl st' k = H :: fl st1 k ∧
    (∀ j, MIN_ORDER ≤ j ≤ MAX_ORDER → j ≠ k → fl st' j = fl st1 j) ∧
    (ord st p = MAX_ORDER → st1 = st ∧ H = p ∧ k = MAX_ORDER).
Proof.
  intros Hwf Hp Ho. rewrite copy_buddy_free by done.
  destruct (buddy_free_spec st p Hwf Hp Ho) as (st1 & H & k & Hco & Hwf1 & HH & Hk & Hrun).
  exists st1, H, k, (set_area k (H :: fl st1 k) (stamp H k st1)).
  split; [by apply coalesce_spec|]. split; [done|]. split; [done|].
  pose proof (wf_stamp st1 H k Hwf1 HH) as Hwf2.
  split; [|split; [|split]].
  - rewrite ord_set_area, ord_stamp by (done || lia). by rewrite bool_decide_true.
  - rewrite fl_set_area by (done || lia || unfold MIN_ORDER in *; lia).
    by rewrite bool_decide_true.
  - intros j Hj Hne. rewrite fl_set_area by (done || lia || unfold MIN_ORDER in *; lia).
    by rewrite bool_decide_false.
  - intros Hmax. rewrite Hmax in Hco. inversion Hco; subst; try lia. done.
Qed.

Lemma buddy_free_coalesces_witness :
  ∃ st', buddy_free_of sub after_alloc1 (PAGE_TO_ADDR 0) = Ret st'.
Proof.
  destruct (buddy_free_coalesces sub after_alloc1 0 after_alloc1_wf)
    as (st1 & H & k & st' & _ & Hrun & _).
  - vm_compute. split; [discriminate|reflexivity].
  - vm_compute. split; discriminate.
  - exists st'. exact Hrun.
Defined.

(** ** Freeing what was just allocated *)

(** From a state whose lists [i <= j < k] each hold the right half split off
    [H] at order [j], and whose list [k] does not hold the buddy of [H], the
    coalescing loop started at [(H, i)] empties those lists and stops at
    [(H, k)]. *)
Lemma coalesce_back (n : nat) (st : state) (H i k : Z) :
  wf st → MIN_ORDER ≤ i → i + Z.of_nat n = k → k ≤ MAX_ORDER →
  (psz k | H) →
  (∀ j, i ≤ j < k → fl st j = [buddy_page H j]) →
  (k < MAX_ORDER → buddy_page H k ∉ fl st k) →
  ∃ st1, coalesce st H i st1 H k ∧
         (∀ j, MIN_ORDER ≤ j ≤ MAX_ORDER →
            fl st1 j = if bool_decide (i ≤ j < k) then [] else fl st j).
Proof.
  revert st i. induction n as [|n IH]; intros st i Hwf Hi Hn Hk Hal Hfl Hnb.
  - assert (i = k) as -> by lia. exists st. split.
    + destruct (decide (k < MAX_ORDER)); [apply coalesce_stop|apply coalesce_top]; auto.
    + intros j Hj. by rewrite bool_decide_false by lia.
  - assert (buddy_page H i = H + psz i) as Hb.
    { apply buddy_page_right; [done|].
      destruct (psz_divide_le (i + 1) k) as [d Hd]; [lia|]. destruct Hal as [e He].
      exists (e * d). lia. }
    pose proof (psz_pos i Hi) as Hpos.
    set (st0 := set_area i (unlink (buddy_page H i) (fl st i)) st).
    assert (∀ j, MIN_ORDER ≤ j ≤ MAX_ORDER →
              fl st0 j = if bool_decide (j = i) then [] else fl st j) as Hfl0.
    { intros j Hj. unfold st0. rewrite fl_set_area by (done || lia || unfold MIN_ORDER in *; lia).
      rewrite (Hfl i) by lia. cbn [unlink].
      by rewrite (bool_decide_true (buddy_page H i = buddy_page H i)). }
    destruct (IH st0 (i + 1)) as (st1 & Hco & Hfl1); [|lia|lia|done|done| | |].
    + apply wf_set_area; [done|lia|]. intros q Hq%elem_of_unlink_1.
      apply (wf_members _ Hwf i); [lia|done].
    + intros j Hj. rewrite Hfl0 by lia. rewrite bool_decide_false by lia. apply Hfl. lia.
    + intros Hlt. rewrite Hfl0 by lia. rewrite bool_decide_false by lia. by apply Hnb.
    + exists st1. split.
      * apply coalesce_merge; [lia| |].
        -- rewrite (Hfl i) by lia. apply list_elem_of_here.
        -- rewrite Hb at 2. rewrite Z.min_l by lia. done.
      * intros j Hj. rewrite Hfl1, Hfl0 by done.
        destruct (decide (j = i)) as [->|Hne].
        -- rewrite bool_decide_false by lia. rewrite !bool_decide_true by lia. done.
        -- rewrite (bool_decide_false (j = i)) by done.
           apply (f_equal (λ c : bool, if c then _ else _)). apply bool_decide_ext. lia.
Qed.

Lemma free_after_alloc (s : sys) (size : Z) (st' : state) (a : ptr) :
  inv None s → Root.buddy_alloc (mem s) size = Ret (st', a) → a ≠ NULL →
  ∃ p st'', a = PAGE_TO_ADDR p ∧ 0 ≤ p < n_pages ∧
    MIN_ORDER ≤ ord st' p ≤ MAX_ORDER ∧ wf st' ∧
    Root.buddy_free st' a = Ret st'' ∧
    ∀ k, MIN_ORDER ≤ k ≤ MAX_ORDER → fl st'' k = fl (mem s) k.
Proof.
  intros Hinv Hrun Hnn. pose proof (inv_wf _ _ Hinv) as Hwf.
  destruct (buddy_alloc_cases (mem s) size Hwf)
    as [[Hnull _]|(k & H & rest & st1 & HT & Hk & Hfl & Hlow & Hrun' & Hpost)].
  { rewrite Hnull in Hrun. by injection Hrun as <- <-. }
  rewrite Hrun' in Hrun. injection Hrun as <- <-.
  destruct Hpost as (Hwf1 & Hfls & HordH & _).
  set (T := Root.determineOrder size) in *.
  assert (blocks None s (Free, H, k)) as Hblk.
  { split; [lia|]. rewrite Hfl. apply list_elem_of_here. }
  pose proof (t_valid _ (inv_tiling _ _ Hinv) _ Hblk) as Hv.
  pose proof (valid_range _ _ _ Hv) as HH. destruct Hv as (_ & _ & _ & Hal).
  assert (MIN_ORDER ≤ ord st1 H ≤ MAX_ORDER) as Ho by lia.
  destruct (buddy_free_spec st1 H Hwf1 HH Ho) as (st2 & H2 & k2 & Hco & Hwf2 & HH2 & Hk2 & Hfree).
  destruct (coalesce_back (Z.to_nat (k - T)) st1 H T k) as (st3 & Hco3 & Hfl3);
    [done|lia|lia|lia|done| | |].
  { intros j Hj. rewrite Hfls by lia. rewrite bool_decide_false by lia.
    rewrite bool_decide_true by done. by rewrite Hlow. }
  { intros Hlt. rewrite Hfls by lia. rewrite bool_decide_true by done.
    pose proof (inv_eager _ _ Hinv k H) as He. rewrite Hfl in He.
    rewrite not_elem_of_cons in He. apply He; [lia|apply list_elem_of_here]. }
  rewrite HordH in Hco.
  destruct (coalesce_det _ _ _ _ _ _ _ _ _ Hco Hco3) as (-> & -> & ->).
  exists H, (set_area k (H :: fl st3 k) (stamp H k st3)).
  split; [done|]. split; [done|]. split; [done|]. split; [done|]. split; [done|].
  intros j Hj.
  rewrite fl_set_area; [|by apply wf_stamp|lia|unfold MIN_ORDER in *; lia].
  rewrite fl_stamp. case_bool_decide as Hjk.
  - subst j. rewrite Hfl3, Hfls by lia. rewrite bool_decide_false by lia.
    rewrite bool_decide_true by done. done.
  - rewrite Hfl3, Hfls by done. rewrite (bool_decide_false (j = k)) by done.
    case_bool_decide as Hj2; [|done]. by rewrite Hlow.
Qed.

(** C4: in every reachable state, when [buddy_alloc] succeeds, [buddy_free]
    of the returned address returns and leaves on every free list the blocks
    that were there before the allocation.  Both copies. *)
Theorem free_of_alloc_restores (c : copy) (s : sys) (size : Z) (st' : state) (a : ptr) :
  reachable c s → buddy_alloc_of c (mem s) size = Ret (st', a) → a ≠ NULL →
  ∃ st'', buddy_free_of c st' a = Ret st'' ∧
          ∀ k, MIN_ORDER ≤ k ≤ MAX_ORDER → fl st'' k ≡ₚ fl (mem s) k.
Proof.
  intros Hreach Hrun Hnn. rewrite copy_buddy_alloc in Hrun.
  destruct (free_after_alloc s size st' a (reachable_inv c s Hreach) Hrun Hnn)
    as (p & st'' & -> & Hp & Ho & Hwf' & Hfree & Hsame).
  exists st''. split.
  - by rewrite copy_buddy_free.
  - intros k Hk. by rewrite Hsame.
Qed.

Lemma free_of_alloc_restores_witness :
  ∃ st'', buddy_free_of sub after_alloc1 (Mem 0) = Ret st'' ∧ fl st'' MAX_ORDER ≡ₚ [0].
Proof.
  destruct (free_of_alloc_restores sub {| mem := init0; live := [] |} 1 after_alloc1 (Mem 0))
    as (st'' & Hrun & Hperm).
  - exact (init0_reachable sub).
  - vm_compute. reflexivity.
  - discriminate.
  - exists st''. split; [exact Hrun|]. apply (Hperm MAX_ORDER). vm_compute. split; discriminate.
Defined.

(** C5: in every reachable state a block on [free_area[k]], [k < MAX_ORDER],
    has no buddy on [free_area[k]]; the block that holds the buddy's first
    page is handed out or is a free block of another order.  Both copies. *)
Theorem eager_coalescing (c : copy) (s : sys) (k p : Z) :
  reachable c s → MIN_ORDER ≤ k < MAX_ORDER → p ∈ fl (mem s) k →
  (buddy_page p k ∉ fl (mem s) k) ∧
  (∃ t q j, blocks None s (t, q, j) ∧ covers (t, q, j) (buddy_page p k) ∧
            (t = Live ∨ (t = Free ∧ j ≠ k))).
Proof.
  intros Hreach Hk Hp. pose proof (reachable_inv c s Hreach) as Hinv.
  pose proof (inv_eager _ _ Hinv k p Hk Hp) as Hnb. split; [done|].
  pose proof (inv_tiling _ _ Hinv) as Ht.
  assert (blocks None s (Free, p, k)) as Hblk by (split; [lia|done]).
  pose proof (t_valid _ Ht _ Hblk) as Hv. pose proof (valid_range _ _ _ Hv) as Hpr.
  destruct Hv as (_ & _ & _ & Hal).
  pose proof (buddy_page_range p k Hpr Hk) as Hbr.
  destruct (t_cover _ Ht _ Hbr) as ([[t q] j] & Hb & Hc).
  exists t, q, j. split; [done|]. split; [done|].
  destruct t; [|by left|done].
  right. split; [done|]. intros ->. apply Hnb.
  pose proof (t_valid _ Ht _ Hb) as (_ & _ & _ & [e He]).
  pose proof (psz_pos k) as Hpos. cbn in Hc. destruct Hb as [_ Hq].
  assert (Z.divide (psz k) (buddy_page p k)) as [d Hd].
  { destruct (buddy_page_cases p k) as [[-> _]|[-> _]]; [lia|done| |].
    - apply Z.divide_add_r; [done|apply Z.divide_refl].
    - apply Z.divide_sub_r; [done|apply Z.divide_refl]. }
  assert (d = e) by nia. assert (buddy_page p k = q) as -> by lia. done.
Qed.

Lemma eager_coalescing_witness :
  buddy_page 1 12 ∉ fl after_alloc1 12.
Proof.
  apply (eager_coalescing root {| mem := after_alloc1; live := [Mem 0] |} 12 1).
  - exact (after_alloc1_reachable root).
  - vm_compute. split; [discriminate|reflexivity].
  - vm_compute. apply list_elem_of_here.
Defined.

(** ** A stored order outside the range *)

(** X1: [src/buddy.c] tests the stored order first: outside
    [MIN_ORDER .. MAX_ORDER] it prints and spins, and no state comes back. *)
Theorem root_buddy_free_invalid (st : state) (addr : ptr) (k : Z) :
  stored_order st addr = Ret k → ¬ MIN_ORDER ≤ k ≤ MAX_ORDER →
  Root.buddy_free st addr = Hang "ERROR: invalid order: currentOrder=%d" k.
Proof.
  unfold stored_order, Root.buddy_free. intros Hso Hk.
  destruct (ADDR_TO_PAGE addr) as [p| | |]; try done. rewrite !bind_Ret in *.
  destruct (page_at st p) as [pg| | |]; try done. rewrite !bind_Ret in *.
  injection Hso as ->.
  destruct (decide (k < MIN_ORDER)).
  - by rewrite (bool_decide_true (k < MIN_ORDER)).
  - rewrite (bool_decide_false (k < MIN_ORDER)) by done.
    rewrite bool_decide_true by lia. done.
Qed.

Lemma root_buddy_free_invalid_witness :
  Root.buddy_free init0 (Mem 8192) = Hang "ERROR: invalid order: currentOrder=%d" (-1).
Proof.
  apply (root_buddy_free_invalid init0 (Mem 8192) (-1)).
  - vm_compute. reflexivity.
  - vm_compute. intros [H _]. apply H. reflexivity.
Defined.

(** X2: [src/buddy/buddy.c] has no such test: with a negative stored order the
    loop shifts by a negative count, and with one above [MAX_ORDER] the
    descriptor is put on a list head past the end of [free_area]. *)
Theorem sub_buddy_free_invalid (st : state) (addr : ptr) (k : Z) :
  stored_order st addr = Ret k → k < 0 ∨ MAX_ORDER < k →
  Sub.buddy_free st addr = Undef.
Proof.
  unfold stored_order, Sub.buddy_free. intros Hso Hk.
  destruct (ADDR_TO_PAGE addr) as [p| | |]; try done. rewrite !bind_Ret in *.
  destruct (page_at st p) as [pg| | |] eqn:Hpg; try done. rewrite !bind_Ret in *.
  injection Hso as ->. destruct Hk as [Hneg|Hbig].
  - change depth with (S (Nat.pred depth)). cbn [Sub.free_loop].
    rewrite bool_decide_true by (unfold MAX_ORDER; lia).
    rewrite Hpg, bind_Ret. unfold BUDDY_ADDR, shl1.
    destruct (address pg); [done|]. by rewrite bool_decide_false by lia.
  - change depth with (S (Nat.pred depth)). cbn [Sub.free_loop].
    rewrite bool_decide_false by lia. rewrite bind_Ret. cbn beta iota.
    unfold set_order. rewrite Hpg, bind_Ret, bind_Ret.
    unfold list_add, area. by rewrite bool_decide_false by lia.
Qed.

Lemma sub_buddy_free_invalid_witness : Sub.buddy_free init0 (Mem 8192) = Undef.
Proof.
  apply (sub_buddy_free_invalid init0 (Mem 8192) (-1)).
  - vm_compute. reflexivity.
  - left. reflexivity.
Defined.

(** C9, on the two copies: right after [buddy_init], page 1 heads no block
    and its stored order is [-1].  [buddy_free] of its address in
    [src/buddy.c] prints the diagnostic and spins; in [src/buddy/buddy.c]
    it goes into the coalescing loop with order [-1], which is undefined. *)
Theorem buddy_free_invalid_order :
  stored_order init0 (Mem 4096) = Ret (-1) ∧
  Root.buddy_free init0 (Mem 4096) = Hang "ERROR: invalid order: currentOrder=%d" (-1) ∧
  Sub.buddy_free init0 (Mem 4096) = Undef.
Proof. vm_compute. repeat split. Qed.

(** ** The two copies on a sequence of calls *)

Lemma do_call_agree (st : state) (out : list ptr) (cl : call) :
  match cl with DoFree addr => free_pre st out addr | _ => true end = true →
  do_call sub st cl = do_call root st cl.
Proof.
  destruct cl as [|size|addr]; [done..|]. unfold free_pre, do_call.
  intros [_ Hso]%andb_true_iff. cbn [buddy_free_of].
  destruct (stored_order st addr) as [k| | |] eqn:Hk; try done.
  apply bool_decide_eq_true in Hso. by rewrite (sub_buddy_free st addr k).
Qed.

(** C10: on every sequence of calls in which each freed address is out and
    has a stored order in [MIN_ORDER .. MAX_ORDER], the two copies return the
    same addresses and leave the same globals after every call. *)
Theorem copies_agree (st : state) (out : list ptr) (calls : list call) :
  pre st out calls = true → run sub st calls = run root st calls.
Proof.
  revert st out. induction calls as [|cl calls IH]; intros st out Hpre; [done|].
  cbn [pre] in Hpre. apply andb_true_iff in Hpre as [Hcl Hrest].
  cbn [run]. rewrite (do_call_agree st out cl Hcl). f_equal.
  destruct (do_call root st cl) as [[st' a]| | |]; [|done..].
  by apply (IH st' (out_after cl a out)).
Qed.

Lemma copies_agree_witness :
  run sub boot [DoInit; DoAlloc 1; DoAlloc 5000; DoFree (Mem 0); DoFree (Mem 8192); DoAlloc (2 ^ 20)]
  = run root boot [DoInit; DoAlloc 1; DoAlloc 5000; DoFree (Mem 0); DoFree (Mem 8192); DoAlloc (2 ^ 20)].
Proof.
  apply (copies_agree boot []). vm_compute. reflexivity.
Defined.

(** ** Further properties of the reachable states *)

(** X3: in every reachable state the free blocks and the blocks handed out tile
    the arena: each is aligned to its size and lies inside, no page belongs
    to two of them and every page belongs to one; no list holds a page
    twice.  Both copies. *)
Theorem reachable_tiling (c : copy) (s : sys) :
  reachable c s →
  tiling (blocks None s) ∧ (∀ k, MIN_ORDER ≤ k ≤ MAX_ORDER → NoDup (fl (mem s) k)) ∧
  NoDup (live s).
Proof.
  intros Hinv%reachable_inv. split; [apply (inv_tiling _ _ Hinv)|]. split.
  - apply (inv_nodup _ _ Hinv).
  - apply (inv_live_nodup _ _ Hinv).
Qed.

Lemma reachable_tiling_witness :
  tiling (blocks None {| mem := after_alloc1; live := [Mem 0] |}).
Proof.
  apply (reachable_tiling root {| mem := after_alloc1; live := [Mem 0] |}).
  exact (after_alloc1_reachable root).
Defined.

(** X4: in every reachable state [buddy_alloc] returns for every size and
    [buddy_free] returns for every address that is out: no diagnostic, no
    undefined behaviour.  Both copies. *)
Theorem reachable_calls_return (c : copy) (s : sys) :
  reachable c s →
  (∀ size, ∃ st' a, buddy_alloc_of c (mem s) size = Ret (st', a)) ∧
  (∀ a, a ∈ live s → ∃ st', buddy_free_of c (mem s) a = Ret st').
Proof.
  intros Hinv%reachable_inv. split.
  - intros size. rewrite copy_buddy_alloc.
    destruct (buddy_alloc_cases (mem s) size (inv_wf _ _ Hinv))
      as [[Hnull _]|(k & H & rest & st1 & _ & _ & _ & _ & Hrun & _)]; eauto.
  - intros a Ha. destruct (live_block s a Hinv Ha) as (p & -> & Hp & Ho).
    rewrite copy_buddy_free by (done || apply (inv_wf _ _ Hinv)).
    destruct (free_inv s (PAGE_TO_ADDR p) Hinv Ha) as (st' & Hrun & _). eauto.
Qed.

Lemma reachable_calls_return_witness :
  ∃ st', buddy_free_of sub after_alloc1 (Mem 0) = Ret st'.
Proof.
  destruct (reachable_calls_return sub {| mem := after_alloc1; live := [Mem 0] |}
              (after_alloc1_reachable sub)) as [_ Hfree].
  apply (Hfree (Mem 0)). apply list_elem_of_here.
Defined.

(** ** Accounting of the arena *)

Lemma total_cons {A : Type} (f : A → Z) (x : A) (l : list A) :
  total f (x :: l) = f x + total f l.
Proof. reflexivity. Qed.

Lemma total_ext {A : Type} (f g : A → Z) (l : list A) :
  (∀ x, x ∈ l → f x = g x) → total f l = total g l.
Proof.
  induction l as [|x l IH]; intros Heq; [done|]. rewrite !total_cons.
  rewrite (Heq x) by apply list_elem_of_here. rewrite IH; [done|].
  intros y Hy. apply Heq. by apply list_elem_of_further.
Qed.

Lemma total_scale {A : Type} (f g : A → Z) (c : Z) (l : list A) :
  (∀ x, x ∈ l → g x = c * f x) → total g l = c * total f l.
Proof.
  induction l as [|x l IH]; intros Heq; [cbn; lia|]. rewrite !total_cons.
  rewrite (Heq x) by apply list_elem_of_here. rewrite IH; [lia|].
  intros y Hy. apply Heq. by apply list_elem_of_further.
Qed.

Lemma total_nonneg {A : Type} (f : A → Z) (l : list A) :
  (∀ x, x ∈ l → 0 ≤ f x) → 0 ≤ total f l.
Proof.
  induction l as [|x l IH]; intros Hpos; [done|]. rewrite total_cons.
  pose proof (Hpos x (list_elem_of_here _ _)).
  assert (0 ≤ total f l) by (apply IH; intros y Hy; apply Hpos; by apply list_elem_of_further).
  lia.
Qed.

Lemma total_zero {A : Type} (f : A → Z) (l : list A) :
  (∀ x, x ∈ l → 0 ≤ f x) → total f l = 0 → ∀ x, x ∈ l → f x = 0.
Proof.
  induction l as [|y l IH]; intros Hpos Hsum x Hx; [by apply elem_of_nil in Hx|].
  rewrite total_cons in Hsum.
  pose proof (Hpos y (list_elem_of_here _ _)).
  assert (0 ≤ total f l) by (apply total_nonneg; intros z Hz; apply Hpos; by apply list_elem_of_further).
  apply elem_of_cons in Hx as [->|Hx]; [lia|].
  apply IH; [|lia|done]. intros z Hz. apply Hpos. by apply list_elem_of_further.
Qed.

(** Changing the summand at one key of a duplicate-free list of keys. *)
Lemma total_update {A : Type} (f g : A → Z) (l : list A) (k : A) :
  NoDup l → k ∈ l → (∀ x, x ∈ l → x ≠ k → g x = f x) →
  total g l = total f l + (g k - f k).
Proof.
  induction 1 as [|x l Hx Hnd IH]; intros Hk Heq; [by apply elem_of_nil in Hk|].
  rewrite !total_cons. apply elem_of_cons in Hk as [->|Hk].
  - rewrite (total_ext g f l); [lia|]. intros y Hy. apply Heq; [by apply list_elem_of_further|].
    by intros ->.
  - rewrite IH; [|done|].
    + rewrite (Heq x); [lia|apply list_elem_of_here|]. by intros ->.
    + intros y Hy Hne. apply Heq; [by apply list_elem_of_further|done].
Qed.

Lemma forget_notin (l : list ptr) (a : ptr) : a ∉ l → forget a l = l.
Proof.
  unfold forget. induction l as [|x l IH]; intros Ha; [done|].
  apply not_elem_of_cons in Ha as [Hne Ha].
  rewrite filter_cons_True by done. by rewrite IH.
Qed.

Lemma total_forget (f : ptr → Z) (l : list ptr) (a : ptr) :
  NoDup l → a ∈ l → total f (forget a l) = total f l - f a.
Proof.
  induction 1 as [|x l Hx Hnd IH]; intros Ha; [by apply elem_of_nil in Ha|].
  rewrite total_cons. apply elem_of_cons in Ha as [->|Ha].
  - unfold forget. rewrite filter_cons_False by (by intros ?).
    fold (forget x l). rewrite forget_notin by done. lia.
  - unfold forget. rewrite filter_cons_True by (by intros ->).
    fold (forget a l). rewrite total_cons, IH by done. lia.
Qed.

Lemma orders_NoDup : NoDup (seqZ MIN_ORDER (MAX_ORDER + 1 - MIN_ORDER)).
Proof. apply NoDup_seqZ. Qed.

Lemma elem_of_orders k :
  k ∈ seqZ MIN_ORDER (MAX_ORDER + 1 - MIN_ORDER) ↔ MIN_ORDER ≤ k ≤ MAX_ORDER.
Proof. rewrite elem_of_seqZ. lia. Qed.

(** The free pages after one list was replaced. *)
Lemma free_pages_update (st st' : state) (k : Z) (l' : list Z) :
  MIN_ORDER ≤ k ≤ MAX_ORDER →
  (∀ j, MIN_ORDER ≤ j ≤ MAX_ORDER → fl st' j = if bool_decide (j = k) then l' else fl st j) →
  free_pages st' =
    free_pages st + (Z.of_nat (length l') - Z.of_nat (length (fl st k))) * psz k.
Proof.
  intros Hk Hfl. unfold free_pages.
  rewrite (total_update (λ k, Z.of_nat (length (fl st k)) * psz k) _ _ k);
    [|apply orders_NoDup|by apply elem_of_orders|].
  - cbn beta. rewrite (Hfl k Hk). rewrite bool_decide_true by done. lia.
  - intros j Hj%elem_of_orders Hne. cbn beta. rewrite Hfl by done.
    by rewrite bool_decide_false.
Qed.

Lemma free_pages_same (st st' : state) :
  (∀ j, MIN_ORDER ≤ j ≤ MAX_ORDER → fl st' j = fl st j) → free_pages st' = free_pages st.
Proof.
  intros Hfl. unfold free_pages. apply total_ext.
  intros j Hj%elem_of_orders. by rewrite Hfl.
Qed.

Lemma length_unlink (e : Z) (l : list Z) :
  e ∈ l → Z.of_nat (length (unlink e l)) = Z.of_nat (length l) - 1.
Proof.
  induction l as [|x l IH]; [by intros ?%elem_of_nil|]. cbn [unlink].
  case_bool_decide as Hx; [cbn [length]; lia|].
  intros [?|Hin]%elem_of_cons; [congruence|]. cbn [length]. rewrite !Nat2Z.inj_succ, IH by done. lia.
Qed.

Lemma page_of_PAGE_TO_ADDR p : page_of (PAGE_TO_ADDR p) = p.
Proof. unfold page_of, PAGE_TO_ADDR. rewrite PAGE_SIZE_val. by rewrite Z.div_mul. Qed.

(** The outstanding pages do not change when a descriptor that is not out
    is stamped. *)
Lemma live_pages_stamp (s : sys) (q v : Z) (fb : option (Z * Z)) (st' : state) :
  inv fb s → 0 ≤ q < n_pages → PAGE_TO_ADDR q ∉ live s →
  (∀ p, ord st' p = ord (stamp q v (mem s)) p) →
  live_pages {| mem := st'; live := live s |} = live_pages s.
Proof.
  intros Hinv Hq Hnl Hord. unfold live_pages. cbn [mem live]. apply total_ext.
  intros a Ha. destruct (inv_live_page _ _ Hinv a Ha) as (p & -> & Hp).
  rewrite page_of_PAGE_TO_ADDR, Hord.
  rewrite ord_stamp by (done || lia || apply (inv_wf _ _ Hinv)).
  rewrite bool_decide_false; [done|]. by intros ->.
Qed.

Lemma acct_detach s H k :
  inv None s → acct None s → MIN_ORDER ≤ k ≤ MAX_ORDER → H ∈ fl (mem s) k →
  acct (Some (H, k)) {| mem := set_area k (unlink H (fl (mem s) k)) (mem s); live := live s |}.
Proof.
  intros Hinv [Hmass Hord] Hk HH. pose proof (inv_wf _ _ Hinv) as Hwf.
  assert (∀ j, MIN_ORDER ≤ j ≤ MAX_ORDER →
            fl (set_area k (unlink H (fl (mem s) k)) (mem s)) j
            = if bool_decide (j = k) then unlink H (fl (mem s) k) else fl (mem s) j) as Hfl.
  { intros j Hj. apply fl_set_area; [done..|unfold MIN_ORDER in *; lia]. }
  split; cbn [mem live float_pages].
  - rewrite (free_pages_update (mem s) _ k _ Hk Hfl), length_unlink by done.
    change (live_pages {| mem := _; live := live s |}) with (live_pages s).
    cbn [float_pages] in Hmass. lia.
  - intros j p Hj. rewrite Hfl by done. rewrite ord_set_area. case_bool_decide as Hjk.
    + subst j. intros Hp%elem_of_unlink_1. by apply Hord.
    + by apply Hord.
Qed.

Lemma acct_merge s H k :
  inv (Some (H, k)) s → acct (Some (H, k)) s → k < MAX_ORDER →
  buddy_page H k ∈ fl (mem s) k →
  acct (Some (Z.min H (buddy_page H k), k + 1))
       {| mem := set_area k (unlink (buddy_page H k) (fl (mem s) k)) (mem s); live := live s |}.
Proof.
  intros Hinv [Hmass Hord] Hlt Hin. pose proof (inv_wf _ _ Hinv) as Hwf.
  pose proof (float_valid _ _ _ Hinv) as (Hk & _).
  assert (∀ j, MIN_ORDER ≤ j ≤ MAX_ORDER →
            fl (set_area k (unlink (buddy_page H k) (fl (mem s) k)) (mem s)) j
            = if bool_decide (j = k) then unlink (buddy_page H k) (fl (mem s) k)
              else fl (mem s) j) as Hfl.
  { intros j Hj. apply fl_set_area; [done..|unfold MIN_ORDER in *; lia]. }
  split; cbn [mem live float_pages].
  - rewrite (free_pages_update (mem s) _ k _ Hk Hfl), length_unlink by done.
    change (live_pages {| mem := _; live := live s |}) with (live_pages s).
    cbn [float_pages] in Hmass. rewrite psz_succ by lia. lia.
  - intros j p Hj. rewrite Hfl by done. rewrite ord_set_area. case_bool_decide as Hjk.
    + subst j. intros Hp%elem_of_unlink_1. by apply Hord.
    + by apply Hord.
Qed.

Lemma acct_split s H o :
  inv (Some (H, o)) s → acct (Some (H, o)) s → MIN_ORDER < o →
  let b := buddy_page H (o - 1) in
  acct (Some (H, o - 1))
       {| mem := set_area (o - 1) (b :: fl (mem s) (o - 1)) (stamp b (o - 1) (mem s));
          live := live s |}.
Proof.
  intros Hinv [Hmass Hord] Ho b. pose proof (inv_wf _ _ Hinv) as Hwf.
  assert (b = buddy_page H (o - 1)) as Hbdef by done. clearbody b.
  pose proof (float_valid _ _ _ Hinv) as (Hk & HH0 & HHn & Hal).
  pose proof (psz_succ (o - 1)) as Hps. replace (o - 1 + 1) with o in Hps by lia.
  pose proof (psz_pos (o - 1)) as Hpp.
  assert (b = H + psz (o - 1)) as Hb.
  { rewrite Hbdef. apply buddy_page_right; [lia|]. by replace (o - 1 + 1) with o by lia. }
  assert (0 ≤ b < n_pages) as Hbr by lia.
  assert (∀ j, MIN_ORDER ≤ j ≤ MAX_ORDER →
            fl (set_area (o - 1) (b :: fl (mem s) (o - 1)) (stamp b (o - 1) (mem s))) j
            = if bool_decide (j = o - 1) then b :: fl (mem s) (o - 1) else fl (mem s) j) as Hfl.
  { intros j Hj. rewrite fl_set_area; [done|by apply wf_stamp|lia|unfold MIN_ORDER in *; lia]. }
  split; cbn [mem live float_pages].
  - rewrite (free_pages_update (mem s) _ (o - 1) _ ltac:(lia) Hfl).
    rewrite (live_pages_stamp s b (o - 1) (Some (H, o))); [|done|done| |done].
    + cbn [float_pages length] in *. rewrite Nat2Z.inj_succ. lia.
    + apply (float_not_live s H o); [done|lia].
  - assert (∀ j, MIN_ORDER ≤ j ≤ MAX_ORDER → b ∉ fl (mem s) j) as Hbfree.
    { intros j Hj. apply (float_not_free s H o); [done|lia|done]. }
    intros j p Hj. rewrite Hfl by done. rewrite ord_set_area. intros Hp.
    assert (0 ≤ p) as Hp0.
    { revert Hp. case_bool_decide as Hjk.
      - subst j. intros [->|Hp]%elem_of_cons; [lia|].
        pose proof (wf_members _ Hwf _ p Hj Hp). lia.
      - intros Hp. pose proof (wf_members _ Hwf _ p Hj Hp). lia. }
    rewrite ord_stamp by done. revert Hp. case_bool_decide as Hjo.
    + subst j. intros [->|Hp]%elem_of_cons; [by rewrite bool_decide_true|].
      rewrite bool_decide_false; [by apply Hord|]. intros ->. by apply (Hbfree (o - 1)).
    + intros Hp. rewrite bool_decide_false; [by apply Hord|]. intros ->. by apply (Hbfree j).
Qed.

Lemma acct_to_live s H T :
  inv (Some (H, T)) s → acct (Some (H, T)) s →
  acct None {| mem := stamp H T (mem s); live := PAGE_TO_ADDR H :: live s |}.
Proof.
  intros Hinv [Hmass Hord]. pose proof (inv_wf _ _ Hinv) as Hwf.
  pose proof (float_valid _ _ _ Hinv) as Hv.
  pose proof (valid_range _ _ _ Hv) as HH. pose proof (valid_covers _ _ _ Hv) as Hc.
  assert (PAGE_TO_ADDR H ∉ live s) as Hnl by (by apply (float_not_live s H T)).
  split; cbn [mem live float_pages].
  - rewrite (free_pages_same (mem s)) by (intros j Hj; apply fl_stamp).
    pose proof (live_pages_stamp s H T (Some (H, T)) (stamp H T (mem s)) Hinv HH Hnl
                  ltac:(done)) as Hl.
    unfold live_pages in Hl, Hmass |- *. cbn [mem live float_pages] in Hl, Hmass |- *.
    rewrite total_cons, Hl.
    rewrite page_of_PAGE_TO_ADDR, ord_stamp by (done || lia). rewrite bool_decide_true by done.
    lia.
  - intros j p Hj Hp. rewrite fl_stamp in Hp.
    pose proof (wf_members _ Hwf j p Hj Hp) as Hpr.
    rewrite ord_stamp by (done || lia).
    rewrite bool_decide_false; [by apply Hord|]. intros ->.
    by apply (float_not_free s H T H j Hinv Hc Hj).
Qed.

Lemma acct_from_live s p :
  inv None s → acct None s → PAGE_TO_ADDR p ∈ live s →
  acct (Some (p, ord (mem s) p)) {| mem := mem s; live := forget (PAGE_TO_ADDR p) (live s) |}.
Proof.
  intros Hinv [Hmass Hord] Hp. split; cbn [mem live float_pages]; [|done].
  unfold live_pages in *. cbn [mem live].
  rewrite total_forget by (done || apply (inv_live_nodup _ _ Hinv)).
  rewrite page_of_PAGE_TO_ADDR. cbn [float_pages] in Hmass. lia.
Qed.

Lemma acct_attach s H k :
  inv (Some (H, k)) s → acct (Some (H, k)) s →
  acct None {| mem := set_area k (H :: fl (mem s) k) (stamp H k (mem s)); live := live s |}.
Proof.
  intros Hinv [Hmass Hord]. pose proof (inv_wf _ _ Hinv) as Hwf.
  pose proof (float_valid _ _ _ Hinv) as Hv. pose proof Hv as (Hk & _).
  pose proof (valid_range _ _ _ Hv) as HH. pose proof (valid_covers _ _ _ Hv) as Hc.
  assert (∀ j, MIN_ORDER ≤ j ≤ MAX_ORDER →
            fl (set_area k (H :: fl (mem s) k) (stamp H k (mem s))) j
            = if bool_decide (j = k) then H :: fl (mem s) k else fl (mem s) j) as Hfl.
  { intros j Hj. rewrite fl_set_area; [done|by apply wf_stamp|lia|unfold MIN_ORDER in *; lia]. }
  split; cbn [mem live float_pages].
  - rewrite (free_pages_update (mem s) _ k _ Hk Hfl).
    rewrite (live_pages_stamp s H k (Some (H, k))); [|done|done| |done].
    + cbn [float_pages length] in *. rewrite Nat2Z.inj_succ. lia.
    + by apply (float_not_live s H k).
  - intros j p Hj. rewrite Hfl by done. rewrite ord_set_area. intros Hp.
    assert (0 ≤ p) as Hp0.
    { revert Hp. case_bool_decide as Hjk.
      - subst j. intros [->|Hp]%elem_of_cons; [lia|].
        pose proof (wf_members _ Hwf _ p Hj Hp). lia.
      - intros Hp. pose proof (wf_members _ Hwf _ p Hj Hp). lia. }
    rewrite ord_stamp by done. revert Hp. case_bool_decide as Hjk.
    + subst j. intros [->|Hp]%elem_of_cons; [by rewrite bool_decide_true|].
      rewrite bool_decide_false; [by apply Hord|]. intros ->.
      by apply (float_not_free s H k H k Hinv Hc Hk).
    + intros Hp. rewrite bool_decide_false; [by apply Hord|]. intros ->.
      by apply (float_not_free s H k H j Hinv Hc Hj).
Qed.

Lemma acct_init st : init_post st → acct None {| mem := st; live := [] |}.
Proof.
  intros Hpost. split; cbn [mem live float_pages].
  - unfold free_pages.
    rewrite (total_ext _ (λ k, if bool_decide (k = MAX_ORDER) then psz MAX_ORDER else 0)).
    + reflexivity.
    + intros k Hk%elem_of_orders. rewrite (init_post_fl st k Hpost Hk).
      case_bool_decide; [subst k; cbn [length]|cbn [length]]; lia.
  - intros k p Hk. rewrite (init_post_fl st k Hpost Hk). case_bool_decide as Hkm.
    + intros ->%list_elem_of_singleton. subst k. destruct Hpost as (Hpg & _).
      unfold ord. rewrite (Hpg 0) by done. done.
    + by intros ?%elem_of_nil.
Qed.

Lemma splitMemory_acct (fuel : nat) (L : list ptr) (st : state) (H o T : Z) (st' : state) :
  inv (Some (H, o)) {| mem := st; live := L |} →
  acct (Some (H, o)) {| mem := st; live := L |} → MIN_ORDER ≤ T ≤ o →
  Root.splitMemory fuel st H o T = Ret st' →
  acct (Some (H, T)) {| mem := st'; live := L |}.
Proof.
  revert st o. induction fuel as [|fuel IH]; intros st o Hinv Hacct HT Hrun;
    (destruct (decide (o = T)) as [->|Hne];
     [cbn in Hrun; rewrite bool_decide_true in Hrun by done; by injection Hrun as <-|]);
    pose proof (float_valid _ _ _ Hinv) as Hv; pose proof Hv as (Hk & _);
    (rewrite splitMemory_unfold in Hrun;
      [|apply (inv_wf _ _ Hinv)|by apply (valid_range _ _ _ Hv)|lia|lia]); [done|].
  eapply (IH _ (o - 1)); [| |lia|exact Hrun].
  - apply (inv_split {| mem := st; live := L |} H o); [done|lia].
  - apply (acct_split {| mem := st; live := L |} H o); [done|done|lia].
Qed.

Lemma coalesce_acct st H k st' H' k' (L : list ptr) :
  coalesce st H k st' H' k' →
  inv (Some (H, k)) {| mem := st; live := L |} →
  acct (Some (H, k)) {| mem := st; live := L |} →
  acct (Some (H', k')) {| mem := st'; live := L |}.
Proof.
  induction 1 as [st H k Hk|st H k Hk Hb|st H k st' H' k' Hk Hb Hc IH]; intros Hinv Hacct;
    [done|done|].
  apply IH.
  - by apply (inv_merge {| mem := st; live := L |} H k).
  - by apply (acct_merge {| mem := st; live := L |} H k).
Qed.

Lemma alloc_acct (s : sys) (size : Z) (st' : state) (a : ptr) :
  inv None s → acct None s → Root.buddy_alloc (mem s) size = Ret (st', a) →
  acct None {| mem := st'; live := match a with NULL => live s | _ => a :: live s end |}.
Proof.
  intros Hinv Hacct Hrun.
  destruct (buddy_alloc_cases (mem s) size (inv_wf _ _ Hinv))
    as [[Hnull _]|(k & H & rest & st1 & HT & Hk & Hfl & _ & Hrun' & Hpost)].
  - rewrite Hnull in Hrun. injection Hrun as <- <-. by destruct s.
  - rewrite Hrun' in Hrun. injection Hrun as <- <-. cbn [PAGE_TO_ADDR].
    destruct Hpost as (_ & _ & _ & _ & _ & st2 & Hsplit & ->).
    assert (rest = unlink H (fl (mem s) k)) as Hrest.
    { rewrite Hfl. cbn. by rewrite bool_decide_true. }
    assert (H ∈ fl (mem s) k) as HH by (rewrite Hfl; apply list_elem_of_here).
    rewrite Hrest in Hsplit.
    assert (MIN_ORDER ≤ k ≤ MAX_ORDER) as Hk' by lia.
    assert (MIN_ORDER ≤ Root.determineOrder size ≤ k) as HT' by lia.
    pose proof (inv_detach s H k Hinv Hk' HH) as Hinv1.
    pose proof (acct_detach s H k Hinv Hacct Hk' HH) as Hacct1.
    apply (acct_to_live {| mem := st2; live := live s |}).
    + by apply (splitMemory_inv depth (live s) _ H k _ _ Hinv1 HT').
    + by apply (splitMemory_acct depth (live s) _ H k _ _ Hinv1 Hacct1 HT').
Qed.

Lemma free_acct (s : sys) (a : ptr) (st' : state) :
  inv None s → acct None s → a ∈ live s → Root.buddy_free (mem s) a = Ret st' →
  acct None {| mem := st'; live := forget a (live s) |}.
Proof.
  intros Hinv Hacct Ha Hrun'. destruct (live_block s a Hinv Ha) as (p & -> & Hp & Ho).
  destruct (buddy_free_spec (mem s) p (inv_wf _ _ Hinv) Hp Ho)
    as (st1 & H & k & Hco & _ & _ & _ & Hrun).
  rewrite Hrun in Hrun'. injection Hrun' as <-.
  pose proof (inv_from_live s p Hinv Ha) as Hinv0.
  pose proof (acct_from_live s p Hinv Hacct Ha) as Hacct0.
  apply (acct_attach {| mem := st1; live := _ |} H k).
  - by apply (coalesce_inv _ _ _ _ _ _ _ Hco).
  - by apply (coalesce_acct _ _ _ _ _ _ _ Hco).
Qed.

Lemma reachable_acct (c : copy) (s : sys) : reachable c s → acct None s.
Proof.
  induction 1 as [st0 st Hshape Hrun|s size st a Hreach IH Hrun|s a st Hreach IH Ha Hrun].
  - rewrite copy_buddy_init in Hrun.
    destruct (buddy_init_spec st0 Hshape) as (st1 & Hrun1 & Hpost & _).
    rewrite Hrun1 in Hrun. injection Hrun as <-. by apply acct_init.
  - rewrite copy_buddy_alloc in Hrun.
    by apply (alloc_acct s size _ _ (reachable_inv c s Hreach)).
  - pose proof (reachable_inv c s Hreach) as Hinv.
    destruct (live_block s a Hinv Ha) as (p & -> & Hp & Ho).
    rewrite copy_buddy_free in Hrun by (done || apply (inv_wf _ _ Hinv)).
    by apply (free_acct s _ _ Hinv).
Qed.

Lemma total_app {A : Type} (f : A → Z) (l1 l2 : list A) :
  total f (l1 ++ l2) = total f l1 + total f l2.
Proof. induction l1 as [|x l1 IH]; [reflexivity|]. cbn [app]. rewrite !total_cons, IH. lia. Qed.

Lemma total_fmap {A B : Type} (f : B → Z) (g : A → B) (l : list A) :
  total f (g <$> l) = total (λ x, f (g x)) l.
Proof. induction l as [|x l IH]; [done|]. cbn [fmap list_fmap]. by rewrite !total_cons, IH. Qed.

Lemma pow_psz k : MIN_ORDER ≤ k → 2 ^ k = PAGE_SIZE * psz k.
Proof.
  intros Hk. unfold psz, PAGE_SIZE. rewrite shiftl_1 by done.
  rewrite <- Z.pow_add_r by (unfold MIN_ORDER in *; lia). f_equal. lia.
Qed.

Lemma kib_psz k : MIN_ORDER ≤ k → (1 ≪ k) `div` 1024 = 4 * psz k.
Proof.
  intros Hk. rewrite shiftl_1 by (unfold MIN_ORDER in *; lia). rewrite pow_psz by done.
  rewrite PAGE_SIZE_val. replace (4096 * psz k) with (4 * psz k * 1024) by lia.
  by rewrite Z.div_mul.
Qed.

(** ** [buddy_dump] *)

Lemma list_for_each_count_spec (l : list Z) :
  Z.of_nat (length l) ≤ INT_MAX → list_for_each_count l = Ret (Z.of_nat (length l)).
Proof.
  intros Hlen. unfold list_for_each_count.
  assert (∀ acc, foldl (λ cnt _, cnt + 1) acc l = acc + Z.of_nat (length l)) as Hgen.
  { induction l as [|x l IH]; intros acc; cbn [foldl length]; [lia|].
    rewrite IH by (cbn [length] in Hlen; lia). lia. }
  rewrite Hgen, Z.add_0_l. by rewrite bool_decide_true.
Qed.

(** A list without repetition of pages of the array has at most [n_pages]
    elements. *)
Lemma free_list_length (l : list Z) :
  NoDup l → (∀ p, p ∈ l → 0 ≤ p < n_pages) → Z.of_nat (length l) ≤ n_pages.
Proof.
  intros Hnd Hin.
  assert (l ⊆+ seqZ 0 n_pages) as Hsub.
  { apply NoDup_submseteq; [done|]. intros p Hp. apply elem_of_seqZ. specialize (Hin p Hp). lia. }
  apply submseteq_length in Hsub. rewrite length_seqZ in Hsub.
  rewrite n_pages_val in *. lia.
Qed.

(** The entry of [buddy_dump] for order [o]. *)
Lemma dump_orders_spec (orders : list Z) (st : state) :
  wf st →
  (∀ o, o ∈ orders → MIN_ORDER ≤ o ≤ MAX_ORDER ∧ Z.of_nat (length (fl st o)) ≤ INT_MAX) →
  Root.dump_orders orders st =
    Ret ((λ o, (dump_format, [Z.of_nat (length (fl st o)); (1 ≪ o) `div` 1024])) <$> orders).
Proof.
  intros Hwf. induction orders as [|o orders IH]; intros Hok; [done|].
  destruct (Hok o (list_elem_of_here _ _)) as [Ho Hlen].
  cbn [Root.dump_orders]. rewrite area_wf by done. rewrite bind_Ret.
  rewrite list_for_each_count_spec by done. rewrite bind_Ret.
  rewrite IH by (intros o' Ho'; apply Hok; by apply list_elem_of_further). done.
Qed.

Lemma buddy_dump_spec (s : sys) :
  inv None s →
  Root.buddy_dump (mem s) =
    Ret (((λ o, (dump_format, [Z.of_nat (length (fl (mem s) o)); (1 ≪ o) `div` 1024]))
            <$> seqZ MIN_ORDER (MAX_ORDER + 1 - MIN_ORDER)) ++ [(newline, [])]).
Proof.
  intros Hinv. unfold Root.buddy_dump. rewrite dump_orders_spec; [done|apply (inv_wf _ _ Hinv)|].
  intros o Ho%elem_of_orders. split; [done|].
  pose proof (free_list_length (fl (mem s) o) (inv_nodup _ _ Hinv o Ho)
                (λ p Hp, wf_members _ (inv_wf _ _ Hinv) o p Ho Hp)) as Hlen.
  rewrite n_pages_val in Hlen. unfold INT_MAX. lia.
Qed.

Lemma sub_buddy_dump st : Sub.buddy_dump st = Root.buddy_dump st.
Proof. reflexivity. Qed.

Lemma copy_buddy_dump c st : buddy_dump_of c st = Root.buddy_dump st.
Proof. by destruct c. Qed.

Lemma Ret_inj {A : Type} (a b : A) : Ret a = Ret b → a = b.
Proof. by intros [= ->]. Qed.

Lemma dump_kib_free_pages (s : sys) (out : list (string * list Z)) :
  inv None s → Root.buddy_dump (mem s) = Ret out → dump_kib out = 4 * free_pages (mem s).
Proof.
  intros Hinv Hrun. rewrite (buddy_dump_spec s Hinv) in Hrun. apply Ret_inj in Hrun. subst out.
  unfold dump_kib, free_pages. rewrite total_app, total_fmap. cbn [total foldr snd].
  rewrite Z.add_0_r. apply total_scale. intros k Hk%elem_of_orders. cbn [snd].
  rewrite kib_psz by lia. lia.
Qed.

Lemma live_kib_live_pages (s : sys) : inv None s → live_kib s = 4 * live_pages s.
Proof.
  intros Hinv. unfold live_kib, live_pages. apply total_scale. intros a Ha.
  destruct (live_block s a Hinv Ha) as (p & -> & _ & Ho).
  rewrite page_of_PAGE_TO_ADDR. apply kib_psz. lia.
Qed.

(** X5: in every reachable state [buddy_dump] prints, for each order from
    [MIN_ORDER] to [MAX_ORDER], the length of that free list and the block
    size in KiB, then a line feed; and the KiB it reports free (count times
    block size, summed) plus the block sizes stored for the outstanding
    addresses make up the 1024 KiB of the arena.  Both copies. *)
Theorem buddy_dump_accounts (c : copy) (s : sys) :
  reachable c s →
  ∃ out,
    buddy_dump_of c (mem s) = Ret out ∧
    out = ((λ o, (dump_format, [Z.of_nat (length (fl (mem s) o)); (1 ≪ o) `div` 1024]))
             <$> seqZ MIN_ORDER (MAX_ORDER + 1 - MIN_ORDER)) ++ [(newline, [])] ∧
    dump_kib out + live_kib s = 1024.
Proof.
  intros Hreach. pose proof (reachable_inv c s Hreach) as Hinv.
  pose proof (acct_mass _ _ (reachable_acct c s Hreach)) as Hmass.
  rewrite copy_buddy_dump. eexists. split; [by apply buddy_dump_spec|]. split; [done|].
  rewrite (dump_kib_free_pages s _ Hinv (buddy_dump_spec s Hinv)).
  rewrite live_kib_live_pages by done. cbn [float_pages] in Hmass.
  rewrite n_pages_val in Hmass. lia.
Qed.

Lemma buddy_dump_accounts_witness :
  ∃ out, buddy_dump_of sub after_alloc1 = Ret out ∧
         dump_kib out + live_kib {| mem := after_alloc1; live := [Mem 0] |} = 1024.
Proof.
  destruct (buddy_dump_accounts sub {| mem := after_alloc1; live := [Mem 0] |}
              (after_alloc1_reachable sub)) as (out & Hrun & _ & Hsum).
  exists out. split; [exact Hrun|exact Hsum].
Defined.

(** X6: in every reachable state the descriptor of a page on the free list
    of order [k] has [k] as its stored order.  Both copies. *)
Theorem free_list_order_stored (c : copy) (s : sys) (k p : Z) :
  reachable c s → MIN_ORDER ≤ k ≤ MAX_ORDER → p ∈ fl (mem s) k →
  stored_order (mem s) (PAGE_TO_ADDR p) = Ret k.
Proof.
  intros Hreach Hk Hp. pose proof (reachable_inv c s Hreach) as Hinv.
  rewrite stored_order_wf;
    [|apply (inv_wf _ _ Hinv)|by apply (wf_members _ (inv_wf _ _ Hinv) k)].
  f_equal. by apply (acct_order _ _ (reachable_acct c s Hreach)).
Qed.

Lemma free_list_order_stored_witness :
  stored_order after_alloc1 (PAGE_TO_ADDR 128) = Ret 19.
Proof.
  apply (free_list_order_stored root {| mem := after_alloc1; live := [Mem 0] |} 19 128).
  - exact (after_alloc1_reachable root).
  - vm_compute. split; discriminate.
  - vm_compute. apply list_elem_of_here.
Defined.

(** ** When nothing is out *)

(** With no block out, no list below the top order holds a block: the buddy
    of a smallest free block would have to be free at the same order. *)
Lemma no_small_free (s : sys) :
  inv None s → live s = [] → ∀ k, MIN_ORDER ≤ k < MAX_ORDER → fl (mem s) k = [].
Proof.
  intros Hinv Hlive. pose proof (inv_tiling _ _ Hinv) as Ht.
  assert (∀ n : nat, ∀ k, k = MIN_ORDER + Z.of_nat n → k < MAX_ORDER → fl (mem s) k = [])
    as Hgen.
  { intros n. induction n as [n IH] using lt_wf_ind. intros k Hkn Hk.
    destruct (fl (mem s) k) as [|p l] eqn:Hfl; [done|]. exfalso.
    assert (p ∈ fl (mem s) k) as Hp by (rewrite Hfl; apply list_elem_of_here).
    assert (MIN_ORDER ≤ k < MAX_ORDER) as Hk' by lia.
    assert (blocks None s (Free, p, k)) as Hblk by (split; [lia|done]).
    pose proof (t_valid _ Ht _ Hblk) as Hv. pose proof (valid_range _ _ _ Hv) as Hpr.
    pose proof (valid_covers _ _ _ Hv) as Hcp. destruct Hv as (_ & _ & _ & Hal).
    pose proof (buddy_page_range p k Hpr Hk') as Hbr.
    pose proof (inv_eager _ _ Hinv k p Hk' Hp) as Hnb.
    destruct (t_cover _ Ht _ Hbr) as ([[t q] j] & Hb & Hc).
    destruct t; cbn [blocks] in Hb; [|by rewrite Hlive in Hb; destruct Hb as [?%elem_of_nil _]|done].
    destruct Hb as [Hj Hq].
    assert (blocks None s (Free, q, j)) as Hblk' by done.
    pose proof (t_valid _ Ht _ Hblk') as (_ & Hq0 & _ & [e He]).
    pose proof (psz_pos k ltac:(lia)) as Hpos. cbn [covers] in Hc, Hcp.
    destruct (Z.lt_trichotomy j k) as [Hlt|[->|Hgt]].
    - rewrite (IH (Z.to_nat (j - MIN_ORDER))) in Hq; [by apply elem_of_nil in Hq|lia|lia|lia].
    - apply Hnb.
      assert (Z.divide (psz k) (buddy_page p k)) as [d Hd].
      { destruct (buddy_page_cases p k) as [[-> _]|[-> _]]; [lia|done| |].
        - apply Z.divide_add_r; [done|apply Z.divide_refl].
        - apply Z.divide_sub_r; [done|apply Z.divide_refl]. }
      assert (d = e) by nia. assert (buddy_page p k = q) as -> by lia. done.
    - assert ((Free, q, j) = (Free, p, k)) as Heq; [|injection Heq; lia].
      apply (t_disj _ Ht _ _ p Hblk' Hblk); [|done]. cbn [covers].
      destruct (psz_divide_le (k + 1) j) as [d Hd]; [lia|].
      pose proof (psz_pos (k + 1) ltac:(lia)) as Hpos1. pose proof (psz_pos j ltac:(lia)) as Hposj.
      pose proof (psz_succ k ltac:(lia)) as Hsucc.
      destruct (buddy_page_cases p k) as [[Hbp [m Hm]]|[Hbp [m Hm]]]; [lia|done| |].
      + assert (e * d ≤ m < e * d + d) by nia. nia.
      + assert (e * d ≤ m < e * d + d) by nia. nia. }
  intros k Hk. apply (Hgen (Z.to_nat (k - MIN_ORDER))); lia.
Qed.

Lemma all_returned (s : sys) :
  inv None s → live s = [] → fl (mem s) MAX_ORDER = [0].
Proof.
  intros Hinv Hlive. pose proof (inv_tiling _ _ Hinv) as Ht.
  assert (∀ p, p ∈ fl (mem s) MAX_ORDER → p = 0) as Hzero.
  { intros p Hp. assert (blocks None s (Free, p, MAX_ORDER)) as Hblk by done.
    pose proof (t_valid _ Ht _ Hblk) as (_ & ? & Hn & _). rewrite psz_max in Hn. lia. }
  assert (0 ∈ fl (mem s) MAX_ORDER) as H0.
  { destruct (t_cover _ Ht 0 ltac:(done)) as ([[t q] j] & Hb & Hc).
    destruct t; cbn [blocks] in Hb; [|by rewrite Hlive in Hb; destruct Hb as [?%elem_of_nil _]|done].
    destruct Hb as [Hj Hq]. destruct (decide (j = MAX_ORDER)) as [->|Hne].
    - by rewrite <- (Hzero q Hq).
    - rewrite (no_small_free s Hinv Hlive j) in Hq by lia. by apply elem_of_nil in Hq. }
  pose proof (inv_nodup _ _ Hinv MAX_ORDER ltac:(done)) as Hnd.
  destruct (fl (mem s) MAX_ORDER) as [|x [|y l]]; [by apply elem_of_nil in H0| |].
  - by rewrite (Hzero x (list_elem_of_here _ _)).
  - exfalso. apply NoDup_cons in Hnd as [Hx _]. apply Hx.
    rewrite (Hzero x (list_elem_of_here _ _)).
    rewrite (Hzero y (list_elem_of_further _ _ _ (list_elem_of_here _ _))).
    apply list_elem_of_here.
Qed.

(** X7: in every reachable state with no address out, the free lists are
    those [buddy_init] leaves: page 0 alone on [free_area[MAX_ORDER]] and
    every lower list empty (every split was undone); [buddy_dump] prints the
    initial line.  Both copies. *)
Theorem all_returned_is_initial (c : copy) (s : sys) :
  reachable c s → live s = [] →
  area (mem s) MAX_ORDER = Ret [0] ∧
  (∀ k, MIN_ORDER ≤ k < MAX_ORDER → area (mem s) k = Ret []) ∧
  buddy_dump_of c (mem s) = Ret dump_initial.
Proof.
  intros Hreach Hlive. pose proof (reachable_inv c s Hreach) as Hinv.
  pose proof (inv_wf _ _ Hinv) as Hwf.
  pose proof (all_returned s Hinv Hlive) as Hmax.
  pose proof (no_small_free s Hinv Hlive) as Hlow.
  split; [|split].
  - rewrite area_wf by done. by rewrite Hmax.
  - intros k Hk. rewrite area_wf by (done || lia). by rewrite Hlow.
  - rewrite copy_buddy_dump, (buddy_dump_spec s Hinv).
    change (seqZ MIN_ORDER (MAX_ORDER + 1 - MIN_ORDER)) with [12; 13; 14; 15; 16; 17; 18; 19; 20].
    cbn [fmap list_fmap]. change 20 with MAX_ORDER. rewrite Hmax.
    rewrite !Hlow by (unfold MIN_ORDER, MAX_ORDER; lia). reflexivity.
Qed.

Lemma all_returned_is_initial_witness :
  ord after_free_both 1 ≠ ord init0 1 ∧
  area after_free_both MAX_ORDER = Ret [0] ∧
  buddy_dump_of sub after_free_both = Ret dump_initial.
Proof.
  destruct (all_returned_is_initial sub {| mem := after_free_both; live := [] |})
    as (Hmax & _ & Hdump).
  - exact (after_free_both_reachable sub).
  - reflexivity.
  - split; [vm_compute; discriminate|]. split; [exact Hmax|exact Hdump].
Defined.

(** ** What the caller gets *)

(** X8: in every reachable state a successful [buddy_alloc(size)] returns
    the start of a block of [2^T] bytes, [T] the order of the request, which
    is at least [size] bytes, lies inside the arena, starts at a multiple of
    its size, has [T] stored as its order, was not out before and overlaps
    no block that is out; the orders stored for the blocks that are out are
    not touched.  Both copies. *)
Theorem alloc_block_guarantees (c : copy) (s : sys) (size : Z) (st' : state) (a : ptr) :
  reachable c s → buddy_alloc_of c (mem s) size = Ret (st', a) → a ≠ NULL →
  let T := determineOrder_of c size in
  ∃ off,
    a = Mem off ∧ stored_order st' a = Ret T ∧ size ≤ 2 ^ T ∧
    0 ≤ off ∧ off + 2 ^ T ≤ 2 ^ MAX_ORDER ∧ Z.divide (2 ^ T) off ∧
    (a ∉ live s) ∧
    (∀ a', a' ∈ live s →
       ∃ off' T', a' = Mem off' ∧
                  stored_order (mem s) a' = Ret T' ∧ stored_order st' a' = Ret T' ∧
                  (off + 2 ^ T ≤ off' ∨ off' + 2 ^ T' ≤ off)).
Proof.
  intros Hreach Hrun Hnn. cbn zeta. rewrite copy_determineOrder.
  pose proof (reach_alloc c s size st' a Hreach Hrun) as Hreach'.
  pose proof (reachable_inv c _ Hreach') as Hinv'.
  pose proof (inv_wf _ _ Hinv') as Hwf'. pose proof (inv_tiling _ _ Hinv') as Ht.
  cbn [mem] in Hwf'. rewrite copy_buddy_alloc in Hrun.
  destruct (buddy_alloc_cases (mem s) size (inv_wf _ _ (reachable_inv c s Hreach)))
    as [[Hnull _]|(k & H & rest & st1 & HT & Hk & Hfl & _ & Hrun' & Hpost)].
  { rewrite Hnull in Hrun. by injection Hrun as <- <-. }
  rewrite Hrun' in Hrun. injection Hrun as <- <-.
  set (T := Root.determineOrder size) in *.
  destruct Hpost as (_ & _ & HordH & _ & Hordo & _).
  pose proof (reachable_inv c s Hreach) as Hinv.
  assert (blocks None s (Free, H, k)) as HblkF.
  { split; [lia|]. rewrite Hfl. apply list_elem_of_here. }
  pose proof (t_valid _ (inv_tiling _ _ Hinv) _ HblkF) as (_ & _ & _ & HalF).
  assert (blocks None {| mem := st1; live := PAGE_TO_ADDR H :: live s |} (Live, H, T)) as Hblk.
  { split; [apply list_elem_of_here|done]. }
  pose proof (t_valid _ Ht _ Hblk) as Hv. pose proof (valid_range _ _ _ Hv) as HH.
  pose proof (valid_covers _ _ _ Hv) as HcH. destruct Hv as (_ & H0 & Hn & [e He]).
  pose proof (pow_psz T ltac:(lia)) as HpT. pose proof (psz_pos T ltac:(lia)) as HposT.
  pose proof (pow_psz MAX_ORDER ltac:(done)) as HpM. rewrite psz_max in HpM.
  exists (H * PAGE_SIZE). rewrite PAGE_SIZE_val in *.
  split; [done|]. split; [by rewrite stored_order_wf, HordH|]. split.
  { destruct (determineOrder_cases size) as [[? Heq]|[(k0 & ? & ? & Heq)|[_ Heq]]];
      fold T in Heq; rewrite Heq in *; unfold MIN_ORDER in *; lia. }
  split; [lia|]. split; [lia|]. split.
  { rewrite HpT, He. exists e. lia. }
  pose proof (inv_live_nodup _ _ Hinv') as Hnd. cbn [live PAGE_TO_ADDR] in Hnd.
  apply NoDup_cons in Hnd as [Hnew _]. split; [done|].
  intros a' Ha'.
  destruct (inv_live_page _ _ Hinv' a' (list_elem_of_further _ _ _ Ha')) as (p' & -> & Hp').
  assert (blocks None {| mem := st1; live := PAGE_TO_ADDR H :: live s |}
            (Live, p', ord st1 p')) as Hblk'.
  { split; [by apply list_elem_of_further|done]. }
  pose proof (t_valid _ Ht _ Hblk') as Hv'. pose proof (valid_covers _ _ _ Hv') as Hc'.
  destruct Hv' as (HT' & _ & _ & _).
  pose proof (pow_psz (ord st1 p') ltac:(lia)) as HpT'. rewrite PAGE_SIZE_val in HpT'.
  pose proof (psz_pos (ord st1 p') ltac:(lia)) as HposT'.
  exists (p' * 4096), (ord st1 p'). split; [by rewrite <- PAGE_SIZE_val|].
  assert (ord st1 p' = ord (mem s) p') as Hsame.
  { assert (blocks None s (Live, p', ord (mem s) p')) as HblkL by done.
    pose proof (valid_covers _ _ _ (t_valid _ (inv_tiling _ _ Hinv) _ HblkL)) as HcL.
    assert (¬ H ≤ p' < H + psz k) as Hout.
    { intros Hin. assert ((Live, p', ord (mem s) p') = (Free, H, k)); [|done].
      by apply (t_disj _ (inv_tiling _ _ Hinv) _ _ p' HblkL HblkF). }
    pose proof (psz_pos k ltac:(lia)) as Hposk.
    apply Hordo; [done|intros ->; lia|]. intros j Hj ->. apply Hout.
    destruct (psz_divide_le (j + 1) k) as [d Hd]; [lia|].
    pose proof (psz_pos j ltac:(lia)) as Hposj. pose proof (psz_succ j ltac:(lia)) as Hsj.
    assert (1 ≤ d) by nia. assert (2 * psz j ≤ psz k) by nia.
    rewrite buddy_page_right; [lia|lia|]. destruct HalF as [f Hf]. exists (f * d). lia. }
  split; [rewrite stored_order_wf by (done || apply (inv_wf _ _ Hinv)); by rewrite Hsame|].
  split; [by rewrite stored_order_wf|].
  destruct (decide (H + psz T ≤ p')) as [|Hn1]; [left; lia|].
  destruct (decide (p' + psz (ord st1 p') ≤ H)) as [|Hn2]; [right; lia|].
  exfalso. apply Hnew.
  assert ((Live, H, T) = (Live, p', ord st1 p')) as Heq.
  { apply (t_disj _ Ht _ _ (Z.max H p') Hblk Hblk'); cbn [covers] in *; lia. }
  injection Heq as -> _. done.
Qed.

Lemma alloc_block_guarantees_witness :
  ∃ off, Mem 0 = Mem off ∧ off + 2 ^ determineOrder_of sub 1 ≤ 2 ^ MAX_ORDER.
Proof.
  destruct (alloc_block_guarantees sub {| mem := init0; live := [] |} 1 after_alloc1 (Mem 0))
    as (off & Ha & _ & _ & _ & Hin & _).
  - exact (init0_reachable sub).
  - vm_compute. reflexivity.
  - discriminate.
  - exists off. split; [exact Ha|exact Hin].
Defined.

(** X9: in every reachable state, allocating, freeing the block at once and
    allocating the same size again returns the same address.  Both
    copies. *)
Theorem alloc_free_alloc_same_address (c : copy) (s : sys) (size : Z) (st' : state) (a : ptr) :
  reachable c s → buddy_alloc_of c (mem s) size = Ret (st', a) → a ≠ NULL →
  ∃ st'' st3,
    buddy_free_of c st' a = Ret st'' ∧ buddy_alloc_of c st'' size = Ret (st3, a).
Proof.
  intros Hreach Hrun Hnn. pose proof (reachable_inv c s Hreach) as Hinv.
  pose proof (reach_alloc c s size st' a Hreach Hrun) as Hreach'.
  pose proof (reachable_inv c _ Hreach') as Hinv'.
  rewrite copy_buddy_alloc in Hrun.
  destruct (free_after_alloc s size st' a Hinv Hrun Hnn)
    as (p & st'' & -> & Hp & Ho & Hwf' & Hfree & Hsame).
  assert (PAGE_TO_ADDR p ∈ live {| mem := st'; live := PAGE_TO_ADDR p :: live s |}) as Hin
    by apply list_elem_of_here.
  destruct (free_inv _ _ Hinv' Hin) as (st2 & Hfree2 & Hinv2).
  cbn [mem] in Hfree2. rewrite Hfree in Hfree2. apply Ret_inj in Hfree2. subst st2.
  pose proof (inv_wf _ _ Hinv2) as Hwf''. cbn [mem] in Hwf''.
  assert (buddy_free_of c st' (PAGE_TO_ADDR p) = Ret st'') as Hfreec
    by (by rewrite copy_buddy_free).
  destruct (buddy_alloc_cases (mem s) size (inv_wf _ _ Hinv))
    as [[Hnull _]|(k & H & rest & st1 & HT & Hk & Hfl & Hlow & Hrun1 & _)].
  { rewrite Hnull in Hrun. by injection Hrun. }
  rewrite Hrun1 in Hrun.
  assert (PAGE_TO_ADDR H = PAGE_TO_ADDR p) as Haddr by congruence.
  destruct (buddy_alloc_cases st'' size Hwf'')
    as [[_ [Hm|Hall]]|(k2 & H2 & rest2 & st3 & HT2 & Hk2 & Hfl2 & Hlow2 & Hrun2 & _)].
  - unfold MIN_ORDER in *. lia.
  - rewrite <- Hsame, Hall in Hfl by lia. done.
  - exists st'', st3. split; [done|]. rewrite copy_buddy_alloc, Hrun2. do 2 f_equal.
    rewrite <- Haddr. rewrite Hsame in Hfl2 by lia.
    assert (k2 = k) as ->.
    { destruct (Z.lt_trichotomy k2 k) as [Hlt|[?|Hgt]]; [|done|].
      - rewrite Hlow in Hfl2 by lia. done.
      - rewrite <- Hsame, Hlow2 in Hfl by lia. done. }
    rewrite Hfl in Hfl2. by injection Hfl2 as ->.
Qed.

Lemma alloc_free_alloc_same_address_witness :
  ∃ st'' st3, buddy_free_of root after_alloc1 (Mem 0) = Ret st'' ∧
              buddy_alloc_of root st'' 1 = Ret (st3, Mem 0).
Proof.
  apply (alloc_free_alloc_same_address root {| mem := init0; live := [] |} 1 after_alloc1 (Mem 0)).
  - exact (init0_reachable root).
  - vm_compute. reflexivity.
  - discriminate.
Defined.

(** ** Addresses [buddy_free] does not check *)

(** X10: [buddy_free] does not check its argument against the arena: for an
    address at or past the end of [g_memory], or before its start, the page
    index is outside [g_pages] and the call is undefined, in any state.
    Both copies. *)
Theorem buddy_free_outside_arena (c : copy) (st : state) (off : Z) :
  2 ^ MAX_ORDER ≤ ulong off → buddy_free_of c st (Mem off) = Undef.
Proof.
  intros Hoff.
  assert (page_at st (ulong off `div` PAGE_SIZE) = Undef) as Hpg.
  { unfold page_at. rewrite bool_decide_false; [done|].
    rewrite n_pages_val, PAGE_SIZE_val.
    assert (256 ≤ ulong off `div` 4096); [|lia].
    apply Z.div_le_lower_bound; [lia|]. change (2 ^ MAX_ORDER) with 1048576 in Hoff. lia. }
  destruct c; cbn [buddy_free_of]; unfold Root.buddy_free, Sub.buddy_free, ADDR_TO_PAGE;
    rewrite bind_Ret, Hpg; done.
Qed.

Lemma buddy_free_outside_arena_witness :
  buddy_free_of root init0 (Mem (2 ^ MAX_ORDER)) = Undef ∧
  buddy_free_of sub init0 (Mem (-1)) = Undef.
Proof.
  split.
  - apply (buddy_free_outside_arena root init0 (2 ^ MAX_ORDER)). vm_compute. discriminate.
  - apply (buddy_free_outside_arena sub init0 (-1)). vm_compute. discriminate.
Defined.

(** X11: [buddy_free] uses its argument only through [ADDR_TO_PAGE]: an
    address anywhere inside a page of the arena is treated as the address of
    that page, in any state.  Both copies. *)
Theorem buddy_free_rounds_to_page (c : copy) (st : state) (off : Z) :
  0 ≤ off < 2 ^ MAX_ORDER →
  buddy_free_of c st (Mem off) = buddy_free_of c st (PAGE_TO_ADDR (off `div` PAGE_SIZE)).
Proof.
  intros Hoff. change (2 ^ MAX_ORDER) with 1048576 in Hoff.
  assert (ADDR_TO_PAGE (Mem off) = ADDR_TO_PAGE (PAGE_TO_ADDR (off `div` PAGE_SIZE))) as Heq.
  { rewrite ADDR_TO_PAGE_page.
    - unfold ADDR_TO_PAGE, ulong. by rewrite Z.mod_small by lia.
    - rewrite n_pages_val, PAGE_SIZE_val. split; [apply Z.div_pos; lia|].
      apply Z.div_lt_upper_bound; lia. }
  destruct c; cbn [buddy_free_of]; unfold Root.buddy_free, Sub.buddy_free; by rewrite Heq.
Qed.

Lemma buddy_free_rounds_to_page_witness :
  buddy_free_of root after_alloc1 (Mem 100) = buddy_free_of root after_alloc1 (PAGE_TO_ADDR 0).
Proof.
  apply (buddy_free_rounds_to_page root after_alloc1 100). vm_compute. split; [discriminate|reflexivity].
Defined.

(** ** Requests of a page or less *)

(** X12: [buddy_alloc] does not reject a size of zero or below: every size
    up to [2^MIN_ORDER], negative ones included, is served as a request for
    one byte, in any state.  Both copies. *)
Theorem buddy_alloc_small_sizes (c : copy) (st : state) (size : Z) :
  size ≤ 2 ^ MIN_ORDER → buddy_alloc_of c st size = buddy_alloc_of c st 1.
Proof.
  intros Hsize. rewrite !copy_buddy_alloc. unfold Root.buddy_alloc.
  assert (Root.determineOrder size = Root.determineOrder 1) as ->; [|done].
  destruct (determineOrder_cases size) as [[_ ->]|[(k & Hk & Hs & _)|[Hs _]]]; [done| |].
  - assert (2 ^ MIN_ORDER ≤ 2 ^ (k - 1)) by (apply Z.pow_le_mono_r; unfold MIN_ORDER in *; lia).
    lia.
  - assert (2 ^ MIN_ORDER < 2 ^ MAX_ORDER) by done. lia.
Qed.

Lemma buddy_alloc_small_sizes_witness :
  buddy_alloc_of sub init0 (-7) = buddy_alloc_of sub init0 1.
Proof. apply (buddy_alloc_small_sizes sub init0 (-7)). vm_compute. discriminate. Defined.

Lemma free_pages_zero (st : state) :
  free_pages st = 0 ↔ ∀ k, MIN_ORDER ≤ k ≤ MAX_ORDER → fl st k = [].
Proof.
  unfold free_pages. split.
  - intros Hsum k Hk.
    pose proof (total_zero (λ k, Z.of_nat (length (fl st k)) * psz k) _
                  ltac:(intros j Hj%elem_of_orders; pose proof (psz_pos j); cbn beta; nia)
                  Hsum k ltac:(by apply elem_of_orders)) as Hz.
    cbn beta in Hz. pose proof (psz_pos k). destruct (fl st k); [done|]. cbn [length] in Hz. nia.
  - intros Hall. rewrite (total_ext _ (λ _, 0)).
    + by vm_compute.
    + intros k Hk%elem_of_orders. by rewrite Hall.
Qed.

(** X13: in every reachable state a request of at most one page fails
    exactly when the blocks that are out add up to the whole arena: as long
    as a page is free, a page can be had.  Both copies. *)
Theorem page_request_fails_only_when_full (c : copy) (s : sys) (size : Z) :
  reachable c s → size ≤ 2 ^ MIN_ORDER →
  (∃ st', buddy_alloc_of c (mem s) size = Ret (st', NULL)) ↔ live_kib s = 1024.
Proof.
  intros Hreach Hsize. pose proof (reachable_inv c s Hreach) as Hinv.
  pose proof (acct_mass _ _ (reachable_acct c s Hreach)) as Hmass.
  cbn [float_pages] in Hmass. rewrite n_pages_val in Hmass.
  rewrite live_kib_live_pages by done. rewrite copy_buddy_alloc.
  assert (Root.determineOrder size = MIN_ORDER) as HT.
  { destruct (determineOrder_cases size) as [[_ ->]|[(k & Hk & Hs & _)|[Hs _]]]; [done| |].
    - assert (2 ^ MIN_ORDER ≤ 2 ^ (k - 1)) by (apply Z.pow_le_mono_r; unfold MIN_ORDER in *; lia).
      lia.
    - assert (2 ^ MIN_ORDER < 2 ^ MAX_ORDER) by done. lia. }
  pose proof (buddy_alloc_cases (mem s) size (inv_wf _ _ Hinv)) as Hcases.
  cbn zeta in Hcases. rewrite HT in Hcases.
  destruct Hcases as [[Hnull Hwhy]|(k & H & rest & st1 & HTk & Hk & Hfl & _ & Hrun & _)].
  - split; [intros _|by eauto].
    destruct Hwhy as [Hm|Hall]; [done|]. apply free_pages_zero in Hall. lia.
  - split.
    + intros [st' Hrun']. rewrite Hrun in Hrun'. discriminate Hrun'.
    + intros Hfull. assert (free_pages (mem s) = 0) as Hz by lia.
      rewrite (proj1 (free_pages_zero _) Hz k) in Hfl by lia. done.
Qed.

Lemma page_request_fails_only_when_full_witness :
  (∃ st', buddy_alloc_of root after_alloc1 0 = Ret (st', NULL)) ↔
  live_kib {| mem := after_alloc1; live := [Mem 0] |} = 1024.
Proof.
  apply (page_request_fails_only_when_full root {| mem := after_alloc1; live := [Mem 0] |} 0).
  - exact (after_alloc1_reachable root).
  - vm_compute. discriminate.
Defined.

Lemma coalesce_ord st H k st' H' k' :
  coalesce st H k st' H' k' → ∀ q, ord st' q = ord st q.
Proof.
  induction 1 as [st H k Hk|st H k Hk Hb|st H k st' H' k' Hk Hb Hc IH]; intros q; [done..|].
  rewrite IH. apply ord_set_area.
Qed.

(** X14: in every reachable state [buddy_free] of an address that is out
    leaves the order stored for every other outstanding address as it was,
    and afterwards the freed page lies in a block on a free list.  Both
    copies. *)
Theorem buddy_free_frame (c : copy) (s : sys) (a : ptr) (st' : state) :
  reachable c s → a ∈ live s → buddy_free_of c (mem s) a = Ret st' →
  (∀ a', a' ∈ live s → a' ≠ a → stored_order st' a' = stored_order (mem s) a') ∧
  (∃ q k, MIN_ORDER ≤ k ≤ MAX_ORDER ∧ q ∈ fl st' k ∧ q ≤ page_of a < q + psz k).
Proof.
  intros Hreach Ha Hrun. pose proof (reachable_inv c s Hreach) as Hinv.
  pose proof (reach_free c s a st' Hreach Ha Hrun) as Hreach'.
  pose proof (reachable_inv c _ Hreach') as Hinv'.
  pose proof (inv_wf _ _ Hinv) as Hwf. pose proof (inv_wf _ _ Hinv') as Hwf'. cbn [mem] in Hwf'.
  destruct (live_block s a Hinv Ha) as (p & -> & Hp & Ho).
  rewrite copy_buddy_free in Hrun by done.
  destruct (buddy_free_spec (mem s) p Hwf Hp Ho) as (st1 & H & k & Hco & Hwf1 & HH & Hk & Hrun1).
  rewrite Hrun1 in Hrun. apply Ret_inj in Hrun.
  pose proof (coalesce_inv _ _ _ _ _ _ _ Hco (inv_from_live s p Hinv Ha)) as [Hinv1 _].
  pose proof (float_valid _ _ _ Hinv1) as Hv.
  pose proof (float_not_live _ H k H Hinv1 (valid_covers _ _ _ Hv)) as HnotH. cbn [live] in HnotH.
  assert (∀ p', PAGE_TO_ADDR p' ∈ live s → p' ≠ p → 0 ≤ p' → ord st' p' = ord (mem s) p')
    as Hframe.
  { intros p' Hp' Hne Hp0. subst st'. rewrite ord_set_area, ord_stamp by done.
    rewrite bool_decide_false; [apply (coalesce_ord _ _ _ _ _ _ Hco)|].
    intros ->. apply HnotH. unfold forget. apply list_elem_of_filter. split; [|done].
    by intros ?%PAGE_TO_ADDR_inj. }
  split.
  - intros a' Ha' Hne. destruct (inv_live_page _ _ Hinv a' Ha') as (p' & -> & Hp').
    rewrite !stored_order_wf by done. f_equal. apply Hframe; [done|by intros ->|lia].
  - rewrite page_of_PAGE_TO_ADDR. pose proof (inv_tiling _ _ Hinv') as Ht'.
    destruct (t_cover _ Ht' p Hp) as ([[t q] j] & Hb & Hc).
    destruct t; cbn [blocks mem live] in Hb; [|exfalso|done].
    + destruct Hb as [Hj Hq]. by exists q, j.
    + destruct Hb as [Hq Hord]. unfold forget in Hq.
      apply list_elem_of_filter in Hq as [Hne Hq].
      destruct (inv_live_page _ _ Hinv _ Hq) as (q' & Heq' & Hq').
      apply PAGE_TO_ADDR_inj in Heq'. subst q'.
      rewrite Hframe in Hord by (done || lia || by intros ->).
      assert ((Live, q, j) = (Live, p, ord (mem s) p)) as Heq.
      { apply (t_disj _ (inv_tiling _ _ Hinv) _ _ p); [done|done|done|].
        apply valid_covers. by apply (t_valid _ (inv_tiling _ _ Hinv)). }
      injection Heq as -> _. done.
Qed.

Lemma buddy_free_frame_witness :
  ∃ st' q k, buddy_free_of root after_alloc1 (Mem 0) = Ret st' ∧
             q ∈ fl st' k ∧ q ≤ page_of (Mem 0) < q + psz k.
Proof.
  destruct (free_inv {| mem := after_alloc1; live := [Mem 0] |} (Mem 0)
              (reachable_inv root _ (after_alloc1_reachable root)) (list_elem_of_here _ _))
    as (st' & Hrun & _).
  destruct (buddy_free_frame root {| mem := after_alloc1; live := [Mem 0] |} (Mem 0) st')
    as (_ & q & k & _ & Hq & Hc).
  - exact (after_alloc1_reachable root).
  - apply list_elem_of_here.
  - exact Hrun.
  - exists st', q, k. split; [exact Hrun|]. split; [exact Hq|exact Hc].
Defined.
